(** * A B-tree multimap (bTree.c): shallow embedding and verification

    The C program stores a multimap from [int] keys to bags of [int] values in
    a B-tree whose nodes hold [MAX_KEYS] inline key records and
    [MAX_KEYS + 1] child pointers.  Every node is owned by exactly one parent
    slot and every value buffer by exactly one key record (a split moves
    records and pointers and zeroes the slots they came from), so the heap is
    a tree and is embedded as an inductive value: a child pointer is an
    [option mm_node] ([None] is [NULL]), a value pointer an [option vbuf].
    In-place mutation through a pointer becomes a functional update of the
    slot that holds the pointee; a [key_node *] handed back to a caller
    becomes a path to the record ([kn_ptr]).

    Conventions.
    - [nKeys], array indices and element counts are [nat]: the program keeps
      them between [0] and [MAX_KEYS + 1]; a subtraction that would go
      negative in C (and turn into a huge [size_t]) is a fault here.
    - keys, values, [nVals] and byte sizes are [Z]; 32-bit [int] arithmetic
      on them is written out ([to_int], [int_add]).
    - byte counts [sizeof(T) * n] handed to [memmove]/[bzero] are element
      counts [n].
    - everything the C standard leaves undefined (null dereference, access
      outside an array, signed overflow, a failed [assert]) ends the
      computation with [Fault].
    - [malloc]/[realloc] always succeed; each call is counted. *)

From stdpp Require Import base numbers list sorting.
From Stdlib Require Import Sorting.Sorted Sorting.Permutation.

(** ** Outcomes of a computation *)

Inductive fault : Set :=
  | NullDeref       (* access through a null pointer *)
  | OutOfBounds     (* access outside an array or an allocated buffer *)
  | AssertFailed    (* a failed assert *)
  | IntOverflow     (* signed arithmetic leaving the range of int *)
  | Uninitialised   (* read of a cell never written *)
  | OutOfFuel.      (* recursion budget of the embedding used up *)

(** [Done a n]: returned [a] after [n] calls of the allocator. *)
Inductive M (A : Type) : Type :=
  | Done (a : A) (allocs : nat)
  | Fault (f : fault).
Arguments Done {A} a allocs.
Arguments Fault {A} f.

Global Instance M_ret : MRet M := λ A a, Done a 0.
Global Instance M_bind : MBind M := λ A B f m,
  match m with
  | Done a n => match f a with Done b k => Done b (n + k) | Fault e => Fault e end
  | Fault e => Fault e
  end.

Definition assert (P : Prop) `{Decision P} : M unit :=
  if decide P then mret () else Fault AssertFailed.

(** A count [a - b] used as a size: negative in C means a huge [size_t]. *)
Definition count_sub (a b : nat) : M nat :=
  if decide (b ≤ a) then mret (a - b) else Fault OutOfBounds.

(** ** Arrays *)

Definition array_get {A} (a : list A) (i : nat) : M A :=
  match a !! i with Some x => mret x | None => Fault OutOfBounds end.

Definition array_set {A} (a : list A) (i : nat) (x : A) : M (list A) :=
  if decide (i < length a) then mret (<[i := x]> a) else Fault OutOfBounds.

(** [memmove(&dst[d], &src[s], cnt)]: the [cnt] elements are read before any
    is written, so [dst] and [src] may be the same array. *)
Definition memmove {A} (dst : list A) (d : nat) (src : list A) (s cnt : nat) : M (list A) :=
  if decide (d + cnt ≤ length dst ∧ s + cnt ≤ length src)
  then mret (take d dst ++ take cnt (drop s src) ++ drop (d + cnt) dst)
  else Fault OutOfBounds.

(** [bzero(&a[from], cnt)] *)
Definition bzero {A} (zero : A) (a : list A) (from cnt : nat) : M (list A) :=
  if decide (from + cnt ≤ length a)
  then mret (take from a ++ replicate cnt zero ++ drop (from + cnt) a)
  else Fault OutOfBounds.

(** ** 32-bit int *)

Definition INT_MAX : Z := 2147483647.
Definition INT_MIN : Z := -2147483648.

(** Conversion of an out-of-range value to [int] (wraps modulo 2^32). *)
Definition to_int (z : Z) : Z := (z + 2147483648) `mod` 4294967296 - 2147483648.

(** Conversion of an [int] to [size_t] (64 bits). *)
Definition to_size_t (z : Z) : Z := z `mod` 18446744073709551616.

Definition int_add (a b : Z) : M Z :=
  if decide (INT_MIN ≤ a + b ≤ INT_MAX)%Z then mret (a + b)%Z else Fault IntOverflow.

Definition int_sub (a b : Z) : M Z :=
  if decide (INT_MIN ≤ a - b ≤ INT_MAX)%Z then mret (a - b)%Z else Fault IntOverflow.

(** ** Types *)

Definition LINE_SIZE : Z := 64.      (* the size of a cache line in bytes *)
Definition sizeof_value : Z := 4.    (* sizeof(multimap_value), an int *)

(** A block returned by [realloc]: its size in bytes and its [int] cells,
    [None] for a cell that was never written. *)
Record vbuf := Vbuf { vb_bytes : Z; vb_cells : list (option Z) }.

Record key_node := KeyNode {
  key : Z;
  nVals : Z;
  values : option vbuf
}.

#[local] Unset Elimination Schemes.
Inductive mm_node : Type := Node {
  isLeaf : bool;
  nKeys : nat;
  kNodes : list key_node;          (* key_node kNodes[MAX_KEYS] *)
  kids : list (option mm_node)     (* struct mm_node *kids[MAX_KEYS + 1] *)
}.

#[local] Set Elimination Schemes.

Record multimap := Multimap { root : option mm_node }.

(** All-zero bytes read as a key record. *)
Definition key_zero : key_node := KeyNode 0 0 None.

(** A [key_node *]: [NULL], or the address of slot [slot] of the node reached
    from the root through the child indices [path]. *)
Inductive kn_ptr := KNull | KAt (path : list nat) (slot : nat).

(** How many key records fit in a node: the constant [MAX_KEYS] of the
    source, which sets it to 500 and notes that it may be changed (2 gives a
    2-3 tree). The development is parametric in it. *)
Class Fanout := MAX_KEYS : nat.

Section BTree.

Context `{Fanout}.

Definition alloc_node : M mm_node :=
  Done (Node false 0 (replicate MAX_KEYS key_zero) (replicate (S MAX_KEYS) None)) 1.

(** The [for] loop of [searchInNode]: [i] is the loop variable and [todo] the
    number of iterations left, [nKeys - i]. *)
Fixpoint searchInNode_loop (node : mm_node) (k : Z) (i todo : nat) : M nat :=
  match todo with
  | 0 => mret (nKeys node)
  | S todo' =>
      kn ← array_get (kNodes node) i;
      if (k <=? key kn)%Z then mret i
      else searchInNode_loop node k (S i) todo'
  end.

Definition searchInNode (node : mm_node) (k : Z) : M nat :=
  searchInNode_loop node k 0 (nKeys node).

(** [splitNode(parent, pos)].  [parent->kids[pos]] keeps pointing to the elder
    child and [parent->kids[pos + 1]] receives the pointer to the younger one
    before either is filled in; the embedding stores the two children in
    their final state. *)
Definition splitNode (parent : mm_node) (pos : nat) : M mm_node :=
  oelder ← array_get (kids parent) pos;
  match oelder with
  | None => Fault NullDeref
  | Some elder =>
      younger ← alloc_node;
      (* step 1: shift the parent's key records and child pointers *)
      cnt ← count_sub (nKeys parent) pos;
      pk ← memmove (kNodes parent) (pos + 1) (kNodes parent) pos cnt;
      pc ← memmove (kids parent) (pos + 2) (kids parent) (pos + 1) cnt;
      (* step 2: the middle record of the elder goes to the parent *)
      let mid := nKeys elder / 2 in
      sep ← array_get (kNodes elder) mid;
      pk ← array_set pk pos sep;
      pc ← array_set pc (pos + 1) (Some younger);
      let pn := S (nKeys parent) in
      _ ← assert (pn ≤ MAX_KEYS);
      (* step 3: fill the younger node *)
      yn ← count_sub (nKeys elder) (mid + 1);
      yk ← memmove (kNodes younger) 0 (kNodes elder) (mid + 1) yn;
      let yleaf := isLeaf elder in
      yc ← (if yleaf then mret (kids younger)
            else memmove (kids younger) 0 (kids elder) (mid + 1) (yn + 1));
      (* step 4: cut the elder node *)
      ek ← bzero key_zero (kNodes elder) mid (yn + 1);
      ec ← (if isLeaf elder then mret (kids elder)
            else bzero None (kids elder) (mid + 1) (yn + 1));
      let younger' := Node yleaf yn yk yc in
      let elder' := Node (isLeaf elder) mid ek ec in
      pc ← array_set pc pos (Some elder');
      pc ← array_set pc (pos + 1) (Some younger');
      mret (Node (isLeaf parent) pn pk pc)
  end.

(** [searchAndInsert] recurses on a child or, after a split, on the same
    node; [fuel] bounds the number of calls. The pointer returned by a call on
    a child is re-rooted at [node] by prefixing the child's index. *)
Fixpoint searchAndInsert_fuel (fuel : nat) (node : mm_node) (k : Z)
    (create_if_not_found : bool) : M (mm_node * kn_ptr) :=
  match fuel with
  | 0 => Fault OutOfFuel
  | S fuel' =>
      pos ← searchInNode node k;
      (* pos < node->nKeys && node->kNodes[pos].key == key *)
      found ← (if decide (pos < nKeys node)
               then kn ← array_get (kNodes node) pos; mret (bool_decide (key kn = k))
               else mret false : M bool);
      if found : bool then mret (node, KAt [] pos)
      else if isLeaf node then
        if create_if_not_found then
          cnt ← count_sub (nKeys node) pos;
          ks ← memmove (kNodes node) (pos + 1) (kNodes node) pos cnt;
          ks ← bzero key_zero ks pos 1;
          kn ← array_get ks pos;
          ks ← array_set ks pos (KeyNode k (nVals kn) (values kn));
          let n := S (nKeys node) in
          _ ← assert (n ≤ MAX_KEYS);
          mret (Node (isLeaf node) n ks (kids node), KAt [] pos)
        else mret (node, KNull)
      else
        onext ← array_get (kids node) pos;
        match onext with
        | None => Fault NullDeref
        | Some nextNode =>
            if create_if_not_found && bool_decide (nKeys nextNode = MAX_KEYS) then
              node' ← splitNode node pos;
              (* nextNode = node: must re-examine since tree modified *)
              searchAndInsert_fuel fuel' node' k create_if_not_found
            else
              '(next', p) ← searchAndInsert_fuel fuel' nextNode k create_if_not_found;
              kids' ← array_set (kids node) pos (Some next');
              mret (Node (isLeaf node) (nKeys node) (kNodes node) kids',
                    match p with KNull => KNull | KAt path slot => KAt (pos :: path) slot end)
        end
  end.

(** Number of levels below [node] along its first children. *)
Fixpoint depth (node : mm_node) : nat :=
  if isLeaf node then 0
  else match kids node with
       | Some c :: _ => S (depth c)
       | _ => 0
       end.

(** Each level costs at most two calls: one that splits the child about to
    be entered and one that re-examines the node. *)
Definition searchAndInsert (node : mm_node) (k : Z) (create_if_not_found : bool)
    : M (mm_node * kn_ptr) :=
  searchAndInsert_fuel (2 * depth node + 2) node k create_if_not_found.

(** [find_node].  On an empty tree with [create_if_not_found] unset the C code
    still evaluates [&mm->root->kNodes[0]] with [mm->root == NULL]: an access
    through the null root. *)
Definition find_node (mm : multimap) (k : Z) (create_if_not_found : bool)
    : M (multimap * kn_ptr) :=
  match root mm with
  | None =>
      if create_if_not_found then
        node ← alloc_node;
        kn ← array_get (kNodes node) 0;
        ks ← array_set (kNodes node) 0 (KeyNode k (nVals kn) (values kn));
        let n := S (nKeys node) in
        _ ← assert (n ≤ MAX_KEYS);
        mret (Multimap (Some (Node true n ks (kids node))), KAt [] 0)
      else Fault NullDeref
  | Some node =>
      node ←
        (if bool_decide (nKeys node = MAX_KEYS) && create_if_not_found then
           newroot ← alloc_node;
           kids0 ← array_set (kids newroot) 0 (Some node);
           splitNode (Node false (nKeys newroot) (kNodes newroot) kids0) 0
         else mret node);
      '(node', p) ← searchAndInsert node k create_if_not_found;
      mret (Multimap (Some node'), p)
  end.

(** Reading and writing the record a [key_node *] points to. *)
Fixpoint kn_load (node : mm_node) (path : list nat) (slot : nat) : M key_node :=
  match path with
  | [] => array_get (kNodes node) slot
  | i :: path' =>
      oc ← array_get (kids node) i;
      match oc with
      | None => Fault NullDeref
      | Some c => kn_load c path' slot
      end
  end.

Fixpoint kn_store (node : mm_node) (path : list nat) (slot : nat) (kn : key_node)
    : M mm_node :=
  match path with
  | [] =>
      ks ← array_set (kNodes node) slot kn;
      mret (Node (isLeaf node) (nKeys node) ks (kids node))
  | i :: path' =>
      oc ← array_get (kids node) i;
      match oc with
      | None => Fault NullDeref
      | Some c =>
          c' ← kn_store c path' slot kn;
          kids' ← array_set (kids node) i (Some c');
          mret (Node (isLeaf node) (nKeys node) (kNodes node) kids')
      end
  end.

(** ** Value buffers *)

(** [realloc(old, size)]: a block of [size] bytes that keeps the cells of
    [old] ([realloc(NULL, size)] is [malloc(size)]). *)
Definition realloc (old : option vbuf) (size : Z) : M (option vbuf) :=
  let ncells := Z.to_nat (size / sizeof_value) in
  let cells := match old with Some b => vb_cells b | None => [] end in
  Done (Some (Vbuf size (take ncells (cells ++ replicate (ncells - length cells) None)))) 1.

(** [values[i] = v] *)
Definition buf_write (values : option vbuf) (i v : Z) : M (option vbuf) :=
  match values with
  | None => Fault NullDeref
  | Some b =>
      if decide (0 ≤ i ∧ (i + 1) * sizeof_value ≤ vb_bytes b)%Z then
        cells ← array_set (vb_cells b) (Z.to_nat i) (Some v);
        mret (Some (Vbuf (vb_bytes b) cells))
      else Fault OutOfBounds
  end.

(** [values[i]] read *)
Definition buf_read (values : option vbuf) (i : nat) : M Z :=
  match values with
  | None => Fault NullDeref
  | Some b =>
      if decide ((Z.of_nat i + 1) * sizeof_value ≤ vb_bytes b)%Z then
        cell ← array_get (vb_cells b) i;
        match cell with Some v => mret v | None => Fault Uninitialised end
      else Fault OutOfBounds
  end.

(** The loop [while (spaceAlloced < spaceTaken) spaceAlloced += LINE_SIZE]. *)
Fixpoint round_to_line (fuel : nat) (spaceAlloced spaceTaken : Z) : M Z :=
  if (spaceAlloced <? spaceTaken)%Z then
    match fuel with
    | 0 => Fault OutOfFuel
    | S fuel' =>
        a ← int_add spaceAlloced LINE_SIZE;
        round_to_line fuel' a spaceTaken
    end
  else mret spaceAlloced.

(** ** The public operations *)

Definition init_multimap : M multimap := Done (Multimap None) 1.

(** The second half of [mm_add_value], on the record [kNodePtr] points to:
    size the buffer in whole cache lines, store the value, count it. *)
Definition append_value (kn : key_node) (v : Z) : M key_node :=
  let spaceTaken := to_int (nVals kn * sizeof_value) in
  spaceAlloced ← round_to_line (Z.to_nat (spaceTaken / LINE_SIZE + 1)) 0 spaceTaken;
  room ← int_sub spaceAlloced spaceTaken;
  vals ← (if decide (to_size_t room < sizeof_value)%Z then
            size ← int_add spaceAlloced LINE_SIZE;
            realloc (values kn) size
          else mret (values kn));
  vals ← buf_write vals (nVals kn) v;
  n ← int_add (nVals kn) 1;
  mret (KeyNode (key kn) n vals).

Definition mm_add_value (mm : multimap) (k v : Z) : M multimap :=
  '(mm, kNodePtr) ← find_node mm k true;
  match kNodePtr, root mm with
  | KNull, _ => Fault AssertFailed          (* assert(kNodePtr != NULL) *)
  | KAt _ _, None => Fault NullDeref
  | KAt path slot, Some r =>
      kn ← kn_load r path slot;
      _ ← assert (key kn = k);
      kn' ← append_value kn v;
      r' ← kn_store r path slot kn';
      mret (Multimap (Some r'))
  end.

Definition mm_contains_key (mm : multimap) (k : Z) : M (multimap * bool) :=
  '(mm, kNodePtr) ← find_node mm k false;
  mret (mm, match kNodePtr with KNull => false | KAt _ _ => true end).

(** The scan of [mm_contains_pair] over [values[0 .. nVals - 1]]. *)
Fixpoint contains_pair_loop (kn : key_node) (v : Z) (i todo : nat) : M bool :=
  match todo with
  | 0 => mret false
  | S todo' =>
      x ← buf_read (values kn) i;
      if decide (x = v) then mret true
      else contains_pair_loop kn v (S i) todo'
  end.

Definition mm_contains_pair (mm : multimap) (k v : Z) : M (multimap * bool) :=
  '(mm, kNodePtr) ← find_node mm k false;
  match kNodePtr, root mm with
  | KNull, _ => mret (mm, false)
  | KAt _ _, None => Fault NullDeref
  | KAt path slot, Some r =>
      kn ← kn_load r path slot;
      b ← contains_pair_loop kn v 0 (Z.to_nat (nVals kn));
      mret (mm, b)
  end.

(** ** Traversal *)

(** What a traversal did: the pairs handed to the visitor [f], in order, and
    how it ended ([None]: it returned). *)
Record visit := Visit { delivered : list (Z * Z); ended : option fault }.

Definition visit_seq (a b : visit) : visit :=
  match ended a with
  | None => Visit (delivered a ++ delivered b) (ended b)
  | Some _ => a
  end.

Fixpoint kNode_traverse_loop (kn : key_node) (i todo : nat) : visit :=
  match todo with
  | 0 => Visit [] None
  | S todo' =>
      match buf_read (values kn) i with
      | Done x _ => visit_seq (Visit [(key kn, x)] None) (kNode_traverse_loop kn (S i) todo')
      | Fault e => Visit [] (Some e)
      end
  end.

Definition kNode_traverse (kn : key_node) : visit :=
  kNode_traverse_loop kn 0 (Z.to_nat (nVals kn)).

(** The loop of [mm_traverse_helper] over [i], with [todo = nKeys - i]
    iterations left, followed by the visit of the last child.
    [kid_visits !! i] is the traversal of [kids[i]]. *)
Fixpoint traverse_loop (leaf : bool) (ks : list key_node) (kid_visits : list visit)
    (i todo : nat) : visit :=
  let visit_kid :=
    if leaf then Visit [] None
    else default (Visit [] (Some OutOfBounds)) (kid_visits !! i) in
  match todo with
  | 0 => visit_kid
  | S todo' =>
      visit_seq visit_kid
        (visit_seq (match ks !! i with
                    | Some kn => kNode_traverse kn
                    | None => Visit [] (Some OutOfBounds)
                    end)
                   (traverse_loop leaf ks kid_visits (S i) todo'))
  end.

Fixpoint mm_traverse_helper (node : mm_node) : visit :=
  match node with
  | Node leaf n ks cs =>
      traverse_loop leaf ks
        (map (λ oc, match oc with
                    | Some c => mm_traverse_helper c
                    | None => Visit [] (Some NullDeref)
                    end) cs)
        0 n
  end.

(** [mm_traverse] hands [mm->root] to the helper without a null check. *)
Definition mm_traverse (mm : multimap) : visit :=
  match root mm with
  | None => Visit [] (Some NullDeref)
  | Some r => mm_traverse_helper r
  end.

(** ** Teardown *)

(** The loop of [free_multimap_node]; [kid_frees !! i] is the release of the
    subtree [kids[i]], and [free(node->kNodes[i].values)] reads slot [i]. *)
Fixpoint free_loop (leaf : bool) (ks : list key_node) (kid_frees : list (M unit))
    (i todo : nat) : M unit :=
  let free_kid :=
    if leaf then mret ()
    else default (Fault OutOfBounds) (kid_frees !! i) in
  match todo with
  | 0 => free_kid
  | S todo' =>
      _ ← free_kid;
      _ ← array_get ks i;
      free_loop leaf ks kid_frees (S i) todo'
  end.

Fixpoint free_multimap_node (node : mm_node) : M unit :=
  match node with
  | Node leaf n ks cs =>
      free_loop leaf ks
        (map (λ oc, match oc with
                    | Some c => free_multimap_node c
                    | None => Fault NullDeref
                    end) cs)
        0 n
  end.

Definition clear_multimap (mm : multimap) : M multimap :=
  _ ← match root mm with
      | Some r => free_multimap_node r
      | None => mret ()
      end;
  mret (Multimap None).

(** ** Sequences of calls *)

(** The calls a client can make on a multimap it holds. *)
Inductive op :=
  | Add (k v : Z)
  | ContainsKey (k : Z)
  | ContainsPair (k v : Z)
  | Clear.

(** One call: the multimap it leaves. *)
Definition step (mm : multimap) (o : op) : M multimap :=
  match o with
  | Add k v => mm_add_value mm k v
  | ContainsKey k => '(mm, _) ← mm_contains_key mm k; mret mm
  | ContainsPair k v => '(mm, _) ← mm_contains_pair mm k v; mret mm
  | Clear => clear_multimap mm
  end.

Fixpoint run (mm : multimap) (ops : list op) : M multimap :=
  match ops with
  | [] => mret mm
  | o :: ops' => mm' ← step mm o; run mm' ops'
  end.

(** [init_multimap] followed by the calls [ops]. *)
Definition session (ops : list op) : M multimap :=
  mm ← init_multimap; run mm ops.

(** [init_multimap] followed by one [mm_add_value] per pair of [kvs]. *)
Definition add_all (kvs : list (Z * Z)) : M multimap :=
  session ((λ kv : Z * Z, Add kv.1 kv.2) <$> kvs).

End BTree.

(** * Notions used to state the properties *)

(** ** Arrays with a live prefix

    An array of [N] slots whose first [length live] slots hold [live] and whose
    other slots hold [z] (zero bytes). *)

Definition padded {A} (N : nat) (z : A) (live : list A) : list A :=
  live ++ replicate (N - length live) z.

Section notions.
Context `{Fanout}.

(** A leaf and an inner node whose live key records are [live] and whose
    children are [cs]; all other slots are zero. *)
Definition mk_leaf (live : list key_node) : mm_node :=
  Node true (length live) (padded MAX_KEYS key_zero live) (replicate (S MAX_KEYS) None).

Definition mk_inner (live : list key_node) (cs : list mm_node) : mm_node :=
  Node false (length live) (padded MAX_KEYS key_zero live)
       (padded (S MAX_KEYS) None (Some <$> cs)).

(** [shape h node]: [node] is the root of a subtree all of whose leaves are
    [h] levels down, with at most [MAX_KEYS] records per node, one more
    child than records in every inner node, and nothing in the unused
    slots. *)
Inductive shape : nat → mm_node → Prop :=
  | shape_leaf live :
      length live ≤ MAX_KEYS → shape 0 (mk_leaf live)
  | shape_inner h live cs :
      length live ≤ MAX_KEYS → length cs = S (length live) →
      Forall (shape h) cs → shape (S h) (mk_inner live cs).

Definition mk_node (leaf : bool) (live : list key_node) (cs : list mm_node) : mm_node :=
  if leaf then mk_leaf live else mk_inner live cs.

End notions.

(** ** The key records of a subtree, in traversal order *)

(** [inter [e0; e1; ...; en] [k0; ...; k(n-1)] = e0 ++ k0 :: e1 ++ ... ++ en] *)
Fixpoint inter {A} (es : list (list A)) (ks : list A) : list A :=
  match es with
  | [] => []
  | e :: es' => e ++ match ks with [] => [] | k :: ks' => k :: inter es' ks' end
  end.

Definition itail {A} (es : list (list A)) (ks : list A) : list A :=
  match ks with [] => [] | k :: ks' => k :: inter es ks' end.

(** [segs [e0; ...; e(n-1)] [k0; ...; k(n-1)] = e0 ++ k0 :: ... ++ e(n-1) ++ [k(n-1)]] *)
Fixpoint segs {A} (es : list (list A)) (ks : list A) : list A :=
  match es, ks with
  | e :: es', k :: ks' => e ++ k :: segs es' ks'
  | _, _ => []
  end.

Fixpoint elems (node : mm_node) : list key_node :=
  match node with
  | Node leaf n ks cs =>
      if leaf then take n ks
      else inter (take (S n) (map (λ oc, match oc with
                                         | Some c => elems c
                                         | None => []
                                         end) cs))
                 (take n ks)
  end.


(** The index [searchInNode] computes, on the live records of a node. *)
Fixpoint lower_bound (k : Z) (live : list key_node) : nat :=
  match live with
  | [] => 0
  | kn :: live' => if (k <=? key kn)%Z then 0 else S (lower_bound k live')
  end.

(** Key records in strictly increasing key order. *)
Definition key_lt (a b : key_node) : Prop := (key a < key b)%Z.
Definition sorted (l : list key_node) : Prop := StronglySorted key_lt l.

(** The record a freshly created key starts from. *)
Definition fresh (k : Z) : key_node := KeyNode k 0 None.

Section pointers.
Context `{Fanout}.

(** The pointer [(path, slot)] into [node] designates the record [kn], which
    sits between [l1] and [l2] in traversal order; writing through the
    pointer replaces that record and nothing else. *)
Definition points_to (h : nat) (node : mm_node) (path : list nat) (slot : nat)
    (l1 : list key_node) (kn : key_node) (l2 : list key_node) : Prop :=
  kn_load node path slot = Done kn 0 ∧
  elems node = l1 ++ kn :: l2 ∧
  ∀ kn', ∃ node', kn_store node path slot kn' = Done node' 0 ∧
                  shape h node' ∧ elems node' = l1 ++ kn' :: l2.

(** Outcome of a find-or-create for [k] on a subtree whose records were
    [old], which left the subtree [node'] and returned [p]: [p] points to the
    record of [k], which is the one [old] had or a fresh one put in its
    place in the order. *)
Definition inserted_into (h : nat) (old : list key_node) (node' : mm_node) (k : Z)
    (p : kn_ptr) : Prop :=
  ∃ path slot l1 kn l2,
    p = KAt path slot ∧ shape h node' ∧ points_to h node' path slot l1 kn l2 ∧
    key kn = k ∧
    Forall (λ x, key x < k)%Z l1 ∧ Forall (λ x, k < key x)%Z l2 ∧
    (old = l1 ++ kn :: l2 ∨ (old = l1 ++ l2 ∧ kn = fresh k)).

Definition inserted (h : nat) (node node' : mm_node) (k : Z) (p : kn_ptr) : Prop :=
  inserted_into h (elems node) node' k p.

(** The find-or-create contract, for subtrees of height [h] whose root has
    room. *)
Definition sai_ok (h : nat) : Prop :=
  ∀ fuel node k,
    shape h node → sorted (elems node) → nKeys node < MAX_KEYS → 2 * h + 2 ≤ fuel →
    ∃ node' p a, searchAndInsert_fuel fuel node k true = Done (node', p) a ∧
                 inserted h node node' k p.

(** What a lookup returns: [NULL] when no record carries [k], else a pointer
    to the record that does. *)
Definition looked_up (h : nat) (node : mm_node) (k : Z) (p : kn_ptr) : Prop :=
  match p with
  | KNull => Forall (λ x, key x ≠ k) (elems node)
  | KAt path slot => ∃ l1 kn l2, points_to h node path slot l1 kn l2 ∧ key kn = k
  end.

End pointers.

(** Whether the record at the index found by [searchInNode] carries [k]. *)
Definition found_at (k : Z) (live : list key_node) : bool :=
  match live !! lower_bound k live with
  | Some kn => bool_decide (key kn = k)
  | None => false
  end.

(** The key records of a multimap, in traversal order. *)
Definition tree_elems (mm : multimap) : list key_node :=
  match root mm with
  | None => []
  | Some r => elems r
  end.

(** ** Value buffers *)

(** The least multiple of [LINE_SIZE] that is at least [n]. *)
Definition line_up (n : Z) : Z := LINE_SIZE * ((n + LINE_SIZE - 1) / LINE_SIZE).

(** Size in bytes of the buffer that holds the values [vs]. *)
Definition buf_bytes (vs : list Z) : Z := line_up (sizeof_value * Z.of_nat (length vs)).

(** The buffer of a record whose values are [vs]: none when there is no
    value, else whole cache lines with [vs] in the first cells. *)
Definition buf_of (vs : list Z) : option vbuf :=
  match vs with
  | [] => None
  | _ => Some (Vbuf (buf_bytes vs)
                 ((Some <$> vs)
                    ++ replicate (Z.to_nat (buf_bytes vs / sizeof_value) - length vs) None))
  end.

(** The record of key [k] with values [vs]. *)
Definition kn_of (k : Z) (vs : list Z) : key_node :=
  KeyNode k (Z.of_nat (length vs)) (buf_of vs).

(** The largest [nVals] at which [mm_add_value] still computes its sizes
    within [int]: [nVals * 4 + LINE_SIZE <= INT_MAX]. *)
Definition VALS_MAX : Z := 536870895.

(** ** The multimap a tree stands for *)

(** Keys in increasing order, each with its values in insertion order. *)
Abbreviation contents := (list (Z * list Z)).

(** Adding [(k, v)]: at the end of the values of [k], or as a new key in its
    place in the order. *)
Fixpoint assoc_add (k v : Z) (l : contents) : contents :=
  match l with
  | [] => [(k, [v])]
  | (k', vs) :: l' =>
      if (k <? k')%Z then (k, [v]) :: l
      else if (k =? k')%Z then (k', vs ++ [v]) :: l'
      else (k', vs) :: assoc_add k v l'
  end.

(** The pairs of [l] in the order of a traversal. *)
Definition flatten (l : contents) : list (Z * Z) :=
  concat ((λ kv : Z * list Z, (λ v, (kv.1, v)) <$> kv.2) <$> l).

(** The key records that hold [l]. *)
Definition rep_of (l : contents) : list key_node :=
  (λ kv : Z * list Z, kn_of kv.1 kv.2) <$> l.

Section representation.
Context `{Fanout}.

(** [mm] is a well-formed tree that holds exactly [l]. *)
Definition mm_rep (mm : multimap) (l : contents) : Prop :=
  Forall (λ kv, kv.2 ≠ []) l ∧ sorted (rep_of l) ∧
  match root mm with
  | None => l = []
  | Some r => l ≠ [] ∧ ∃ h, shape h r ∧ elems r = rep_of l
  end.

End representation.

(** ** What a traversal delivers *)

(** The pairs [kNode_traverse] hands to the visitor for one record, and
    whether it gets through the record. *)
Definition pairs (kn : key_node) : list (Z * Z) := delivered (kNode_traverse kn).
Definition readable (kn : key_node) : Prop := ended (kNode_traverse kn) = None.

(** The values stored under each key are at most [n]. *)
Definition vals_within (n : Z) (l : contents) : Prop :=
  Forall (λ kv, Z.of_nat (length kv.2) ≤ n)%Z l.


(** What a multimap holds after the pairs [kvs] were added in this order. *)
Definition contents_of (kvs : list (Z * Z)) : contents :=
  foldl (λ l kv, assoc_add kv.1 kv.2 l) [] kvs.

(** The pairs of a list that carry the key [k], in the order of the list. *)
Definition with_key (k : Z) (kvs : list (Z * Z)) : list (Z * Z) :=
  filter (λ kv, kv.1 = k) kvs.

(** Pairs in ascending key order. *)
Definition key_ordered (kvs : list (Z * Z)) : Prop :=
  StronglySorted (λ p q, p.1 ≤ q.1)%Z kvs.

(** The bound on the number of [mm_add_value] calls below which no [int]
    of the program can overflow: [2^29 - 16]. *)
Definition ADD_LIMIT : Z := 536870896.

(** What a call does to the contents. *)
Definition op_contents (o : op) (l : contents) : contents :=
  match o with
  | Add k v => assoc_add k v l
  | ContainsKey _ | ContainsPair _ _ => l
  | Clear => []
  end.

(** The contents after [init_multimap] and the calls [ops]. *)
Definition session_contents (ops : list op) : contents :=
  foldl (λ l o, op_contents o l) [] ops.

(** ** The nodes of a tree *)

(** [at_depth d r node]: [node] is reached from [r] by following [d] child
    pointers, each taken from one of the first [nKeys + 1] slots of an
    inner node. *)
Inductive at_depth : nat → mm_node → mm_node → Prop :=
  | at_root r : at_depth 0 r r
  | at_child d r node i c :
      at_depth d r node → isLeaf node = false → i ≤ nKeys node →
      kids node !! i = Some (Some c) → at_depth (S d) r c.

(** Bytes allocated for the values of a record. *)
Definition alloc_bytes (kn : key_node) : Z :=
  match values kn with
  | Some b => vb_bytes b
  | None => 0
  end.

(** The record stored under the key [k], if there is one. *)
Definition key_record `{Fanout} (mm : multimap) (k : Z) : option key_node :=
  head (filter (λ kn, key kn = k) (tree_elems mm)).

(** Its number of values and the bytes of its buffer; zero for a key that
    has no record. *)
Definition nvals_of `{Fanout} (mm : multimap) (k : Z) : Z :=
  from_option nVals 0%Z (key_record mm k).

Definition bytes_of `{Fanout} (mm : multimap) (k : Z) : Z :=
  from_option alloc_bytes 0%Z (key_record mm k).

(** ** Further notions *)

(** The pairs added since the last [clear_multimap], in the order of the
    calls. *)
Definition live_adds (ops : list op) : list (Z * Z) :=
  foldl (λ acc o, match o with
                  | Add k v => acc ++ [(k, v)]
                  | Clear => []
                  | ContainsKey _ | ContainsPair _ _ => acc
                  end) [] ops.

(** The number of nodes of a subtree: the node and what its first
    [nKeys + 1] children lead to. *)
Fixpoint node_count (node : mm_node) : nat :=
  match node with
  | Node leaf n ks cs =>
      if leaf then 1
      else S (sum_list (take (S n) (map (λ oc, match oc with
                                               | Some c => node_count c
                                               | None => 0
                                               end) cs)))
  end.

Definition tree_nodes (mm : multimap) : nat :=
  match root mm with
  | None => 0
  | Some r => node_count r
  end.

(** The number of levels below the root; [0] for the empty multimap. *)
Definition height (mm : multimap) : nat :=
  match root mm with
  | None => 0
  | Some r => depth r
  end.

(** The cache lines held by the value buffers of a multimap. *)
Definition buffer_lines (mm : multimap) : nat :=
  sum_list_with (λ kn, Z.to_nat (alloc_bytes kn / LINE_SIZE)) (tree_elems mm).

(** Every node below the root [r] holds at least [m] records. *)
Definition filled (m : nat) (r : mm_node) : Prop :=
  ∀ d node, at_depth (S d) r node → m ≤ nKeys node.

(** The pointer [(path, slot)] into [node] designates a live record: the
    path goes through children in use, and [slot] is below [nKeys] of the
    node it ends in. *)
Inductive ptr_in : mm_node → list nat → nat → Prop :=
  | ptr_here node slot : slot < nKeys node → ptr_in node [] slot
  | ptr_down node i c path slot :
      isLeaf node = false → i ≤ nKeys node → kids node !! i = Some (Some c) →
      ptr_in c path slot → ptr_in node (i :: path) slot.

(** What a find-or-create that made [a] allocations did to the subtree
    [node] of height [h], besides placing the record: it left a subtree
    [node'] of the same height with [a] more nodes, took no record away from
    the root, kept every node below the root at [m] records or more, and
    returned a pointer to a live record. *)
Definition grown `{Fanout} (m h : nat) (node node' : mm_node) (p : kn_ptr) (a : nat) : Prop :=
  shape h node' ∧ node_count node' = node_count node + a ∧
  nKeys node ≤ nKeys node' ∧ (filled m node → filled m node') ∧
  ∃ path slot, p = KAt path slot ∧ ptr_in node' path slot.

(** The occupancy a tree keeps: a root, when there is one, holds a record,
    and every other node holds at least [(MAX_KEYS - 1) / 2] records, the
    size of the smaller half of a split. *)
Definition occupied `{Fanout} (mm : multimap) : Prop :=
  ∀ r, root mm = Some r → 1 ≤ nKeys r ∧ filled ((MAX_KEYS - 1) / 2) r.

(** ** The blocks [free_multimap_node] releases *)

(** Whether a record holds a block: [free(node->kNodes[i].values)] releases
    one unless the pointer is null. *)
Definition held (kn : key_node) : nat :=
  match values kn with Some _ => 1 | None => 0 end.

(** [free_multimap_node] with its calls of [free] on a non-null pointer
    counted: the loop over [i] with [todo = nKeys - i] iterations left, then
    the last child; [kid_rel !! i] is the release of the subtree [kids[i]]. *)
Fixpoint release_loop (leaf : bool) (ks : list key_node) (kid_rel : list (M nat))
    (i todo : nat) : M nat :=
  let rel_kid :=
    if leaf then mret 0
    else default (Fault OutOfBounds) (kid_rel !! i) in
  match todo with
  | 0 => rel_kid
  | S todo' =>
      a ← rel_kid;
      kn ← array_get ks i;
      b ← release_loop leaf ks kid_rel (S i) todo';
      mret (a + held kn + b)
  end.

(** The number of blocks released by [free_multimap_node (node)], the last
    of them [node] itself. *)
Fixpoint released (node : mm_node) : M nat :=
  match node with
  | Node leaf n ks cs =>
      below ← release_loop leaf ks
                 (map (λ oc, match oc with
                             | Some c => released c
                             | None => Fault NullDeref
                             end) cs)
                 0 n;
      mret (S below)
  end.

(** * Verification *)

#[global] Arguments Nat.div : simpl never.
#[global] Arguments Z.div : simpl never.
#[global] Arguments Z.modulo : simpl never.

(** ** Running the monad *)

Lemma bind_Done {A B} (m : M A) (f : A → M B) a n b k :
  m = Done a n → f a = Done b k → m ≫= f = Done b (n + k).
Proof. intros -> Hf. cbn. by rewrite Hf. Qed.

Lemma bind_Done_inv {A B} (m : M A) (f : A → M B) b n :
  m ≫= f = Done b n → ∃ a n1 n2, m = Done a n1 ∧ f a = Done b n2 ∧ n = n1 + n2.
Proof.
  destruct m as [a n1|e]; cbn; [|done].
  destruct (f a) as [b' n2|e] eqn:Hf; [|done].
  intros [= -> <-]. eauto 6.
Qed.

Lemma bind_Done0 {A B} (m : M A) (f : A → M B) a : m = Done a 0 → m ≫= f = f a.
Proof. intros ->. cbn. by destruct (f a). Qed.

Lemma bind_Done_S {A B} (m : M A) (f : A → M B) a n b k :
  m = Done a n → f a = Done b k → m ≫= f = Done b (n + k).
Proof. apply bind_Done. Qed.

Lemma assert_Done (P : Prop) `{Decision P} : P → assert P = Done () 0.
Proof. intros HP. unfold assert. by rewrite decide_True. Qed.

Lemma count_sub_Done a b : b ≤ a → count_sub a b = Done (a - b) 0.
Proof. intros. unfold count_sub. by rewrite decide_True. Qed.

Lemma array_get_Done {A} (a : list A) i x : a !! i = Some x → array_get a i = Done x 0.
Proof. intros Hx. unfold array_get. by rewrite Hx. Qed.

Lemma array_set_Done {A} (a : list A) i x :
  i < length a → array_set a i x = Done (<[i := x]> a) 0.
Proof. intros. unfold array_set. by rewrite decide_True. Qed.

Lemma memmove_Done {A} (dst src : list A) d s cnt :
  d + cnt ≤ length dst → s + cnt ≤ length src →
  memmove dst d src s cnt = Done (take d dst ++ take cnt (drop s src) ++ drop (d + cnt) dst) 0.
Proof. intros. unfold memmove. by rewrite decide_True. Qed.

Lemma bzero_Done {A} (z : A) (a : list A) from cnt :
  from + cnt ≤ length a →
  bzero z a from cnt = Done (take from a ++ replicate cnt z ++ drop (from + cnt) a) 0.
Proof. intros. unfold bzero. by rewrite decide_True. Qed.

Lemma bzero_one {A} (z : A) (a : list A) pos :
  pos < length a → bzero z a pos 1 = Done (<[pos := z]> a) 0.
Proof.
  intros. rewrite bzero_Done by lia. simpl.
  rewrite insert_take_drop by done. by replace (pos + 1) with (S pos) by lia.
Qed.

(** One step of a computation: the first action returns without allocating. *)
Ltac mstep tac :=
  erewrite bind_Done0 by tac;
  cbv beta iota zeta; cbn [kids kNodes nKeys isLeaf key nVals values root].

(** ** Arrays with a live prefix *)

Section padded.
Context {A : Type} (N : nat) (z : A).
Implicit Types live : list A.

Lemma length_padded live : length live ≤ N → length (padded N z live) = N.
Proof. intros. unfold padded. rewrite length_app, length_replicate. lia. Qed.

Lemma padded_nil : padded N z [] = replicate N z.
Proof. unfold padded. simpl. by rewrite Nat.sub_0_r. Qed.

Lemma lookup_padded_lt live i : i < length live → padded N z live !! i = live !! i.
Proof. intros. unfold padded. by rewrite lookup_app_l. Qed.

Lemma lookup_padded_ge live i :
  length live ≤ i → i < N → padded N z live !! i = Some z.
Proof.
  intros. unfold padded. rewrite lookup_app_r by done.
  apply lookup_replicate_2. lia.
Qed.

Lemma take_padded live n : n = length live → take n (padded N z live) = live.
Proof. intros ->. unfold padded. by rewrite take_app_length. Qed.

Lemma take_padded_le live n : n ≤ length live → take n (padded N z live) = take n live.
Proof. intros. unfold padded. by rewrite take_app_le. Qed.

Lemma padded_inj live1 live2 :
  length live1 = length live2 → padded N z live1 = padded N z live2 → live1 = live2.
Proof.
  intros Hlen Heq. unfold padded in Heq.
  by apply app_inj_1 in Heq as [? _].
Qed.

Lemma insert_padded live i x :
  i < length live → <[i := x]> (padded N z live) = padded N z (<[i := x]> live).
Proof.
  intros. unfold padded. rewrite insert_app_l by done. by rewrite length_insert.
Qed.

(** Opening a gap at [pos] by moving the tail of the live prefix one slot to
    the right, and filling it with [x]. *)
Lemma shift_insert_padded live pos d cnt x :
  length live < N → pos ≤ length live → d = pos + 1 → cnt = length live - pos →
  <[pos := x]> (take d (padded N z live) ++ take cnt (drop pos (padded N z live))
                 ++ drop (d + cnt) (padded N z live))
  = padded N z (take pos live ++ x :: drop pos live).
Proof.
  intros Hn Hpos -> ->. unfold padded.
  assert (Hlen : length (take pos live ++ x :: drop pos live) = S (length live)).
  { rewrite length_app, length_take. simpl. rewrite length_drop. lia. }
  rewrite Hlen.
  rewrite (drop_app_le live) by lia.
  rewrite (take_app_length' (drop pos live)) by (rewrite length_drop; lia).
  replace (pos + 1 + (length live - pos)) with (length live + 1) by lia.
  rewrite drop_app_add, (drop_replicate 1).
  replace (N - length live - 1) with (N - S (length live)) by lia.
  rewrite insert_app_l by (rewrite length_take, length_app, length_replicate; lia).
  rewrite <- (app_assoc (take pos live)). simpl.
  assert (<[pos:=x]> (take (pos + 1) (live ++ replicate (N - length live) z))
          = take pos live ++ [x]) as ->; [|by rewrite <- app_assoc].
  apply list_eq. intros i.
  destruct (decide (i = pos)) as [->|].
  - rewrite list_lookup_insert_eq
      by (rewrite length_take, length_app, length_replicate; lia).
    rewrite lookup_app_r by (rewrite length_take; lia).
    rewrite length_take. by replace (pos - pos `min` length live) with 0 by lia.
  - rewrite list_lookup_insert_ne by done.
    destruct (decide (i < pos)).
    + rewrite lookup_take_lt by lia. rewrite lookup_app_l by lia.
      rewrite lookup_app_l by (rewrite length_take; lia).
      by rewrite lookup_take_lt by lia.
    + rewrite lookup_take_ge by lia.
      rewrite lookup_app_r by (rewrite length_take; lia).
      rewrite length_take. symmetry.
      replace (i - pos `min` length live) with (S (i - S pos)) by lia.
      done.
Qed.

(** Copying the live tail from [start] on into a fresh array. *)
Lemma copy_tail_padded live start cnt :
  start ≤ length live → length live ≤ N → cnt = length live - start →
  take 0 (replicate N z) ++ take cnt (drop start (padded N z live))
    ++ drop (0 + cnt) (replicate N z)
  = padded N z (drop start live).
Proof.
  intros ?? ->. unfold padded. simpl.
  rewrite drop_app_le by lia.
  rewrite take_app_length' by (rewrite length_drop; lia).
  by rewrite drop_replicate, length_drop.
Qed.

(** Zeroing the live tail from [start] on. *)
Lemma zero_tail_padded live start cnt :
  start ≤ length live → length live ≤ N → cnt = length live - start →
  take start (padded N z live) ++ replicate cnt z ++ drop (start + cnt) (padded N z live)
  = padded N z (take start live).
Proof.
  intros ?? ->. unfold padded.
  rewrite take_app_le by lia.
  replace (start + (length live - start)) with (length live) by lia.
  rewrite drop_app_length. rewrite <- replicate_add, length_take.
  do 2 f_equal. lia.
Qed.

End padded.

Lemma insert_pair_shifted {A} (l : list A) pos a b y :
  pos < length l →
  <[pos + 1 := b]> (<[pos := a]> (take (pos + 1) l ++ y :: drop (pos + 1) l))
  = take pos l ++ a :: b :: drop (pos + 1) l.
Proof.
  intros Hpos.
  destruct (lookup_lt_is_Some_2 l pos Hpos) as [x Hx].
  replace (pos + 1) with (S pos) by lia.
  rewrite (take_S_r _ _ _ Hx), <- app_assoc. simpl.
  assert (Hlen : length (take pos l) = pos) by (rewrite length_take; lia).
  rewrite !insert_app_r_alt by lia. rewrite Hlen.
  replace (pos - pos) with 0 by lia. replace (S pos - pos) with 1 by lia.
  done.
Qed.

Lemma length_padded_fmap {A B} N (z : B) (f : A → B) (l : list A) :
  length l ≤ N → length (padded N z (f <$> l)) = N.
Proof. intros. apply length_padded. by rewrite length_fmap. Qed.

Ltac len :=
  repeat first
    [ rewrite length_padded_fmap by lia | rewrite length_padded by lia
    | rewrite length_app | rewrite length_take | rewrite length_drop
    | rewrite length_replicate | rewrite length_fmap | rewrite length_insert
    | progress cbn [length] ];
  try lia.

(** ** Well-shaped nodes *)

Section shape.
Context `{Fanout}.

Lemma shape_0_inv node :
  shape 0 node → ∃ live, node = mk_leaf live ∧ length live ≤ MAX_KEYS.
Proof. inversion 1; eauto. Qed.

Lemma shape_S_inv h node :
  shape (S h) node →
  ∃ live cs, node = mk_inner live cs ∧ length live ≤ MAX_KEYS ∧
             length cs = S (length live) ∧ Forall (shape h) cs.
Proof. inversion 1; eauto 10. Qed.

Lemma shape_nKeys h node : shape h node → nKeys node ≤ MAX_KEYS.
Proof. by inversion 1. Qed.

Lemma shape_depth h node : shape h node → depth node = h.
Proof.
  revert node. induction h as [|h IH]; intros node Hs.
  - apply shape_0_inv in Hs as (live & -> & _). done.
  - apply shape_S_inv in Hs as (live & cs & -> & _ & Hcs & Hall).
    destruct cs as [|c cs]; [done|]. simpl.
    f_equal. apply IH. by inversion Hall.
Qed.

Lemma kids_inner_lookup live cs i c :
  length cs ≤ S MAX_KEYS → cs !! i = Some c → kids (mk_inner live cs) !! i = Some (Some c).
Proof.
  intros Hlen Hc. simpl.
  rewrite lookup_padded_lt by (rewrite length_fmap; by eapply lookup_lt_Some).
  by rewrite list_lookup_fmap, Hc.
Qed.

Lemma kNodes_lookup_lt b n live cs i :
  i < length live → kNodes (Node b n (padded MAX_KEYS key_zero live) cs) !! i = live !! i.
Proof. intros. simpl. by rewrite lookup_padded_lt. Qed.

(** *** The split *)

(** [splitNode] on live prefixes: the middle record [sep] of the elder child
    moves up between the two halves. *)
Lemma splitNode_mk live cs pos leaf elive ecs sep :
  length live < MAX_KEYS → length cs = S (length live) →
  cs !! pos = Some (mk_node leaf elive ecs) → length elive ≤ MAX_KEYS →
  (leaf = false → length ecs = S (length elive)) →
  elive !! (length elive / 2) = Some sep →
  splitNode (mk_inner live cs) pos
  = Done (mk_inner (take pos live ++ sep :: drop pos live)
            (take pos cs
               ++ mk_node leaf (take (length elive / 2) elive) (take (S (length elive / 2)) ecs)
               :: mk_node leaf (drop (S (length elive / 2)) elive) (drop (S (length elive / 2)) ecs)
               :: drop (S pos) cs)) 1.
Proof.
  intros Hn Hcs Hpos He Hecs Hsep.
  assert (pos < length cs) by by eapply lookup_lt_Some.
  assert (length elive / 2 < length elive) by by eapply lookup_lt_Some.
  match goal with |- _ = ?r => set (R := r) end.
  unfold splitNode.
  mstep ltac:(apply array_get_Done, kids_inner_lookup; [lia|done]).
  eapply (bind_Done _ _ _ 1 _ 0); [reflexivity|].
  destruct leaf; unfold mk_node, mk_inner, mk_leaf; cbn [kids kNodes nKeys isLeaf].
  - mstep ltac:(apply count_sub_Done; lia).
    mstep ltac:(apply memmove_Done; len).
    mstep ltac:(apply memmove_Done; len).
    mstep ltac:(apply array_get_Done; rewrite lookup_padded_lt by done; exact Hsep).
    mstep ltac:(apply array_set_Done; len).
    mstep ltac:(apply array_set_Done; len).
    mstep ltac:(apply assert_Done; lia).
    mstep ltac:(apply count_sub_Done; lia).
    mstep ltac:(apply memmove_Done; len).
    mstep ltac:(reflexivity).
    mstep ltac:(apply bzero_Done; len).
    mstep ltac:(reflexivity).
    mstep ltac:(apply array_set_Done; len).
    mstep ltac:(apply array_set_Done; len).
    rewrite shift_insert_padded by lia.
    rewrite (shift_insert_padded _ _ _ (pos + 1)) by len.
    rewrite !insert_padded by len.
    rewrite insert_pair_shifted by len.
    rewrite copy_tail_padded by lia.
    rewrite zero_tail_padded by lia.
    subst R. unfold mk_node, mk_inner, mk_leaf, mret, M_ret.
    rewrite !fmap_app, !fmap_cons, fmap_take, fmap_drop.
    replace (S pos) with (pos + 1) by lia.
    replace (S (length elive `div` 2)) with (length elive `div` 2 + 1) by lia.
    do 2 f_equal; [len|].
    rewrite length_take_le, length_drop by lia. done.
  - specialize (Hecs eq_refl).
    mstep ltac:(apply count_sub_Done; lia).
    mstep ltac:(apply memmove_Done; len).
    mstep ltac:(apply memmove_Done; len).
    mstep ltac:(apply array_get_Done; rewrite lookup_padded_lt by done; exact Hsep).
    mstep ltac:(apply array_set_Done; len).
    mstep ltac:(apply array_set_Done; len).
    mstep ltac:(apply assert_Done; lia).
    mstep ltac:(apply count_sub_Done; lia).
    mstep ltac:(apply memmove_Done; len).
    mstep ltac:(apply memmove_Done; len).
    mstep ltac:(apply bzero_Done; len).
    mstep ltac:(apply bzero_Done; len).
    mstep ltac:(apply array_set_Done; len).
    mstep ltac:(apply array_set_Done; len).
    rewrite shift_insert_padded by lia.
    rewrite (shift_insert_padded _ _ _ (pos + 1)) by len.
    rewrite !insert_padded by len.
    rewrite insert_pair_shifted by len.
    rewrite !copy_tail_padded by len.
    rewrite !zero_tail_padded by len.
    subst R. unfold mk_node, mk_inner, mk_leaf, mret, M_ret.
    rewrite !fmap_app, !fmap_cons, !fmap_take, !fmap_drop.
    replace (S pos) with (pos + 1) by lia.
    replace (S (length elive `div` 2)) with (length elive `div` 2 + 1) by lia.
    do 2 f_equal; [len|].
    rewrite length_take_le, length_drop by lia. done.
Qed.

End shape.

(** ** The key records of a subtree, in traversal order *)

Section inter.
Context {A : Type}.
Implicit Types (es : list (list A)) (ks : list A).

Lemma inter_cons e es ks : inter (e :: es) ks = e ++ itail es ks.
Proof. done. Qed.

Lemma inter_app es1 es2 ks1 ks2 :
  length es1 = length ks1 →
  inter (es1 ++ es2) (ks1 ++ ks2) = segs es1 ks1 ++ inter es2 ks2.
Proof.
  revert ks1. induction es1 as [|e es1 IH]; intros [|k ks1] Hlen; try done.
  simpl in *. rewrite IH by lia. by rewrite <- app_assoc.
Qed.

Lemma inter_snoc es e ks :
  length es = length ks → inter (es ++ [e]) ks = segs es ks ++ e.
Proof.
  intros Hlen. rewrite <- (app_nil_r ks) at 1.
  rewrite inter_app by done. simpl. by rewrite app_nil_r.
Qed.

Lemma inter_middle a s b es ks :
  inter ((a ++ s :: b) :: es) ks = a ++ s :: inter (b :: es) ks.
Proof. simpl. by rewrite <- app_assoc. Qed.

(** Cutting at the child [pos]. *)
Lemma inter_at es ks pos e :
  length es = S (length ks) → es !! pos = Some e →
  inter es ks = segs (take pos es) (take pos ks) ++ e ++ itail (drop (S pos) es) (drop pos ks).
Proof.
  intros Hlen He.
  assert (pos < length es) by by eapply lookup_lt_Some.
  rewrite <- (take_drop pos es) at 1. rewrite <- (take_drop pos ks) at 1.
  rewrite inter_app by (rewrite !length_take; lia).
  by rewrite (drop_S _ _ _ He).
Qed.

(** Cutting at the key [pos]. *)
Lemma inter_at_key es ks pos k :
  length es = S (length ks) → ks !! pos = Some k →
  inter es ks = inter (take (S pos) es) (take pos ks) ++ k :: inter (drop (S pos) es) (drop (S pos) ks).
Proof.
  intros Hlen Hk.
  assert (pos < length ks) by by eapply lookup_lt_Some.
  destruct (lookup_lt_is_Some_2 es pos) as [e He]; [lia|].
  rewrite (inter_at es ks pos e) by done.
  rewrite (take_S_r _ _ _ He), inter_snoc by (rewrite !length_take; lia).
  rewrite (drop_S _ _ _ Hk). simpl. by rewrite <- app_assoc.
Qed.

Lemma segs_snoc es e ks k :
  length es = length ks → segs (es ++ [e]) (ks ++ [k]) = segs es ks ++ e ++ [k].
Proof.
  revert ks. induction es as [|e' es IH]; intros [|k' ks] Hlen; try done.
  simpl in *. rewrite IH by lia. by rewrite <- app_assoc.
Qed.

End inter.

Section elems.
Context `{Fanout}.
Implicit Types (live elive : list key_node) (cs ecs : list mm_node) (node elder : mm_node) (leaf : bool) (h : nat).

Lemma elems_mk_leaf live : elems (mk_leaf live) = live.
Proof. simpl. by rewrite take_padded. Qed.

Lemma elems_mk_inner live cs :
  length cs = S (length live) → elems (mk_inner live cs) = inter (elems <$> cs) live.
Proof.
  intros Hlen. simpl. rewrite take_padded by done. f_equal.
  unfold padded. rewrite map_app, take_app_length'.
  - by rewrite <- list_fmap_compose.
  - by rewrite !length_map.
Qed.

Lemma shape_mk_node h leaf live cs :
  length live ≤ MAX_KEYS →
  (if leaf then h = 0 else ∃ h', h = S h' ∧ length cs = S (length live) ∧ Forall (shape h') cs) →
  shape h (mk_node leaf live cs).
Proof.
  intros Hlen Hcs. destruct leaf; simpl.
  - subst. by constructor.
  - destruct Hcs as (h' & -> & ? & ?). by constructor.
Qed.

Lemma shape_inv h node :
  shape h node →
  ∃ leaf live cs, node = mk_node leaf live cs ∧ length live ≤ MAX_KEYS ∧
    (if leaf then h = 0 else ∃ h', h = S h' ∧ length cs = S (length live) ∧ Forall (shape h') cs).
Proof.
  inversion 1; subst.
  - by exists true, live, [].
  - exists false, live, cs. eauto 10.
Qed.

Lemma elems_mk_node leaf live cs :
  (leaf = false → length cs = S (length live)) →
  elems (mk_node leaf live cs) = if leaf then live else inter (elems <$> cs) live.
Proof.
  destruct leaf; intros Hlen; unfold mk_node.
  - apply elems_mk_leaf.
  - by apply elems_mk_inner, Hlen.
Qed.

Lemma nKeys_mk_node leaf live cs : nKeys (mk_node leaf live cs) = length live.
Proof. by destruct leaf. Qed.

(** What [splitNode] does to a well-shaped inner node that has room, when the
    child at [pos] holds at least one record. *)
Lemma splitNode_spec h live cs pos elder :
  length live < MAX_KEYS → length cs = S (length live) →
  cs !! pos = Some elder → shape h elder → 1 ≤ nKeys elder →
  ∃ sep e y,
    splitNode (mk_inner live cs) pos
    = Done (mk_inner (take pos live ++ sep :: drop pos live)
                     (take pos cs ++ e :: y :: drop (S pos) cs)) 1 ∧
    shape h e ∧ shape h y ∧
    nKeys e = nKeys elder / 2 ∧ nKeys y = nKeys elder - (nKeys elder / 2 + 1) ∧
    elems elder = elems e ++ sep :: elems y.
Proof.
  intros Hn Hcs Hpos Hsh Hne.
  apply shape_inv in Hsh as (leaf & elive & ecs & -> & Hlen & Hkids).
  rewrite nKeys_mk_node in *.
  assert (Hmid : length elive / 2 < length elive) by (apply Nat.div_lt; lia).
  destruct (lookup_lt_is_Some_2 elive _ Hmid) as [sep Hsep].
  exists sep, (mk_node leaf (take (length elive / 2) elive) (take (S (length elive / 2)) ecs)),
    (mk_node leaf (drop (S (length elive / 2)) elive) (drop (S (length elive / 2)) ecs)).
  split; [|split; [|split; [|split; [|split]]]].
  - apply splitNode_mk; try done.
    intros ->. by destruct Hkids as (? & _ & ? & _).
  - apply shape_mk_node; [rewrite length_take; lia|].
    destruct leaf; [done|]. destruct Hkids as (h' & -> & Hl & Hall).
    exists h'. split; [done|]. split; [rewrite !length_take; lia|by apply Forall_take].
  - apply shape_mk_node; [rewrite length_drop; lia|].
    destruct leaf; [done|]. destruct Hkids as (h' & -> & Hl & Hall).
    exists h'. split; [done|]. split; [rewrite !length_drop; lia|by apply Forall_drop].
  - rewrite nKeys_mk_node, length_take. lia.
  - rewrite nKeys_mk_node, length_drop. lia.
  - rewrite !elems_mk_node.
    + destruct leaf.
      * by rewrite take_drop_middle.
      * destruct Hkids as (h' & -> & Hl & Hall).
        rewrite fmap_take, fmap_drop.
        apply inter_at_key; [by rewrite length_fmap|done].
    + intros ->. destruct Hkids as (h' & -> & Hl & Hall). rewrite !length_drop. lia.
    + intros ->. destruct Hkids as (h' & -> & Hl & Hall). rewrite !length_take. lia.
    + intros ->. by destruct Hkids as (? & _ & ? & _).
Qed.

(** *** Search within a node *)

Lemma lower_bound_le k live : lower_bound k live ≤ length live.
Proof. induction live as [|kn live IH]; simpl; [done|]. case_match; lia. Qed.

Lemma lower_bound_lt k live i kn :
  i < lower_bound k live → live !! i = Some kn → (key kn < k)%Z.
Proof.
  revert i. induction live as [|kn' live IH]; intros i; simpl; [lia|].
  case_match eqn:Hle; [lia|]. destruct i as [|i]; simpl.
  - intros _ [= ->]. lia.
  - intros ?. apply IH. lia.
Qed.

Lemma lower_bound_ge k live kn :
  live !! lower_bound k live = Some kn → (k ≤ key kn)%Z.
Proof.
  induction live as [|kn' live IH]; simpl; [done|].
  case_match eqn:Hle; simpl; [|done]. intros [= ->]. lia.
Qed.

Lemma searchInNode_loop_Done node live k i todo :
  kNodes node = padded MAX_KEYS key_zero live → nKeys node = length live →
  i + todo = length live →
  searchInNode_loop node k i todo = Done (i + lower_bound k (drop i live)) 0.
Proof.
  intros Hks Hn. revert i. induction todo as [|todo IH]; intros i Hi; simpl.
  - rewrite drop_ge by lia. simpl. rewrite Hn. unfold mret, M_ret. f_equal. lia.
  - destruct (lookup_lt_is_Some_2 live i) as [kn Hkn]; [lia|].
    mstep ltac:(apply array_get_Done; rewrite Hks, lookup_padded_lt by lia; exact Hkn).
    rewrite (drop_S _ _ _ Hkn). simpl. case_match.
    + unfold mret, M_ret. f_equal. lia.
    + rewrite IH by lia. f_equal. lia.
Qed.

Lemma searchInNode_Done node live k :
  kNodes node = padded MAX_KEYS key_zero live → nKeys node = length live →
  searchInNode node k = Done (lower_bound k live) 0.
Proof.
  intros. unfold searchInNode.
  by rewrite (searchInNode_loop_Done node live) by (done || lia).
Qed.

End elems.

(** ** Sorted records *)

Lemma sorted_app l1 l2 :
  sorted (l1 ++ l2) ↔
  (∀ x1 x2, x1 ∈ l1 → x2 ∈ l2 → key_lt x1 x2) ∧ sorted l1 ∧ sorted l2.
Proof. apply StronglySorted_app. Qed.

Lemma sorted_cons x l : sorted (x :: l) ↔ Forall (key_lt x) l ∧ sorted l.
Proof.
  split.
  - inversion 1; subst. done.
  - intros [??]. by constructor.
Qed.

Lemma sorted_middle l1 x l2 :
  sorted (l1 ++ x :: l2) →
  Forall (λ y, key y < key x)%Z l1 ∧ Forall (λ y, key x < key y)%Z l2.
Proof.
  rewrite sorted_app, sorted_cons. intros (Hlt & _ & Hx & _). split.
  - apply Forall_forall. intros y Hy. apply (Hlt y x Hy). by left.
  - done.
Qed.

Lemma sorted_insert l1 x l2 :
  sorted (l1 ++ l2) →
  Forall (λ y, key y < key x)%Z l1 → Forall (λ y, key x < key y)%Z l2 →
  sorted (l1 ++ x :: l2).
Proof.
  rewrite !sorted_app, sorted_cons. intros (Hlt & ? & ?) H1 H2.
  split; [|done]. intros x1 x2 Hx1 [->|Hx2]%elem_of_cons.
  - by eapply Forall_forall in H1.
  - by apply Hlt.
Qed.

Lemma sorted_replace l1 x x' l2 :
  sorted (l1 ++ x :: l2) → key x' = key x → sorted (l1 ++ x' :: l2).
Proof.
  intros Hs Hk. destruct (sorted_middle _ _ _ Hs) as [H1 H2].
  apply sorted_insert.
  - apply sorted_app in Hs as (Hlt & ? & [_ ?]%sorted_cons).
    apply sorted_app. split; [|done]. intros x1 x2 ? ?. apply Hlt; [done|by right].
  - by rewrite Hk.
  - by rewrite Hk.
Qed.

(** ** Pointers to key records *)

Section pointers.
Context `{Fanout}.
Implicit Types (live : list key_node) (cs : list mm_node) (node c : mm_node)
  (leaf : bool) (h : nat) (kn : key_node).

Lemma kn_load_here leaf live cs slot kn :
  live !! slot = Some kn → kn_load (mk_node leaf live cs) [] slot = Done kn 0.
Proof.
  intros Hkn. simpl. apply array_get_Done.
  assert (slot < length live) by by eapply lookup_lt_Some.
  destruct leaf; simpl; by rewrite lookup_padded_lt.
Qed.

Lemma kn_store_here leaf live cs slot kn' :
  slot < length live → length live ≤ MAX_KEYS →
  kn_store (mk_node leaf live cs) [] slot kn'
  = Done (mk_node leaf (<[slot := kn']> live) cs) 0.
Proof.
  intros Hslot Hlen. simpl.
  mstep ltac:(apply array_set_Done; destruct leaf; simpl; len).
  unfold mret, M_ret. f_equal.
  destruct leaf; unfold mk_node, mk_leaf, mk_inner; simpl;
    rewrite insert_padded, length_insert by done; done.
Qed.

Lemma points_to_here h leaf live cs slot kn :
  shape h (mk_node leaf live cs) → (leaf = false → length cs = S (length live)) →
  live !! slot = Some kn →
  ∃ l1 l2, points_to h (mk_node leaf live cs) [] slot l1 kn l2.
Proof.
  intros Hsh Hcs Hkn.
  assert (Hslot : slot < length live) by by eapply lookup_lt_Some.
  assert (Hlen : length live ≤ MAX_KEYS).
  { apply shape_nKeys in Hsh. by rewrite nKeys_mk_node in Hsh. }
  assert (Hsh' : ∀ kn', shape h (mk_node leaf (<[slot := kn']> live) cs)).
  { intros kn'. apply shape_inv in Hsh as (leaf' & live' & cs' & Heq & ? & Hk).
    destruct leaf, leaf'; try done.
    - subst h. apply (shape_mk_node 0 true); [by rewrite length_insert|done].
    - injection Heq as Hl Hp Hc.
      apply padded_inj in Hp; [|by rewrite Hl]. subst live'.
      apply padded_inj in Hc; [|destruct Hk as (?&?&?&?); rewrite !length_fmap; specialize (Hcs eq_refl); lia].
      apply (inj _) in Hc. subst cs'.
      apply shape_mk_node; [by rewrite length_insert|].
      destruct Hk as (h' & -> & ? & ?). exists h'. by rewrite length_insert. }
  destruct leaf.
  - exists (take slot live), (drop (S slot) live). split; [by apply kn_load_here|].
    split; [by rewrite elems_mk_node, take_drop_middle|].
    intros kn'. eexists. split; [by apply kn_store_here|]. split; [apply Hsh'|].
    rewrite elems_mk_node by done. by apply insert_take_drop.
  - specialize (Hcs eq_refl).
    exists (inter (take (S slot) (elems <$> cs)) (take slot live)),
      (inter (drop (S slot) (elems <$> cs)) (drop (S slot) live)).
    split; [by apply kn_load_here|].
    split; [rewrite elems_mk_node by done; apply inter_at_key; [by rewrite length_fmap|done]|].
    intros kn'. eexists. split; [by apply kn_store_here|]. split; [apply Hsh'|].
    rewrite elems_mk_node by (by rewrite length_insert).
    rewrite (inter_at_key _ _ slot kn').
    + by rewrite take_insert_ge, drop_insert_lt by lia.
    + by rewrite length_fmap, length_insert.
    + by apply list_lookup_insert_eq.
Qed.

Lemma points_to_leaf live slot kn :
  length live ≤ MAX_KEYS → live !! slot = Some kn →
  points_to 0 (mk_leaf live) [] slot (take slot live) kn (drop (S slot) live).
Proof.
  intros Hlen Hkn.
  assert (Hslot : slot < length live) by by eapply lookup_lt_Some.
  split; [by apply (kn_load_here true live [])|].
  split; [by rewrite elems_mk_leaf, take_drop_middle|].
  intros kn'. eexists. split; [by apply (kn_store_here true live [])|]. split.
  - apply (shape_mk_node 0 true); [by rewrite length_insert|done].
  - unfold mk_node. rewrite elems_mk_leaf. by apply insert_take_drop.
Qed.

Lemma set_kid_mk_inner live cs pos c' :
  pos < length cs → length cs ≤ S MAX_KEYS →
  array_set (kids (mk_inner live cs)) pos (Some c')
  = Done (padded (S MAX_KEYS) None (Some <$> <[pos := c']> cs)) 0.
Proof.
  intros. simpl. rewrite array_set_Done by len.
  by rewrite insert_padded, list_fmap_insert by len.
Qed.

Lemma points_to_child h live cs pos c path slot l1 kn l2 :
  length live ≤ MAX_KEYS → length cs = S (length live) → Forall (shape h) cs →
  cs !! pos = Some c → points_to h c path slot l1 kn l2 →
  points_to (S h) (mk_inner live cs) (pos :: path) slot
    (segs (take pos (elems <$> cs)) (take pos live) ++ l1) kn
    (l2 ++ itail (drop (S pos) (elems <$> cs)) (drop pos live)).
Proof.
  intros Hlen Hcs Hall Hc (Hload & Hel & Hstore).
  assert (pos < length cs) by by eapply lookup_lt_Some.
  split; [|split].
  - cbn [kn_load].
    mstep ltac:(apply array_get_Done, kids_inner_lookup; [lia|done]).
    done.
  - rewrite elems_mk_inner by done.
    rewrite (inter_at _ _ pos (elems c)); [|by rewrite length_fmap|by rewrite list_lookup_fmap, Hc].
    rewrite Hel, <- !app_assoc. done.
  - intros kn'. destruct (Hstore kn') as (c' & Hst & Hsh & Hel').
    exists (mk_inner live (<[pos := c']> cs)). split; [|split].
    + cbn [kn_store].
      mstep ltac:(apply array_get_Done, kids_inner_lookup; [lia|done]).
      rewrite Hst. cbn [mbind M_bind].
      rewrite set_kid_mk_inner by lia. done.
    + constructor; [done|by rewrite length_insert|by apply Forall_insert].
    + rewrite elems_mk_inner by (by rewrite length_insert).
      rewrite (inter_at _ _ pos (elems c')).
      * rewrite list_fmap_insert, take_insert_ge, drop_insert_lt by lia.
        rewrite Hel', <- !app_assoc. done.
      * by rewrite length_fmap, length_insert.
      * rewrite list_lookup_fmap, list_lookup_insert_eq by done. done.
Qed.

End pointers.

(** ** Where a key belongs *)

Lemma found_at_true k live :
  found_at k live = true → ∃ kn, live !! lower_bound k live = Some kn ∧ key kn = k.
Proof.
  unfold found_at. destruct (live !! _) as [kn|]; [|done].
  intros ?%bool_decide_eq_true. eauto.
Qed.

Lemma found_at_false k live kn :
  found_at k live = false → live !! lower_bound k live = Some kn → (k < key kn)%Z.
Proof.
  unfold found_at. intros Hf Hkn. rewrite Hkn in Hf.
  apply bool_decide_eq_false in Hf. apply lower_bound_ge in Hkn. lia.
Qed.

(** In a leaf: the records before the index are smaller, those from the
    index on are larger. *)
Lemma bounds_leaf k live :
  sorted live → found_at k live = false →
  Forall (λ x, key x < k)%Z (take (lower_bound k live) live) ∧
  Forall (λ x, k < key x)%Z (drop (lower_bound k live) live).
Proof.
  induction live as [|kn live IH]; intros Hs Hf; [by rewrite take_nil, drop_nil|].
  apply sorted_cons in Hs as [Hkn Hs].
  unfold found_at in Hf. simpl in *. destruct (k <=? key kn)%Z eqn:Hle; simpl in *.
  - split; [done|]. apply bool_decide_eq_false in Hf. apply Z.leb_le in Hle.
    constructor; [lia|].
    eapply Forall_impl; [exact Hkn|]. unfold key_lt. intros; simpl in *; lia.
  - destruct IH as [IH1 IH2]; [done|done|]. split; [|done].
    constructor; [lia|done].
Qed.

(** In an inner node: the same for everything left of the child at the
    index and everything right of it. *)
Lemma bounds_inner k (es : list (list key_node)) live :
  length es = S (length live) → sorted (inter es live) → found_at k live = false →
  Forall (λ x, key x < k)%Z (segs (take (lower_bound k live) es) (take (lower_bound k live) live)) ∧
  Forall (λ x, k < key x)%Z (itail (drop (S (lower_bound k live)) es) (drop (lower_bound k live) live)).
Proof.
  revert es. induction live as [|kn live IH]; intros [|e es] Hlen Hs Hf; try done.
  simpl in Hlen. rewrite inter_cons in Hs. simpl in Hs.
  apply sorted_app in Hs as (Hlt & He & [Hkn Hs]%sorted_cons).
  unfold found_at in Hf. simpl in *. destruct (k <=? key kn)%Z eqn:Hle; simpl in *.
  - split; [done|]. apply bool_decide_eq_false in Hf. apply Z.leb_le in Hle.
    rewrite drop_0. constructor; [lia|].
    eapply Forall_impl; [exact Hkn|]. unfold key_lt. intros; simpl in *; lia.
  - destruct (IH es) as [IH1 IH2]; [lia|done|done|]. split; [|done].
    apply Forall_app. split.
    + apply Forall_forall. intros x Hx.
      assert (key_lt x kn) by (apply Hlt; [done|by left]).
      unfold key_lt in *. lia.
    + constructor; [lia|done].
Qed.

Lemma lower_bound_app k l1 l2 :
  Forall (λ x, key x < k)%Z l1 → lower_bound k (l1 ++ l2) = length l1 + lower_bound k l2.
Proof.
  induction 1 as [|x l1 Hx _ IH]; simpl; [done|].
  rewrite IH. by destruct (Z.leb_spec k (key x)); [lia|].
Qed.

Lemma lower_bound_take k live :
  Forall (λ x, key x < k)%Z (take (lower_bound k live) live).
Proof.
  induction live as [|kn live IH]; simpl; [done|].
  destruct (Z.leb_spec k (key kn)); simpl; [done|]. by constructor.
Qed.

Lemma lower_bound_drop k live : lower_bound k (drop (lower_bound k live) live) = 0.
Proof.
  induction live as [|kn live IH]; simpl; [done|].
  destruct (Z.leb_spec k (key kn)) as [Hle|]; simpl; [|done].
  by apply Z.leb_le in Hle as ->.
Qed.

(** The index after a split at the index: left or right of the record that
    moved up. *)
Lemma lower_bound_split k live sep :
  lower_bound k (take (lower_bound k live) live ++ sep :: drop (lower_bound k live) live)
  = if (k <=? key sep)%Z then lower_bound k live else S (lower_bound k live).
Proof.
  rewrite lower_bound_app by apply lower_bound_take.
  rewrite length_take_le by apply lower_bound_le. simpl.
  destruct (k <=? key sep)%Z; [lia|]. rewrite lower_bound_drop. lia.
Qed.

(** ** Find-or-create below a node *)

Section search.
Context `{Fanout}.
Implicit Types (live : list key_node) (cs : list mm_node) (node c : mm_node)
  (leaf : bool) (h : nat) (kn : key_node).

Lemma found_Done leaf live cs k :
  length live ≤ MAX_KEYS →
  (if decide (lower_bound k live < length live)
   then kn ← array_get (padded MAX_KEYS key_zero live) (lower_bound k live);
        mret (bool_decide (key kn = k))
   else mret false : M bool) = Done (found_at k live) 0.
Proof.
  intros Hlen. unfold found_at. case_decide as Hlt.
  - destruct (lookup_lt_is_Some_2 _ _ Hlt) as [kn Hkn]. rewrite Hkn.
    mstep ltac:(apply array_get_Done; rewrite lookup_padded_lt by lia; exact Hkn).
    done.
  - by rewrite lookup_ge_None_2 by lia.
Qed.

Lemma sai_found fuel leaf live cs k create :
  length live ≤ MAX_KEYS → found_at k live = true →
  searchAndInsert_fuel (S fuel) (mk_node leaf live cs) k create
  = Done (mk_node leaf live cs, KAt [] (lower_bound k live)) 0.
Proof.
  intros Hlen Hf. cbn [searchAndInsert_fuel].
  mstep ltac:(apply (searchInNode_Done _ live); by destruct leaf).
  rewrite nKeys_mk_node.
  replace (kNodes (mk_node leaf live cs)) with (padded MAX_KEYS key_zero live)
    by by destruct leaf.
  mstep ltac:(by apply found_Done).
  by rewrite Hf.
Qed.

Lemma sai_leaf_create fuel live k :
  length live < MAX_KEYS → found_at k live = false →
  searchAndInsert_fuel (S fuel) (mk_leaf live) k true
  = Done (mk_leaf (take (lower_bound k live) live ++ fresh k :: drop (lower_bound k live) live),
          KAt [] (lower_bound k live)) 0.
Proof.
  intros Hlen Hf. cbn [searchAndInsert_fuel].
  match goal with |- _ = ?r => set (R := r) end.
  mstep ltac:(by apply (searchInNode_Done _ live)).
  unfold mk_leaf; cbn [nKeys kNodes isLeaf kids].
  mstep ltac:(apply (found_Done true live []); lia).
  rewrite Hf.
  pose proof (lower_bound_le k live).
  mstep ltac:(apply count_sub_Done; lia).
  mstep ltac:(apply memmove_Done; len).
  mstep ltac:(apply bzero_one; len).
  mstep ltac:(apply array_get_Done, list_lookup_insert_eq; len).
  mstep ltac:(apply array_set_Done; len).
  mstep ltac:(apply assert_Done; lia).
  rewrite list_insert_insert_eq, shift_insert_padded by lia.
  subst R. unfold mk_leaf, mret, M_ret. do 3 f_equal. len.
Qed.

Lemma sai_leaf_nocreate fuel live k :
  length live ≤ MAX_KEYS → found_at k live = false →
  searchAndInsert_fuel (S fuel) (mk_leaf live) k false = Done (mk_leaf live, KNull) 0.
Proof.
  intros Hlen Hf. cbn [searchAndInsert_fuel].
  mstep ltac:(by apply (searchInNode_Done _ live)).
  unfold mk_leaf at 1 2; cbn [nKeys kNodes].
  mstep ltac:(by apply (found_Done true live [])).
  by rewrite Hf.
Qed.

(** Entering the child at the index, which is not split. *)
Lemma sai_descend fuel live cs k create c :
  length live ≤ MAX_KEYS → length cs = S (length live) → found_at k live = false →
  cs !! lower_bound k live = Some c → (create = true → nKeys c ≠ MAX_KEYS) →
  searchAndInsert_fuel (S fuel) (mk_inner live cs) k create
  = '(c', p) ← searchAndInsert_fuel fuel c k create;
    mret (mk_inner live (<[lower_bound k live := c']> cs),
          match p with
          | KNull => KNull
          | KAt path slot => KAt (lower_bound k live :: path) slot
          end).
Proof.
  intros Hlen Hcs Hf Hc Hfull. cbn [searchAndInsert_fuel].
  assert (lower_bound k live < length cs) by by eapply lookup_lt_Some.
  match goal with |- _ = ?r => set (R := r) end.
  mstep ltac:(by apply (searchInNode_Done _ live)).
  mstep ltac:(by apply (found_Done false live cs)).
  rewrite Hf. cbn [isLeaf mk_inner].
  mstep ltac:(apply array_get_Done, (kids_inner_lookup live); [lia|done]).
  replace (create && bool_decide (nKeys c = MAX_KEYS)) with false.
  2:{ destruct create; [|done]. simpl. symmetry. by apply bool_decide_eq_false, Hfull. }
  subst R.
  destruct (searchAndInsert_fuel fuel c k create) as [[c' p] a|e]; [|done].
  cbn [mbind M_bind].
  rewrite (set_kid_mk_inner live) by lia. done.
Qed.

(** Splitting the full child at the index and looking at the node again. *)
Lemma sai_split fuel live cs k c :
  length live ≤ MAX_KEYS → length cs = S (length live) → found_at k live = false →
  cs !! lower_bound k live = Some c → nKeys c = MAX_KEYS →
  searchAndInsert_fuel (S fuel) (mk_inner live cs) k true
  = node' ← splitNode (mk_inner live cs) (lower_bound k live);
    searchAndInsert_fuel fuel node' k true.
Proof.
  intros Hlen Hcs Hf Hc Hfull. cbn [searchAndInsert_fuel].
  assert (lower_bound k live < length cs) by by eapply lookup_lt_Some.
  mstep ltac:(by apply (searchInNode_Done _ live)).
  mstep ltac:(by apply (found_Done false live cs)).
  rewrite Hf. cbn [isLeaf mk_inner].
  mstep ltac:(apply array_get_Done, (kids_inner_lookup live); [lia|done]).
  by rewrite Hfull, bool_decide_eq_true_2.
Qed.

Lemma sai_found_ok h fuel leaf live cs k create :
  shape h (mk_node leaf live cs) → (leaf = false → length cs = S (length live)) →
  sorted (elems (mk_node leaf live cs)) → found_at k live = true →
  searchAndInsert_fuel (S fuel) (mk_node leaf live cs) k create
  = Done (mk_node leaf live cs, KAt [] (lower_bound k live)) 0 ∧
  inserted h (mk_node leaf live cs) (mk_node leaf live cs) k (KAt [] (lower_bound k live)).
Proof.
  intros Hsh Hcs Hs Hf.
  assert (Hlen : length live ≤ MAX_KEYS).
  { apply shape_nKeys in Hsh. by rewrite nKeys_mk_node in Hsh. }
  split; [by apply sai_found|].
  apply found_at_true in Hf as (kn & Hkn & Hk).
  destruct (points_to_here h leaf live cs _ kn Hsh Hcs Hkn) as (l1 & l2 & Hp).
  exists [], (lower_bound k live), l1, kn, l2.
  destruct (Hp) as (_ & Hel & _). rewrite Hel in Hs.
  apply sorted_middle in Hs as [H1 H2]. rewrite Hk in H1, H2. eauto 10.
Qed.

Lemma sai_descend_ok h fuel live cs k :
  sai_ok h →
  length live ≤ MAX_KEYS → length cs = S (length live) → Forall (shape h) cs →
  sorted (elems (mk_inner live cs)) → found_at k live = false →
  (∀ c, cs !! lower_bound k live = Some c → nKeys c < MAX_KEYS) →
  2 * h + 3 ≤ fuel →
  ∃ node' p a, searchAndInsert_fuel fuel (mk_inner live cs) k true = Done (node', p) a ∧
               inserted (S h) (mk_inner live cs) node' k p.
Proof.
  intros IH Hlen Hcs Hall Hs Hf Hroom Hfuel.
  destruct fuel as [|fuel]; [lia|].
  pose proof (lower_bound_le k live) as Hpos.
  destruct (lookup_lt_is_Some_2 cs (lower_bound k live)) as [c Hc]; [lia|].
  specialize (Hroom c Hc).
  rewrite elems_mk_inner in * by done.
  pose proof (bounds_inner k (elems <$> cs) live) as [HL HR];
    [by rewrite length_fmap|done|done|].
  rewrite (inter_at _ _ (lower_bound k live) (elems c)) in Hs;
    [|by rewrite length_fmap|by rewrite list_lookup_fmap, Hc].
  assert (Hsc : sorted (elems c)).
  { apply sorted_app in Hs as (_ & _ & Hs). by apply sorted_app in Hs as (_ & Hs & _). }
  destruct (IH fuel c k) as (c' & p & a & Hrun & Hins);
    [by eapply Forall_lookup_1|done|done|lia|].
  destruct Hins as (path & slot & l1 & kn & l2 & -> & Hsh' & Hp & Hk & H1 & H2 & Hold).
  eexists _, _, a. split.
  { rewrite (sai_descend _ _ _ _ _ c) by (done || lia). rewrite Hrun. cbn.
    by rewrite Nat.add_0_r. }
  assert (Hc' : <[lower_bound k live := c']> cs !! lower_bound k live = Some c')
    by (apply list_lookup_insert_eq; lia).
  assert (Hall' : Forall (shape h) (<[lower_bound k live := c']> cs))
    by by apply Forall_insert.
  pose proof (points_to_child h live (<[lower_bound k live := c']> cs)
                (lower_bound k live) c' path slot l1 kn l2 Hlen
                ltac:(by rewrite length_insert) Hall' Hc' Hp) as Hp'.
  rewrite list_fmap_insert, take_insert_ge, drop_insert_lt in Hp' by lia.
  eexists _, _, _, kn, _. split; [done|]. split; [|split; [apply Hp'|]].
  - constructor; [done|by rewrite length_insert|done].
  - split; [done|]. split; [by apply Forall_app|]. split; [by apply Forall_app|].
    rewrite elems_mk_inner by done.
    rewrite (inter_at _ _ (lower_bound k live) (elems c));
      [|by rewrite length_fmap|by rewrite list_lookup_fmap, Hc].
    destruct Hold as [->|[-> ->]]; [left|right; split; [|done]];
      by rewrite <- !app_assoc.
Qed.

(** A split leaves the records of the subtree and their order alone. *)
Lemma split_elems live cs pos c e y sep :
  length cs = S (length live) → pos ≤ length live → cs !! pos = Some c →
  elems c = elems e ++ sep :: elems y →
  elems (mk_inner (take pos live ++ sep :: drop pos live)
                  (take pos cs ++ e :: y :: drop (S pos) cs))
  = elems (mk_inner live cs).
Proof.
  intros Hcs Hpos Hc Hel.
  assert (pos < length cs) by by eapply lookup_lt_Some.
  rewrite !elems_mk_inner; [|done|len].
  rewrite (inter_at (elems <$> cs) live pos (elems c));
    [|by rewrite length_fmap|by rewrite list_lookup_fmap, Hc].
  rewrite fmap_app, !fmap_cons, fmap_take, fmap_drop.
  rewrite inter_app by len. rewrite Hel. cbn [inter itail].
  by rewrite <- !app_assoc.
Qed.

Section with_room.
Hypothesis MAX_KEYS_pos : 1 ≤ MAX_KEYS.

Lemma sai_ok_all h : sai_ok h.
Proof.
  induction h as [|h IH]; intros fuel node k Hsh Hs Hn Hfuel.
  - apply shape_0_inv in Hsh as (live & -> & Hlen). simpl in Hn.
    destruct fuel as [|fuel]; [lia|].
    destruct (found_at k live) eqn:Hf.
    + destruct (sai_found_ok 0 fuel true live [] k true) as [Hrun Hins]; try done.
      { by constructor. }
      eauto.
    + eexists _, _, _. split; [by apply sai_leaf_create|].
      pose proof (lower_bound_le k live) as Hpos.
      rewrite elems_mk_leaf in Hs.
      destruct (bounds_leaf k live Hs Hf) as [H1 H2].
      set (live' := take (lower_bound k live) live ++ fresh k :: drop (lower_bound k live) live).
      assert (Hlen' : length live' = S (length live)) by (unfold live'; len).
      assert (Hk : live' !! lower_bound k live = Some (fresh k)).
      { unfold live'. rewrite lookup_app_r by len.
        rewrite length_take_le by lia. by rewrite Nat.sub_diag. }
      pose proof (points_to_leaf live' _ _ ltac:(lia) Hk) as Hp.
      assert (Ht : take (lower_bound k live) live' = take (lower_bound k live) live).
      { unfold live'. by rewrite take_app_length' by len. }
      assert (Hd : drop (S (lower_bound k live)) live' = drop (lower_bound k live) live).
      { unfold live'. rewrite drop_app_ge by len. rewrite length_take_le by lia.
        by replace (S (lower_bound k live) - lower_bound k live) with 1 by lia. }
      rewrite Ht, Hd in Hp.
      exists [], (lower_bound k live), (take (lower_bound k live) live), (fresh k),
        (drop (lower_bound k live) live).
      split; [done|]. split; [constructor; lia|]. split; [done|]. split; [done|].
      split; [done|]. split; [done|]. right. by rewrite elems_mk_leaf, take_drop.
  - apply shape_S_inv in Hsh as (live & cs & -> & Hlen & Hcs & Hall). simpl in Hn.
    destruct fuel as [|fuel]; [lia|].
    destruct (found_at k live) eqn:Hf.
    { destruct (sai_found_ok (S h) fuel false live cs k true) as [Hrun Hins]; try done.
      { by constructor. }
      eauto. }
    pose proof (lower_bound_le k live) as Hpos.
    destruct (lookup_lt_is_Some_2 cs (lower_bound k live)) as [c Hc]; [lia|].
    assert (Hshc : shape h c) by by eapply Forall_lookup_1.
    pose proof (shape_nKeys _ _ Hshc) as Hnc.
    destruct (decide (nKeys c = MAX_KEYS)) as [Hfull|Hroom].
    + destruct (splitNode_spec h live cs _ c Hn Hcs Hc Hshc ltac:(lia))
        as (sep & e & y & Hsplit & Hshe & Hshy & Hne & Hny & Hel).
      set (live1 := take (lower_bound k live) live ++ sep :: drop (lower_bound k live) live) in *.
      set (cs1 := take (lower_bound k live) cs ++ e :: y :: drop (S (lower_bound k live)) cs) in *.
      assert (Hel1 : elems (mk_inner live1 cs1) = elems (mk_inner live cs))
        by by eapply split_elems.
      assert (Hlen1 : length live1 = S (length live)) by (unfold live1; len).
      assert (Hcs1 : length cs1 = S (length live1)) by (unfold cs1; len).
      assert (Hall1 : Forall (shape h) cs1).
      { unfold cs1. apply Forall_app. split; [by apply Forall_take|].
        do 2 (constructor; [done|]). by apply Forall_drop. }
      assert (Hrun : ∃ node' p a,
        searchAndInsert_fuel fuel (mk_inner live1 cs1) k true = Done (node', p) a ∧
        inserted (S h) (mk_inner live1 cs1) node' k p).
      { destruct (found_at k live1) eqn:Hf1.
        - destruct fuel as [|fuel]; [lia|].
          destruct (sai_found_ok (S h) fuel false live1 cs1 k true) as [Hrun Hins]; try done.
          { constructor; [lia|done|done]. }
          { unfold mk_node. by rewrite Hel1. }
          eauto.
        - apply sai_descend_ok; try done; [lia|by rewrite Hel1| |lia].
          intros c0. unfold live1. rewrite lower_bound_split. unfold cs1.
          assert (length (take (lower_bound k live) cs) = lower_bound k live) by len.
          destruct (k <=? key sep)%Z.
          + rewrite lookup_app_r by lia.
            replace (lower_bound k live - length (take (lower_bound k live) cs)) with 0 by lia.
            intros [= <-]. rewrite Hne, Hfull. apply Nat.div_lt; lia.
          + rewrite lookup_app_r by lia.
            replace (S (lower_bound k live) - length (take (lower_bound k live) cs)) with 1 by lia.
            intros [= <-]. lia. }
      destruct Hrun as (node' & p & a & Hrun & Hins).
      exists node', p, (1 + a). split.
      * rewrite (sai_split _ _ _ _ c) by (done || lia).
        rewrite Hsplit. cbn. by rewrite Hrun.
      * unfold inserted in *. by rewrite Hel1 in Hins.
    + apply (sai_descend_ok h (S fuel)); try done; [|lia].
      intros c0. rewrite Hc. intros [= <-]. lia.
Qed.

End with_room.

End search.

(** ** Lookup without creation *)

Section lookup.
Context `{Fanout}.
Implicit Types (live : list key_node) (cs : list mm_node) (node c r : mm_node)
  (leaf : bool) (h : nat) (kn : key_node).

Lemma sai_lookup_ok h fuel node k :
  shape h node → sorted (elems node) → h + 1 ≤ fuel →
  ∃ p, searchAndInsert_fuel fuel node k false = Done (node, p) 0 ∧ looked_up h node k p.
Proof.
  revert fuel node. induction h as [|h IH]; intros fuel node Hsh Hs Hfuel.
  - apply shape_0_inv in Hsh as (live & -> & Hlen).
    destruct fuel as [|fuel]; [lia|].
    destruct (found_at k live) eqn:Hf.
    + destruct (sai_found_ok 0 fuel true live [] k false) as [Hrun Hins]; try done.
      { by constructor. }
      eexists. split; [exact Hrun|].
      destruct Hins as (path & slot & l1 & kn & l2 & [= <- <-] & _ & Hp & Hk & _).
      unfold looked_up. eauto.
    + exists KNull. split; [by apply sai_leaf_nocreate|].
      unfold looked_up. rewrite elems_mk_leaf in *.
      destruct (bounds_leaf k live Hs Hf) as [H1 H2].
      rewrite <- (take_drop (lower_bound k live) live). apply Forall_app. split.
      * eapply Forall_impl; [exact H1|]. simpl. lia.
      * eapply Forall_impl; [exact H2|]. simpl. lia.
  - apply shape_S_inv in Hsh as (live & cs & -> & Hlen & Hcs & Hall).
    destruct fuel as [|fuel]; [lia|].
    destruct (found_at k live) eqn:Hf.
    { destruct (sai_found_ok (S h) fuel false live cs k false) as [Hrun Hins]; try done.
      { by constructor. }
      eexists. split; [exact Hrun|].
      destruct Hins as (path & slot & l1 & kn & l2 & [= <- <-] & _ & Hp & Hk & _).
      unfold looked_up. eauto. }
    pose proof (lower_bound_le k live) as Hpos.
    destruct (lookup_lt_is_Some_2 cs (lower_bound k live)) as [c Hc]; [lia|].
    rewrite elems_mk_inner in * by done.
    pose proof (bounds_inner k (elems <$> cs) live) as [HL HR];
      [by rewrite length_fmap|done|done|].
    rewrite (inter_at _ _ (lower_bound k live) (elems c)) in *;
      [|by rewrite length_fmap|by rewrite list_lookup_fmap, Hc..].
    assert (Hsc : sorted (elems c)).
    { apply sorted_app in Hs as (_ & _ & Hs). by apply sorted_app in Hs as (_ & Hs & _). }
    destruct (IH fuel c) as (p & Hrun & Hp); [by eapply Forall_lookup_1|done|lia|].
    eexists. split.
    { rewrite (sai_descend _ _ _ _ _ c) by done. rewrite Hrun. cbn.
      by rewrite list_insert_id. }
    destruct p as [|path slot]; unfold looked_up in *.
    + rewrite elems_mk_inner by done.
      rewrite (inter_at _ _ (lower_bound k live) (elems c));
        [|by rewrite length_fmap|by rewrite list_lookup_fmap, Hc].
      apply Forall_app. split; [|apply Forall_app; split; [done|]].
      * eapply Forall_impl; [exact HL|]. simpl. lia.
      * eapply Forall_impl; [exact HR|]. simpl. lia.
    + destruct Hp as (l1 & kn & l2 & Hp & Hk).
      eexists _, kn, _. split; [|done].
      by eapply points_to_child.
Qed.

Lemma find_node_lookup_ok mm r h k :
  root mm = Some r → shape h r → sorted (elems r) →
  ∃ p, find_node mm k false = Done (mm, p) 0 ∧ looked_up h r k p.
Proof.
  intros Hr Hsh Hs. destruct mm as [r']. cbn [root] in Hr. subst r'.
  destruct (sai_lookup_ok h (2 * h + 2) r k) as (p & Hrun & Hp); [done|done|lia|].
  exists p. split; [|done].
  unfold find_node. cbn [root]. rewrite andb_false_r.
  mstep ltac:(reflexivity).
  unfold searchAndInsert. rewrite (shape_depth _ _ Hsh), Hrun. done.
Qed.

End lookup.

(** ** [find_node] *)

Section find_node.
Context `{Fanout}.
Hypothesis MAX_KEYS_pos : 1 ≤ MAX_KEYS.
Implicit Types (live : list key_node) (cs : list mm_node) (node c r : mm_node)
  (leaf : bool) (h : nat) (kn : key_node) (mm : multimap).

(** An inner node whose child at the index has room. *)
Lemma sai_ready_ok h fuel live cs k :
  length live ≤ MAX_KEYS → length cs = S (length live) → Forall (shape h) cs →
  sorted (elems (mk_inner live cs)) →
  (∀ c, cs !! lower_bound k live = Some c → nKeys c < MAX_KEYS) →
  2 * h + 3 ≤ fuel →
  ∃ node' p a, searchAndInsert_fuel fuel (mk_inner live cs) k true = Done (node', p) a ∧
               inserted (S h) (mk_inner live cs) node' k p.
Proof.
  intros Hlen Hcs Hall Hs Hroom Hfuel.
  destruct (found_at k live) eqn:Hf.
  - destruct fuel as [|fuel]; [lia|].
    destruct (sai_found_ok (S h) fuel false live cs k true) as [Hrun Hins]; try done.
    { by constructor. }
    eauto.
  - apply sai_descend_ok; try done. by apply sai_ok_all.
Qed.

Lemma find_node_empty k :
  find_node (Multimap None) k true
  = Done (Multimap (Some (mk_leaf [fresh k])), KAt [] 0) 1.
Proof.
  unfold find_node. cbn [root].
  eapply (bind_Done _ _ _ 1 _ 0); [reflexivity|].
  cbn [kNodes nKeys kids].
  mstep ltac:(apply array_get_Done, lookup_replicate_2; lia).
  mstep ltac:(apply array_set_Done; len).
  mstep ltac:(apply assert_Done; lia).
  unfold mret, M_ret, mk_leaf, padded, fresh. do 4 f_equal.
  destruct MAX_KEYS as [|n]; [lia|]. simpl. by rewrite Nat.sub_0_r.
Qed.

Lemma grow_root_eq r :
  Node false 0 (replicate MAX_KEYS key_zero) (<[0 := Some r]> (replicate (S MAX_KEYS) None))
  = mk_inner [] [r].
Proof. unfold mk_inner, padded. simpl. by rewrite Nat.sub_0_r. Qed.

Lemma find_node_create_ok mm k :
  (∀ r, root mm = Some r → ∃ h, shape h r ∧ sorted (elems r)) →
  ∃ r' h' p a,
    find_node mm k true = Done (Multimap (Some r'), p) a ∧
    inserted_into h' (tree_elems mm) r' k p.
Proof.
  intros Hok. destruct mm as [[r|]]; unfold tree_elems; cbn [root] in *.
  - destruct (Hok r eq_refl) as (h & Hsh & Hs). clear Hok.
    pose proof (shape_nKeys _ _ Hsh) as Hn.
    unfold find_node. cbn [root].
    destruct (decide (nKeys r = MAX_KEYS)) as [Hfull|Hroom].
    + rewrite bool_decide_eq_true_2 by done. cbn [andb].
      destruct (splitNode_spec h [] [r] 0 r) as (sep & e & y & Hsplit & Hshe & Hshy & Hne & Hny & Hel);
        [simpl; lia|done|done|done|lia|].
      simpl in Hsplit.
      assert (Hs1 : elems (mk_inner [sep] [e; y]) = elems r).
      { rewrite elems_mk_inner by done. simpl. by rewrite app_nil_r, Hel. }
      assert (Hsh1 : shape (S h) (mk_inner [sep] [e; y])).
      { constructor; [simpl; lia|done|]. by repeat constructor. }
      destruct (sai_ready_ok h (2 * S h + 2) [sep] [e; y] k) as (node' & p & a & Hrun & Hins).
      { simpl; lia. }
      { done. }
      { by repeat constructor. }
      { by rewrite Hs1. }
      { intros c. simpl. assert (MAX_KEYS / 2 < MAX_KEYS) by (apply Nat.div_lt; lia).
        rewrite Hfull in *.
        destruct (k <=? key sep)%Z; simpl; intros [= <-]; lia. }
      { lia. }
      exists node', (S h), p, (2 + a). split.
      * eapply (bind_Done _ _ _ 2 _ a).
        { eapply (bind_Done _ _ _ 1 _ 1); [reflexivity|]. cbn [kids nKeys kNodes].
          mstep ltac:(apply array_set_Done; len).
          rewrite grow_root_eq. exact Hsplit. }
        unfold searchAndInsert. rewrite (shape_depth _ _ Hsh1), Hrun. cbn.
        by rewrite Nat.add_0_r.
      * unfold inserted in Hins. by rewrite Hs1 in Hins.
    + rewrite bool_decide_eq_false_2 by done. cbn [andb].
      destruct (sai_ok_all MAX_KEYS_pos h (2 * h + 2) r k) as (node' & p & a & Hrun & Hins);
        [done|done|lia|lia|].
      exists node', h, p, a. split; [|done].
      mstep ltac:(reflexivity).
      unfold searchAndInsert. rewrite (shape_depth _ _ Hsh), Hrun. cbn.
      by rewrite Nat.add_0_r.
  - exists (mk_leaf [fresh k]), 0, (KAt [] 0), 1. split; [apply find_node_empty|].
    exists [], 0, [], (fresh k), []. split; [done|].
    split; [by constructor; simpl; lia|].
    split; [by apply (points_to_leaf [fresh k] 0 (fresh k)); [simpl; lia|]|].
    split; [done|]. split; [done|]. split; [done|]. by right.
Qed.

End find_node.

(** ** Appending a value *)

Local Open Scope Z_scope.

Lemma to_int_id z : INT_MIN ≤ z ≤ INT_MAX → to_int z = z.
Proof. unfold to_int, INT_MIN, INT_MAX. intros. Z.div_mod_to_equations. lia. Qed.

Lemma to_size_t_id z : 0 ≤ z ≤ INT_MAX → to_size_t z = z.
Proof. unfold to_size_t, INT_MAX. intros. Z.div_mod_to_equations. lia. Qed.

Lemma int_add_Done a b : INT_MIN ≤ a + b ≤ INT_MAX → int_add a b = Done (a + b) 0.
Proof. intros. unfold int_add. by rewrite decide_True. Qed.

Lemma int_sub_Done a b : INT_MIN ≤ a - b ≤ INT_MAX → int_sub a b = Done (a - b) 0.
Proof. intros. unfold int_sub. by rewrite decide_True. Qed.

Lemma line_up_bounds x : x ≤ line_up x < x + LINE_SIZE.
Proof. unfold line_up, LINE_SIZE. Z.div_mod_to_equations. lia. Qed.

Lemma line_up_multiple x : line_up x `mod` LINE_SIZE = 0.
Proof. unfold line_up, LINE_SIZE. Z.div_mod_to_equations. lia. Qed.

Lemma line_up_least x m : x ≤ LINE_SIZE * m → line_up x ≤ LINE_SIZE * m.
Proof. unfold line_up, LINE_SIZE. intros. Z.div_mod_to_equations. lia. Qed.

(** The loop stops at the least multiple of [LINE_SIZE] that covers
    [spaceTaken]. *)
Lemma round_to_line_Done fuel q taken :
  0 ≤ q → LINE_SIZE * q ≤ line_up taken → line_up taken ≤ INT_MAX →
  line_up taken / LINE_SIZE - q ≤ Z.of_nat fuel →
  round_to_line fuel (LINE_SIZE * q) taken = Done (line_up taken) 0.
Proof.
  revert q. induction fuel as [|fuel IH]; intros q Hq Hle Hmax Hfuel.
  - simpl. pose proof (line_up_bounds taken).
    assert (line_up taken = LINE_SIZE * q) as Heq.
    { revert Hle Hfuel. unfold line_up, LINE_SIZE. intros. Z.div_mod_to_equations. lia. }
    rewrite Heq in *. rewrite (proj2 (Z.ltb_ge _ _)) by lia. done.
  - simpl. pose proof (line_up_bounds taken).
    destruct (Z.ltb_spec (LINE_SIZE * q) taken) as [Hlt|Hge].
    + assert (LINE_SIZE * (q + 1) ≤ line_up taken).
      { revert Hle Hlt. unfold line_up, LINE_SIZE. intros. Z.div_mod_to_equations. lia. }
      mstep ltac:(apply int_add_Done; revert Hmax; unfold INT_MIN, INT_MAX, LINE_SIZE in *; lia).
      replace (LINE_SIZE * q + LINE_SIZE) with (LINE_SIZE * (q + 1)) by (unfold LINE_SIZE; lia).
      apply IH; lia.
    + assert (line_up taken = LINE_SIZE * q) as ->; [|done].
      apply Z.le_antisymm; [|done]. by apply line_up_least.
Qed.

Lemma line_up_full n : 0 ≤ n → n `mod` 16 = 0 → line_up (sizeof_value * n) = sizeof_value * n.
Proof. unfold line_up, LINE_SIZE, sizeof_value. intros. Z.div_mod_to_equations. lia. Qed.

Lemma line_up_next_full n :
  0 ≤ n → n `mod` 16 = 0 → line_up (sizeof_value * (n + 1)) = sizeof_value * n + LINE_SIZE.
Proof. unfold line_up, LINE_SIZE, sizeof_value. intros. Z.div_mod_to_equations. lia. Qed.

Lemma line_up_next_room n :
  0 ≤ n → n `mod` 16 ≠ 0 →
  line_up (sizeof_value * (n + 1)) = line_up (sizeof_value * n) ∧
  sizeof_value * (n + 1) ≤ line_up (sizeof_value * n).
Proof. unfold line_up, LINE_SIZE, sizeof_value. intros. Z.div_mod_to_equations. lia. Qed.

Lemma buf_of_cells vs :
  vs ≠ [] →
  buf_of vs = Some (Vbuf (buf_bytes vs)
    ((Some <$> vs) ++ replicate (Z.to_nat (buf_bytes vs / sizeof_value) - length vs)%nat None)).
Proof. by destruct vs. Qed.

(** Storing into the first free cell. *)
Lemma insert_first_free (vs : list Z) (m : nat) (v : Z) :
  (1 ≤ m)%nat →
  <[length vs := Some v]> ((Some <$> vs) ++ replicate m None)
  = (Some <$> (vs ++ [v])) ++ replicate (m - 1) None.
Proof.
  intros Hm. destruct m as [|m]; [lia|].
  replace (length vs) with (length (Some <$> vs) + 0)%nat by (rewrite length_fmap; lia).
  rewrite insert_app_r. simpl. rewrite Nat.sub_0_r, fmap_app, <- app_assoc. done.
Qed.

Lemma round_to_line_start n :
  0 ≤ n ≤ VALS_MAX + 1 →
  round_to_line (Z.to_nat (sizeof_value * n / LINE_SIZE + 1)) 0 (sizeof_value * n)
  = Done (line_up (sizeof_value * n)) 0.
Proof.
  intros Hn. pose proof (line_up_bounds (sizeof_value * n)) as Hb.
  apply (round_to_line_Done _ 0).
  - done.
  - unfold sizeof_value, LINE_SIZE in *. lia.
  - revert Hn. unfold line_up, sizeof_value, LINE_SIZE, INT_MAX, VALS_MAX.
    intros. Z.div_mod_to_equations. lia.
  - rewrite Z2Nat.id.
    + unfold line_up, sizeof_value, LINE_SIZE, VALS_MAX in *. Z.div_mod_to_equations. lia.
    + unfold sizeof_value, LINE_SIZE, VALS_MAX in *. Z.div_mod_to_equations. lia.
Qed.

Lemma buf_write_ok bytes (vs : list Z) (m : nat) v :
  (Z.of_nat (length vs) + 1) * sizeof_value ≤ bytes → (1 ≤ m)%nat →
  buf_write (Some (Vbuf bytes ((Some <$> vs) ++ replicate m None))) (Z.of_nat (length vs)) v
  = Done (Some (Vbuf bytes ((Some <$> (vs ++ [v])) ++ replicate (m - 1) None))) 0.
Proof.
  intros Hb Hm. unfold buf_write. cbn [vb_bytes vb_cells].
  rewrite decide_True by lia. rewrite Nat2Z.id.
  mstep ltac:(apply array_set_Done; len).
  by rewrite insert_first_free.
Qed.

Lemma append_value_ok k vs v :
  Z.of_nat (length vs) ≤ VALS_MAX →
  append_value (kn_of k vs) v
  = Done (kn_of k (vs ++ [v]))
         (if decide (Z.of_nat (length vs) `mod` 16 = 0) then 1%nat else 0%nat).
Proof.
  intros Hmax. unfold append_value, kn_of. cbn [nVals key values].
  assert (Hlen : Z.of_nat (length (vs ++ [v])) = Z.of_nat (length vs) + 1)
    by (rewrite length_app; simpl; lia).
  assert (Hne : vs ++ [v] ≠ []) by by destruct vs.
  rewrite (buf_of_cells (vs ++ [v])) by done. unfold buf_bytes. rewrite Hlen.
  set (n := Z.of_nat (length vs)) in *.
  assert (Hn : 0 ≤ n) by lia.
  pose proof (line_up_bounds (sizeof_value * n)) as Hb.
  assert (Ht : to_int (n * sizeof_value) = sizeof_value * n).
  { rewrite to_int_id; unfold INT_MIN, INT_MAX, VALS_MAX, sizeof_value in *; lia. }
  rewrite Ht.
  mstep ltac:(apply round_to_line_start; lia).
  mstep ltac:(apply int_sub_Done;
    unfold INT_MIN, INT_MAX, LINE_SIZE, VALS_MAX, sizeof_value in *; lia).
  rewrite to_size_t_id
    by (unfold INT_MAX, LINE_SIZE, VALS_MAX, sizeof_value in *; lia).
  destruct (decide (n `mod` 16 = 0)) as [Hfull|Hfull].
  - rewrite (line_up_full n), (line_up_next_full n) by done.
    rewrite decide_True by (unfold sizeof_value; lia).
    eapply (bind_Done _ _ _ 1 _ 0).
    { mstep ltac:(apply int_add_Done;
        unfold INT_MIN, INT_MAX, LINE_SIZE, VALS_MAX, sizeof_value in *; lia).
      unfold realloc. reflexivity. }
    assert (Hcells : match buf_of vs with Some b => vb_cells b | None => [] end = Some <$> vs).
    { destruct (decide (vs = [])) as [->|Hvs]; [done|].
      rewrite buf_of_cells by done. cbn [vb_cells]. unfold buf_bytes. fold n.
      rewrite (line_up_full n) by done.
      replace (Z.to_nat ((sizeof_value * n) `div` sizeof_value) - length vs)%nat with 0%nat.
      - cbn [replicate]. by rewrite app_nil_r.
      - unfold sizeof_value. rewrite Z.mul_comm, Z.div_mul by done. lia. }
    rewrite Hcells.
    assert (Hc : Z.to_nat ((sizeof_value * n + LINE_SIZE) `div` sizeof_value) = (length vs + 16)%nat).
    { unfold sizeof_value, LINE_SIZE. subst n. Z.div_mod_to_equations. lia. }
    rewrite Hc, length_fmap.
    replace (length vs + 16 - length vs)%nat with 16%nat by lia.
    rewrite take_ge by len.
    mstep ltac:(apply buf_write_ok; [unfold sizeof_value, LINE_SIZE; lia|lia]).
    mstep ltac:(apply int_add_Done;
        unfold INT_MIN, INT_MAX, LINE_SIZE, VALS_MAX, sizeof_value in *; lia).
    unfold mret, M_ret. do 6 f_equal. rewrite length_app. simpl. lia.
  - destruct (line_up_next_room n Hn Hfull) as [Heq Hroom]. rewrite Heq.
    rewrite decide_False by lia.
    assert (Hvs : vs ≠ []) by (intros ->; by apply Hfull).
    rewrite (buf_of_cells vs) by done. unfold buf_bytes. fold n.
    mstep ltac:(reflexivity).
    mstep ltac:(apply buf_write_ok; [unfold sizeof_value in *; lia|];
      unfold sizeof_value in *; subst n; Z.div_mod_to_equations; lia).
    mstep ltac:(apply int_add_Done;
        unfold INT_MIN, INT_MAX, LINE_SIZE, VALS_MAX, sizeof_value in *; lia).
    unfold mret, M_ret. do 6 f_equal. rewrite length_app. simpl. lia.
Qed.

(** One value more than [VALS_MAX]: the new size does not fit in [int]. *)
Lemma append_value_overflow k vs v :
  Z.of_nat (length vs) = VALS_MAX + 1 → append_value (kn_of k vs) v = Fault IntOverflow.
Proof.
  intros Hlen. unfold append_value, kn_of. cbn [nVals key values].
  rewrite Hlen.
  assert (Ht : to_int ((VALS_MAX + 1) * sizeof_value) = sizeof_value * (VALS_MAX + 1)) by done.
  rewrite Ht.
  mstep ltac:(apply round_to_line_start; unfold VALS_MAX; lia).
  rewrite (line_up_full (VALS_MAX + 1)) by done.
  mstep ltac:(by apply int_sub_Done).
  rewrite Z.sub_diag. rewrite decide_True by done.
  done.
Qed.

Local Close Scope Z_scope.

(** ** Adding a pair *)

Lemma assoc_add_found k v la vs lb :
  Forall (λ kv, kv.1 < k)%Z la →
  assoc_add k v (la ++ (k, vs) :: lb) = la ++ (k, vs ++ [v]) :: lb.
Proof.
  induction 1 as [|[k' vs'] la Hk _ IH]; simpl in *.
  - by rewrite Z.ltb_irrefl, Z.eqb_refl.
  - rewrite (proj2 (Z.ltb_ge _ _)) by lia.
    rewrite (proj2 (Z.eqb_neq _ _)) by lia. by rewrite IH.
Qed.

Lemma assoc_add_fresh k v la lb :
  Forall (λ kv, kv.1 < k)%Z la → Forall (λ kv, k < kv.1)%Z lb →
  assoc_add k v (la ++ lb) = la ++ (k, [v]) :: lb.
Proof.
  induction 1 as [|[k' vs'] la Hk _ IH]; simpl in *; intros Hlb.
  - destruct Hlb as [|[k' vs'] lb Hk' _]; simpl in *; [done|].
    by rewrite (proj2 (Z.ltb_lt _ _)) by lia.
  - rewrite (proj2 (Z.ltb_ge _ _)) by lia.
    rewrite (proj2 (Z.eqb_neq _ _)) by lia. by rewrite IH.
Qed.

Lemma assoc_add_not_nil k v l : assoc_add k v l ≠ [].
Proof. destruct l as [|[k' vs] l]; simpl; [done|]. by repeat case_match. Qed.

Lemma rep_of_app la lb : rep_of (la ++ lb) = rep_of la ++ rep_of lb.
Proof. apply fmap_app. Qed.

Lemma rep_of_middle l l1 kn l2 :
  rep_of l = l1 ++ kn :: l2 →
  ∃ la vs lb, l = la ++ (key kn, vs) :: lb ∧ kn = kn_of (key kn) vs ∧
              l1 = rep_of la ∧ l2 = rep_of lb.
Proof.
  intros (la & lb' & -> & Hb & ->)%fmap_app_inv.
  symmetry in Hb. apply fmap_cons_inv in Hb as ([k vs] & lb & -> & -> & ->).
  by exists la, vs, lb.
Qed.

Lemma rep_of_split l l1 l2 :
  rep_of l = l1 ++ l2 → ∃ la lb, l = la ++ lb ∧ l1 = rep_of la ∧ l2 = rep_of lb.
Proof. intros (la & lb & -> & -> & ->)%fmap_app_inv. by exists la, lb. Qed.

Lemma Forall_rep_of (P : Z → Prop) l :
  Forall (λ x, P (key x)) (rep_of l) ↔ Forall (λ kv, P kv.1) l.
Proof. unfold rep_of. by rewrite Forall_fmap. Qed.

Section add.
Context `{Fanout}.
Hypothesis MAX_KEYS_pos : 1 ≤ MAX_KEYS.

Lemma mm_rep_tree_elems mm l : mm_rep mm l → tree_elems mm = rep_of l.
Proof.
  intros (_ & _ & Hr). unfold tree_elems. destruct (root mm) as [r|].
  - by destruct Hr as (_ & h & _ & ->).
  - by subst.
Qed.

Lemma mm_rep_ok mm l r :
  mm_rep mm l → root mm = Some r → ∃ h, shape h r ∧ sorted (elems r).
Proof.
  intros (_ & Hs & Hr) Hroot. rewrite Hroot in Hr.
  destruct Hr as (_ & h & Hsh & Hel). exists h. by rewrite Hel.
Qed.

(** [mm_add_value] finds or creates the record of [k] and runs
    [append_value] on it: it faults where [append_value] does, and else
    leaves a tree that holds one more pair. *)
Lemma mm_add_value_run mm l k v :
  mm_rep mm l →
  ∃ la vs lb a,
    l = la ++ (if decide (vs = []) then [] else [(k, vs)]) ++ lb ∧
    assoc_add k v l = la ++ (k, vs ++ [v]) :: lb ∧
    (∀ e, append_value (kn_of k vs) v = Fault e → mm_add_value mm k v = Fault e) ∧
    (∀ c, append_value (kn_of k vs) v = Done (kn_of k (vs ++ [v])) c →
          ∃ mm', mm_add_value mm k v = Done mm' (a + c) ∧
                 mm_rep mm' (assoc_add k v l)).
Proof.
  intros Hrep.
  destruct (find_node_create_ok MAX_KEYS_pos mm k) as (r' & h' & p & a & Hrun & Hins).
  { intros r. by apply (mm_rep_ok mm l). }
  rewrite (mm_rep_tree_elems mm l Hrep) in Hins.
  destruct Hins as (path & slot & l1 & kn & l2 & -> & Hsh & Hp & Hk & H1 & H2 & Hold).
  destruct Hp as (Hload & Hel & Hstore).
  destruct Hrep as (Hne & Hs & _).
  assert (∃ la vs lb, l = la ++ (if decide (vs = []) then [] else [(k, vs)]) ++ lb ∧
            kn = kn_of k vs ∧ l1 = rep_of la ∧ l2 = rep_of lb ∧
            assoc_add k v l = la ++ (k, vs ++ [v]) :: lb)
    as (la & vs & lb & Hl & -> & -> & -> & Hadd).
  { destruct Hold as [Hold|[Hold ->]].
    - apply rep_of_middle in Hold as (la & vs & lb & -> & Hkn & -> & ->).
      rewrite Hk in *.
      apply Forall_app in Hne as [_ [Hvs _]%Forall_cons]. simpl in Hvs.
      exists la, vs, lb. rewrite decide_False by done.
      split; [done|]. split; [done|]. split; [done|]. split; [done|].
      apply assoc_add_found. by apply (Forall_rep_of (λ x, x < k)%Z) in H1.
    - apply rep_of_split in Hold as (la & lb & -> & -> & ->).
      exists la, [], lb. split; [done|]. split; [done|]. split; [done|]. split; [done|].
      apply assoc_add_fresh.
      + by apply (Forall_rep_of (λ x, x < k)%Z) in H1.
      + by apply (Forall_rep_of (λ x, k < x)%Z) in H2. }
  exists la, vs, lb, a. split; [done|]. split; [done|].
  assert (Hhead : mm_add_value mm k v =
    match append_value (kn_of k vs) v with
    | Done kn' c =>
        match kn_store r' path slot kn' with
        | Done r'' c' => Done (Multimap (Some r'')) (a + (0 + (0 + (c + (c' + 0)))))
        | Fault e => Fault e
        end
    | Fault e => Fault e
    end).
  { unfold mm_add_value. rewrite Hrun. cbn [mbind M_bind root].
    rewrite Hload. cbn [mbind M_bind].
    rewrite assert_Done by done. cbn [mbind M_bind].
    destruct (append_value (kn_of k vs) v) as [kn' c|e]; [|done].
    cbn [mbind M_bind].
    destruct (kn_store r' path slot kn') as [r'' c'|e]; cbn [mbind M_bind mret M_ret]; [|done].
    done. }
  split.
  { intros e He. by rewrite Hhead, He. }
  intros c Hc.
  destruct (Hstore (kn_of k (vs ++ [v]))) as (r'' & Hst & Hsh'' & Hel'').
  exists (Multimap (Some r'')). split.
  { rewrite Hhead, Hc, Hst. f_equal. lia. }
  rewrite Hadd. split; [|split].
  - rewrite Hl in Hne. apply Forall_app in Hne as [? [_ ?]%Forall_app].
    apply Forall_app. split; [done|]. constructor; [|done]. simpl. by destruct vs.
  - rewrite rep_of_app. simpl. rewrite Hl in Hs.
    rewrite !rep_of_app in Hs. case_decide; simpl in Hs.
    + apply sorted_insert; auto.
    + eapply sorted_replace; [exact Hs|done].
  - cbn [root]. split; [by destruct la|]. exists h'. split; [done|].
    rewrite Hel''. by rewrite rep_of_app.
Qed.

Lemma vals_within_add n k v la vs lb :
  vals_within n (la ++ (if decide (vs = []) then [] else [(k, vs)]) ++ lb) →
  (Z.of_nat (length vs) + 1 ≤ n)%Z →
  vals_within n (la ++ (k, vs ++ [v]) :: lb).
Proof.
  unfold vals_within. rewrite !Forall_app. intros (? & _ & ?) ?.
  split; [done|]. constructor; [|done]. simpl. rewrite length_app. simpl. lia.
Qed.

Lemma vals_within_middle n k la vs lb :
  vals_within n (la ++ (if decide (vs = []) then [] else [(k, vs)]) ++ lb) →
  (0 ≤ n)%Z → (Z.of_nat (length vs) ≤ n)%Z.
Proof.
  unfold vals_within. rewrite !Forall_app. intros (_ & Hvs & _) ?.
  case_decide; [subst; simpl; lia|]. by apply Forall_cons in Hvs as [? _].
Qed.

(** While no key has more than [VALS_MAX] values, adding a pair succeeds. *)
Lemma mm_add_value_ok mm l k v :
  mm_rep mm l → vals_within VALS_MAX l →
  ∃ mm' a, mm_add_value mm k v = Done mm' a ∧ mm_rep mm' (assoc_add k v l).
Proof.
  intros Hrep Hmax.
  destruct (mm_add_value_run mm l k v Hrep) as (la & vs & lb & a & Hl & _ & _ & Hok).
  rewrite Hl in Hmax. apply vals_within_middle in Hmax; [|done].
  destruct (Hok _ (append_value_ok k vs v Hmax)) as (mm' & Hrun & Hrep').
  eauto.
Qed.

(** Whenever [mm_add_value] returns, the tree holds one more pair and no
    key has more than [VALS_MAX + 1] values. *)
Lemma mm_add_value_inv mm l k v mm' a :
  mm_rep mm l → vals_within (VALS_MAX + 1) l →
  mm_add_value mm k v = Done mm' a →
  mm_rep mm' (assoc_add k v l) ∧ vals_within (VALS_MAX + 1) (assoc_add k v l).
Proof.
  intros Hrep Hmax Hrun.
  destruct (mm_add_value_run mm l k v Hrep) as (la & vs & lb & a' & Hl & Hadd & Hbad & Hok).
  rewrite Hl in Hmax.
  pose proof (vals_within_middle _ _ _ _ _ Hmax ltac:(done)) as Hvs.
  destruct (decide (Z.of_nat (length vs) = VALS_MAX + 1)%Z) as [Hfull|Hroom].
  { by rewrite (Hbad _ (append_value_overflow k vs v Hfull)) in Hrun. }
  destruct (Hok _ (append_value_ok k vs v ltac:(lia))) as (mm'' & Hrun' & Hrep').
  rewrite Hrun in Hrun'. injection Hrun' as -> _.
  split; [done|]. rewrite Hadd. apply vals_within_add; [done|lia].
Qed.

End add.

(** ** Traversal *)

Lemma buf_bytes_covers (vs : list Z) :
  (Z.of_nat (length vs) * sizeof_value ≤ buf_bytes vs)%Z.
Proof.
  unfold buf_bytes. pose proof (line_up_bounds (sizeof_value * Z.of_nat (length vs))). lia.
Qed.

Lemma buf_read_ok (vs : list Z) i v :
  vs !! i = Some v → buf_read (buf_of vs) i = Done v 0.
Proof.
  intros Hv. assert (i < length vs) by by eapply lookup_lt_Some.
  rewrite buf_of_cells by by destruct vs.
  unfold buf_read. cbn [vb_bytes vb_cells].
  pose proof (buf_bytes_covers vs).
  rewrite decide_True by (unfold sizeof_value in *; lia).
  mstep ltac:(apply array_get_Done; rewrite lookup_app_l by len;
              rewrite list_lookup_fmap, Hv; reflexivity).
  done.
Qed.

Lemma kNode_traverse_loop_ok k (vs : list Z) i todo :
  i + todo = length vs →
  kNode_traverse_loop (kn_of k vs) i todo = Visit ((λ v, (k, v)) <$> drop i vs) None.
Proof.
  revert i. induction todo as [|todo IH]; intros i Hi; simpl.
  - by rewrite drop_ge by lia.
  - destruct (lookup_lt_is_Some_2 vs i) as [v Hv]; [lia|].
    rewrite (buf_read_ok vs i v Hv), IH by lia.
    by rewrite (drop_S _ _ _ Hv).
Qed.

Lemma kNode_traverse_ok k vs :
  kNode_traverse (kn_of k vs) = Visit ((λ v, (k, v)) <$> vs) None.
Proof.
  unfold kNode_traverse. cbn [nVals kn_of]. rewrite Nat2Z.id.
  by rewrite kNode_traverse_loop_ok.
Qed.

Lemma readable_kn_of k vs : readable (kn_of k vs).
Proof. unfold readable. by rewrite kNode_traverse_ok. Qed.

Lemma pairs_kn_of k vs : pairs (kn_of k vs) = (λ v, (k, v)) <$> vs.
Proof. unfold pairs. by rewrite kNode_traverse_ok. Qed.

Lemma pairs_rep_of l : concat (pairs <$> rep_of l) = flatten l.
Proof.
  unfold flatten, rep_of. rewrite <- list_fmap_compose. f_equal.
  apply list_fmap_ext. intros _ [k vs] _. simpl. apply pairs_kn_of.
Qed.

Lemma Forall_inter {A} (P : A → Prop) (es : list (list A)) (ks : list A) :
  length es = S (length ks) →
  Forall P (inter es ks) → Forall (Forall P) es ∧ Forall P ks.
Proof.
  revert ks. induction es as [|e es IH]; intros ks Hlen Hall; [done|].
  destruct ks as [|k ks]; simpl in *.
  - destruct es; [|done]. rewrite app_nil_r in Hall. by repeat constructor.
  - apply Forall_app in Hall as [He [Hk Hall]%Forall_cons].
    destruct (IH ks) as [??]; [lia|done|]. split; by constructor.
Qed.

Lemma kNode_traverse_readable kn :
  readable kn → kNode_traverse kn = Visit (pairs kn) None.
Proof. unfold readable, pairs. by destruct (kNode_traverse kn) as [? []]. Qed.

Section traverse.
Context `{Fanout}.
Implicit Types (live : list key_node) (cs : list mm_node) (node c r : mm_node).

Lemma traverse_loop_leaf live kvs i todo :
  i + todo = length live → Forall readable live →
  traverse_loop true (padded MAX_KEYS key_zero live) kvs i todo
  = Visit (concat (pairs <$> drop i live)) None.
Proof.
  intros Hi Hall. revert i Hi. induction todo as [|todo IH]; intros i Hi; simpl.
  - by rewrite drop_ge by lia.
  - destruct (lookup_lt_is_Some_2 live i) as [kn Hkn]; [lia|].
    rewrite lookup_padded_lt, Hkn by lia.
    rewrite kNode_traverse_readable by by eapply Forall_lookup_1.
    rewrite IH by lia. by rewrite (drop_S _ _ _ Hkn).
Qed.

Lemma traverse_loop_inner live cs i todo :
  i + todo = length live → length cs = S (length live) → Forall readable live →
  Forall (λ c, mm_traverse_helper c = Visit (concat (pairs <$> elems c)) None) cs →
  traverse_loop false (padded MAX_KEYS key_zero live)
    (map (λ oc, match oc with
                | Some c => mm_traverse_helper c
                | None => Visit [] (Some NullDeref)
                end) (padded (S MAX_KEYS) None (Some <$> cs))) i todo
  = Visit (concat (pairs <$> inter (drop i (elems <$> cs)) (drop i live))) None.
Proof.
  intros Hi Hcs Hall Hkids. revert i Hi.
  assert (Hkid : ∀ i c, cs !! i = Some c →
    default (Visit [] (Some OutOfBounds))
      (map (λ oc, match oc with
                  | Some c => mm_traverse_helper c
                  | None => Visit [] (Some NullDeref)
                  end) (padded (S MAX_KEYS) None (Some <$> cs)) !! i)
    = Visit (concat (pairs <$> elems c)) None).
  { intros i c Hc. assert (i < length cs) by by eapply lookup_lt_Some.
    unfold padded. rewrite map_app, lookup_app_l by (rewrite length_map, length_fmap; lia).
    change (map ?f ?l) with (f <$> l). rewrite !list_lookup_fmap, Hc. simpl.
    by eapply (Forall_lookup_1 _ _ _ _ Hkids). }
  induction todo as [|todo IH]; intros i Hi; simpl.
  - destruct (lookup_lt_is_Some_2 cs i) as [c Hc]; [lia|].
    rewrite (Hkid i c Hc).
    rewrite (drop_S (elems <$> cs) (elems c) i) by by rewrite list_lookup_fmap, Hc.
    rewrite (drop_ge live) by lia. rewrite drop_ge by len. simpl.
    by rewrite app_nil_r.
  - destruct (lookup_lt_is_Some_2 cs i) as [c Hc]; [lia|].
    destruct (lookup_lt_is_Some_2 live i) as [kn Hkn]; [lia|].
    rewrite (Hkid i c Hc).
    rewrite lookup_padded_lt, Hkn by lia.
    rewrite kNode_traverse_readable by by eapply Forall_lookup_1.
    rewrite IH by lia.
    rewrite (drop_S (elems <$> cs) (elems c) i) by by rewrite list_lookup_fmap, Hc.
    rewrite (drop_S _ _ _ Hkn). simpl.
    by rewrite !fmap_app, !concat_app, fmap_cons.
Qed.

Lemma mm_traverse_helper_ok h node :
  shape h node → Forall readable (elems node) →
  mm_traverse_helper node = Visit (concat (pairs <$> elems node)) None.
Proof.
  revert node. induction h as [|h IH]; intros node Hsh Hall.
  - apply shape_0_inv in Hsh as (live & -> & Hlen).
    rewrite elems_mk_leaf in *. unfold mk_leaf. cbn [mm_traverse_helper].
    rewrite traverse_loop_leaf; [done|lia|done].
  - apply shape_S_inv in Hsh as (live & cs & -> & Hlen & Hcs & Hsh).
    rewrite elems_mk_inner in * by done.
    apply Forall_inter in Hall as [Hes Hks]; [|by rewrite length_fmap].
    unfold mk_inner. cbn [mm_traverse_helper].
    rewrite traverse_loop_inner; try done.
    apply Forall_forall. intros c Hc. apply IH.
    + by eapply Forall_forall in Hsh.
    + rewrite Forall_fmap, Forall_forall in Hes. by apply (Hes c).
Qed.

Lemma mm_traverse_ok mm l :
  mm_rep mm l → l ≠ [] → mm_traverse mm = Visit (flatten l) None.
Proof.
  intros (_ & _ & Hr) Hl. unfold mm_traverse. destruct (root mm) as [r|]; [|done].
  destruct Hr as (_ & h & Hsh & Hel).
  rewrite (mm_traverse_helper_ok h) by (done || (rewrite Hel; apply Forall_fmap, Forall_true; intros []; apply readable_kn_of)).
  by rewrite Hel, pairs_rep_of.
Qed.

Lemma mm_traverse_empty mm :
  mm_rep mm [] → mm_traverse mm = Visit [] (Some NullDeref).
Proof.
  intros (_ & _ & Hr). unfold mm_traverse. destruct (root mm) as [r|]; [|done].
  by destruct Hr as [? _].
Qed.

End traverse.

(** ** Membership queries *)

Lemma flatten_app la lb : flatten (la ++ lb) = flatten la ++ flatten lb.
Proof. unfold flatten. by rewrite fmap_app, concat_app. Qed.

Lemma flatten_cons k vs l : flatten ((k, vs) :: l) = ((λ v, (k, v)) <$> vs) ++ flatten l.
Proof. done. Qed.

Lemma elem_of_flatten k v l : (k, v) ∈ flatten l ↔ ∃ vs, (k, vs) ∈ l ∧ v ∈ vs.
Proof.
  induction l as [|[k' vs'] l IH].
  - split; [by intros ?%elem_of_nil|]. by intros (? & ?%elem_of_nil & _).
  - rewrite flatten_cons, elem_of_app, IH, list_elem_of_fmap. split.
    + intros [(v' & [= -> ->] & Hv)|(vs & Hvs & Hv)].
      * exists vs'. split; [by left|done].
      * exists vs. split; [by right|done].
    + intros (vs & [[= -> ->]|Hvs]%elem_of_cons & Hv).
      * left. by exists v.
      * right. by exists vs.
Qed.

Lemma elem_of_flatten_fst k v l : (k, v) ∈ flatten l → k ∈ l.*1.
Proof.
  intros (vs & Hvs & _)%elem_of_flatten. apply list_elem_of_fmap. by exists (k, vs).
Qed.

(** With keys in strictly increasing order, a key has one record. *)
Lemma sorted_rep_unique la k vs lb vs' :
  sorted (rep_of (la ++ (k, vs) :: lb)) → (k, vs') ∈ la ++ (k, vs) :: lb → vs' = vs.
Proof.
  rewrite rep_of_app. simpl. intros [H1 H2]%sorted_middle.
  apply (Forall_rep_of (λ x, x < k)%Z) in H1. apply (Forall_rep_of (λ x, k < x)%Z) in H2.
  rewrite Forall_forall in H1, H2.
  intros [Hin|[[= ->]|Hin]%elem_of_cons]%elem_of_app; [|done|].
  - specialize (H1 _ Hin). simpl in H1. lia.
  - specialize (H2 _ Hin). simpl in H2. lia.
Qed.

Lemma contains_pair_loop_ok k (vs : list Z) v i todo :
  i + todo = length vs →
  contains_pair_loop (kn_of k vs) v i todo = Done (bool_decide (v ∈ drop i vs)) 0.
Proof.
  revert i. induction todo as [|todo IH]; intros i Hi; simpl.
  - rewrite drop_ge by lia. unfold mret, M_ret. f_equal.
  - destruct (lookup_lt_is_Some_2 vs i) as [x Hx]; [lia|].
    mstep ltac:(by apply buf_read_ok).
    rewrite (drop_S _ _ _ Hx). destruct (decide (x = v)) as [Hv|Hv].
    + subst. unfold mret, M_ret. f_equal. symmetry. apply bool_decide_eq_true. by left.
    + rewrite IH by lia. f_equal. apply bool_decide_ext.
      rewrite elem_of_cons. intuition congruence.
Qed.

Section contains.
Context `{Fanout}.

(** On a tree with a root, a lookup leaves the tree alone and finds the
    record of [k] exactly when [k] has values. *)
Lemma find_node_rep mm l k :
  mm_rep mm l → l ≠ [] →
  ∃ p r, find_node mm k false = Done (mm, p) 0 ∧ root mm = Some r ∧
    match p with
    | KNull => k ∉ l.*1
    | KAt path slot =>
        ∃ la vs lb, l = la ++ (k, vs) :: lb ∧ kn_load r path slot = Done (kn_of k vs) 0
    end.
Proof.
  intros (Hne & Hs & Hr) Hl. destruct (root mm) as [r|] eqn:Hroot; [|done].
  destruct Hr as (_ & h & Hsh & Hel).
  destruct (find_node_lookup_ok mm r h k Hroot Hsh) as (p & Hrun & Hp).
  { by rewrite Hel. }
  exists p, r. split; [done|]. split; [done|].
  destruct p as [|path slot]; unfold looked_up in Hp.
  - rewrite Hel in Hp. apply (Forall_rep_of (λ x, x ≠ k)) in Hp.
    rewrite Forall_forall in Hp. intros ([k' vs] & -> & Hin)%list_elem_of_fmap.
    by apply (Hp _ Hin).
  - destruct Hp as (l1 & kn & l2 & (Hload & Hel' & _) & Hk).
    rewrite Hel in Hel'. apply rep_of_middle in Hel' as (la & vs & lb & -> & Hkn & _).
    rewrite Hk in *. exists la, vs, lb. split; [done|]. by rewrite <- Hkn.
Qed.

Lemma mm_contains_key_ok mm l k :
  mm_rep mm l → l ≠ [] →
  mm_contains_key mm k = Done (mm, bool_decide (k ∈ l.*1)) 0.
Proof.
  intros Hrep Hl.
  destruct (find_node_rep mm l k Hrep Hl) as (p & r & Hrun & Hroot & Hp).
  unfold mm_contains_key. rewrite Hrun. cbn. do 2 f_equal.
  destruct p as [|path slot].
  - symmetry. by apply bool_decide_eq_false.
  - destruct Hp as (la & vs & lb & -> & _). symmetry. apply bool_decide_eq_true.
    rewrite fmap_app, fmap_cons. apply elem_of_app. right. by left.
Qed.

Lemma mm_contains_pair_ok mm l k v :
  mm_rep mm l → l ≠ [] →
  mm_contains_pair mm k v = Done (mm, bool_decide ((k, v) ∈ flatten l)) 0.
Proof.
  intros Hrep Hl.
  destruct (find_node_rep mm l k Hrep Hl) as (p & r & Hrun & Hroot & Hp).
  unfold mm_contains_pair. rewrite Hrun. cbn [mbind M_bind]. rewrite Hroot.
  destruct p as [|path slot].
  - cbn. do 2 f_equal. symmetry. apply bool_decide_eq_false.
    intros Hin. by apply Hp, (elem_of_flatten_fst k v).
  - destruct Hp as (la & vs & lb & -> & Hload). rewrite Hload. cbn [mbind M_bind].
    cbn [nVals kn_of]. rewrite Nat2Z.id, contains_pair_loop_ok by done.
    cbn. do 2 f_equal. apply bool_decide_ext. rewrite drop_0, elem_of_flatten.
    destruct Hrep as (_ & Hs & _). split.
    + intros Hv. exists vs. split; [|done]. apply elem_of_app. right. by left.
    + intros (vs' & Hin & Hv). by rewrite <- (sorted_rep_unique _ _ _ _ _ Hs Hin).
Qed.

End contains.

(** ** The contents after a sequence of additions *)

Lemma sorted_rep_of l : sorted (rep_of l) ↔ StronglySorted Z.lt l.*1.
Proof.
  induction l as [|[k vs] l IH]; simpl.
  - split; constructor.
  - rewrite sorted_cons, StronglySorted_cons, IH.
    unfold key_lt. simpl.
    rewrite (Forall_rep_of (λ x, k < x)%Z), Forall_fmap. done.
Qed.

Lemma flatten_keys_above k l :
  Forall (Z.lt k) l.*1 → Forall (λ p, k < p.1)%Z (flatten l).
Proof.
  intros Hall. apply Forall_forall. intros [k' v] Hin%elem_of_flatten_fst.
  by eapply Forall_forall in Hall.
Qed.

Lemma with_key_above k k0 l :
  Forall (Z.lt k) l.*1 → (k0 ≤ k)%Z → with_key k0 (flatten l) = [].
Proof.
  intros Hall%flatten_keys_above Hle. unfold with_key.
  induction Hall as [|[k' v] l' Hk _ IH]; [done|].
  rewrite filter_cons, decide_False by (simpl in *; lia). done.
Qed.

Lemma with_key_same k0 k (vs : list Z) :
  with_key k0 ((λ v, (k, v)) <$> vs) = if decide (k = k0) then (λ v, (k, v)) <$> vs else [].
Proof.
  unfold with_key. induction vs as [|v vs IH]; [by case_decide|].
  rewrite fmap_cons, filter_cons, IH. simpl. by repeat case_decide.
Qed.

Lemma with_key_app k l1 l2 : with_key k (l1 ++ l2) = with_key k l1 ++ with_key k l2.
Proof. apply filter_app. Qed.

Lemma with_key_single k0 k v :
  with_key k0 [(k, v)] = if decide (k = k0) then [(k, v)] else [].
Proof. unfold with_key. rewrite filter_cons. simpl. by case_decide. Qed.

Lemma with_key_cons k0 p l : with_key k0 (p :: l) = with_key k0 [p] ++ with_key k0 l.
Proof. apply (with_key_app k0 [p] l). Qed.

Lemma flatten_single k v l : flatten ((k, [v]) :: l) = (k, v) :: flatten l.
Proof. done. Qed.

(** Adding a pair puts it after the pairs that already carry its key, and
    moves no other pair. *)
Lemma with_key_assoc_add k0 k v l :
  StronglySorted Z.lt l.*1 →
  with_key k0 (flatten (assoc_add k v l)) = with_key k0 (flatten l) ++ with_key k0 [(k, v)].
Proof.
  induction l as [|[k' vs] l IH]; intros Hs; [done|].
  rewrite fmap_cons in Hs. apply StronglySorted_cons in Hs as [Hk' Hs]. cbn [assoc_add fst].
  destruct (Z.ltb_spec k k'); [|destruct (Z.eqb_spec k k') as [->|]].
  - rewrite flatten_single, with_key_cons, with_key_single. case_decide as Hk; [|by rewrite app_nil_r].
    subst k0. rewrite (with_key_above k); [done| |lia].
    rewrite fmap_cons. constructor; [done|].
    eapply Forall_impl; [exact Hk'|]. intros; simpl in *; lia.
  - rewrite !flatten_cons, fmap_app, !with_key_app, <- !app_assoc. f_equal.
    rewrite with_key_same, with_key_single. case_decide as Hk; [|by rewrite app_nil_r].
    subst k0. by rewrite (with_key_above k') by (done || lia).
  - rewrite !flatten_cons, !with_key_app, IH, app_assoc by done. done.
Qed.

Lemma flatten_assoc_add k v l : flatten (assoc_add k v l) ≡ₚ (k, v) :: flatten l.
Proof.
  induction l as [|[k' vs] l IH]; [done|]. simpl.
  destruct (Z.ltb_spec k k'); [done|destruct (Z.eqb_spec k k') as [->|]].
  - rewrite !flatten_cons, fmap_app. simpl.
    rewrite <- app_assoc. simpl. by rewrite <- Permutation_middle.
  - rewrite !flatten_cons, IH. by rewrite <- Permutation_middle.
Qed.

Lemma assoc_add_keys k v l k1 :
  k1 ∈ (assoc_add k v l).*1 → k1 = k ∨ k1 ∈ l.*1.
Proof.
  induction l as [|[k' vs] l IH]; cbn [assoc_add].
  - intros ?%list_elem_of_singleton. by left.
  - destruct (k <? k')%Z; [|destruct (k =? k')%Z]; rewrite !fmap_cons, !elem_of_cons; simpl.
    + intuition (subst; auto).
    + intuition (subst; auto).
    + intros [->|[->|?]%IH]; eauto.
Qed.

Lemma assoc_add_sorted k v l :
  StronglySorted Z.lt l.*1 → StronglySorted Z.lt (assoc_add k v l).*1.
Proof.
  induction l as [|[k' vs] l IH]; intros Hs; simpl.
  - repeat constructor.
  - simpl in Hs. apply StronglySorted_cons in Hs as [Hk' Hs].
    destruct (Z.ltb_spec k k'); [|destruct (Z.eqb_spec k k') as [->|]]; simpl.
    + constructor; [by constructor|]. constructor; [done|].
      eapply Forall_impl; [exact Hk'|]. intros; simpl in *; lia.
    + by constructor.
    + constructor; [by apply IH|].
      apply Forall_forall. intros k1 [->|Hin]%assoc_add_keys.
      * lia.
      * by eapply Forall_forall in Hk'.
Qed.

Lemma flatten_key_ordered l : StronglySorted Z.lt l.*1 → key_ordered (flatten l).
Proof.
  unfold key_ordered. induction l as [|[k vs] l IH]; intros Hs; [constructor|].
  simpl in Hs. apply StronglySorted_cons in Hs as [Hk Hs].
  rewrite flatten_cons. apply StronglySorted_app. split; [|split].
  - intros [k1 v1] [k2 v2] (v' & [= -> ->] & _)%list_elem_of_fmap Hin. simpl.
    apply flatten_keys_above in Hk. eapply Forall_forall in Hk; [|exact Hin].
    simpl in Hk. lia.
  - clear. induction vs as [|v vs IH]; simpl; [constructor|].
    constructor; [done|]. apply Forall_forall.
    intros [k' v'] (? & [= -> ->] & _)%list_elem_of_fmap. done.
  - by apply IH.
Qed.

Lemma contents_of_snoc kvs k v :
  contents_of (kvs ++ [(k, v)]) = assoc_add k v (contents_of kvs).
Proof. unfold contents_of. by rewrite foldl_snoc. Qed.

Lemma contents_of_sorted kvs : StronglySorted Z.lt (contents_of kvs).*1.
Proof.
  induction kvs as [|[k v] kvs IH] using rev_ind; [constructor|].
  rewrite contents_of_snoc. by apply assoc_add_sorted.
Qed.

Lemma flatten_contents_of kvs : flatten (contents_of kvs) ≡ₚ kvs.
Proof.
  induction kvs as [|[k v] kvs IH] using rev_ind; [done|].
  rewrite contents_of_snoc, flatten_assoc_add, IH.
  by rewrite <- Permutation_cons_append.
Qed.

Lemma with_key_contents_of k kvs :
  with_key k (flatten (contents_of kvs)) = with_key k kvs.
Proof.
  induction kvs as [|[k' v] kvs IH] using rev_ind; [done|].
  rewrite contents_of_snoc, with_key_assoc_add by apply contents_of_sorted.
  by rewrite IH, with_key_app.
Qed.

Lemma contents_of_nil_inv kvs : contents_of kvs = [] → kvs = [].
Proof.
  destruct kvs as [|[k v] kvs _] using rev_ind; [done|].
  rewrite contents_of_snoc. intros ?. by destruct (assoc_add_not_nil k v (contents_of kvs)).
Qed.

(** ** Search in any node *)

Section search_any.
Context `{Fanout}.

Lemma searchInNode_loop_any node k i todo :
  i + todo = nKeys node → nKeys node ≤ length (kNodes node) →
  searchInNode_loop node k i todo
  = Done (i + lower_bound k (drop i (take (nKeys node) (kNodes node)))) 0.
Proof.
  intros Hi Hlen. revert i Hi. induction todo as [|todo IH]; intros i Hi; simpl.
  - rewrite drop_ge by (rewrite length_take; lia). simpl.
    unfold mret, M_ret. f_equal. lia.
  - destruct (lookup_lt_is_Some_2 (kNodes node) i) as [kn Hkn]; [lia|].
    mstep ltac:(by apply array_get_Done).
    rewrite (drop_S _ kn) by (rewrite lookup_take_lt by lia; done).
    simpl. case_match.
    + unfold mret, M_ret. f_equal. lia.
    + rewrite IH by lia. f_equal. lia.
Qed.

Lemma searchInNode_any node k :
  nKeys node ≤ length (kNodes node) →
  searchInNode node k = Done (lower_bound k (take (nKeys node) (kNodes node))) 0.
Proof.
  intros. unfold searchInNode. by rewrite searchInNode_loop_any by (done || lia).
Qed.

End search_any.

(** ** Lookups change nothing *)

Lemma array_get_inv {A} (a : list A) i x n : array_get a i = Done x n → a !! i = Some x ∧ n = 0.
Proof. unfold array_get. destruct (a !! i); [|done]. by intros [= -> <-]. Qed.

Lemma array_set_inv {A} (a : list A) i x a' n :
  array_set a i x = Done a' n → a' = <[i := x]> a ∧ n = 0.
Proof. unfold array_set. case_decide; [|done]. by intros [= <- <-]. Qed.

Section readonly.
Context `{Fanout}.

Lemma searchInNode_loop_pure node k i todo pos n :
  searchInNode_loop node k i todo = Done pos n → n = 0.
Proof.
  revert i. induction todo as [|todo IH]; intros i; simpl.
  - by intros [= _ <-].
  - intros (kn & n1 & n2 & [_ ->]%array_get_inv & Hrest & ->)%bind_Done_inv.
    destruct (k <=? key kn)%Z.
    + by injection Hrest as _ <-.
    + by apply IH in Hrest as ->.
Qed.

Lemma sai_readonly fuel node k node' p a :
  searchAndInsert_fuel fuel node k false = Done (node', p) a → node' = node ∧ a = 0.
Proof.
  revert node node' p a. induction fuel as [|fuel IH]; intros node node' p a; [done|].
  cbn [searchAndInsert_fuel].
  intros (pos & n1 & n2 & Hpos & Hrest & ->)%bind_Done_inv.
  apply searchInNode_loop_pure in Hpos as ->.
  apply bind_Done_inv in Hrest as (found & n1 & n3 & Hfound & Hrest & ->).
  assert (n1 = 0) as ->.
  { case_decide; [|by injection Hfound as _ <-].
    apply bind_Done_inv in Hfound as (kn & m1 & m2 & [_ ->]%array_get_inv & Hf & ->).
    by injection Hf as _ <-. }
  destruct found; [by injection Hrest as <- _ <-|].
  destruct (isLeaf node) eqn:Hleaf; [by injection Hrest as <- _ <-|].
  apply bind_Done_inv in Hrest as (onext & m1 & m2 & [Hnext ->]%array_get_inv & Hrest & ->).
  destruct onext as [next|]; [|done]. cbn [andb] in Hrest.
  apply bind_Done_inv in Hrest as ([next' p'] & m1 & m3 & Hrec & Hrest & ->).
  apply IH in Hrec as [-> ->].
  apply bind_Done_inv in Hrest as (kids' & m4 & m5 & [-> ->]%array_set_inv & Hrest & ->).
  injection Hrest as <- _ <-. split; [|done].
  rewrite list_insert_id by done. destruct node. simpl in *. by subst.
Qed.

(** [find_node] without creation returns the multimap it was given and
    allocates nothing. *)
Lemma find_node_readonly mm k mm' p a :
  find_node mm k false = Done (mm', p) a → mm' = mm ∧ a = 0.
Proof.
  unfold find_node. destruct mm as [[r|]]; cbn [root]; [|done].
  rewrite andb_false_r.
  intros (node & n1 & n2 & [= <- <-] & Hrest & ->)%bind_Done_inv.
  apply bind_Done_inv in Hrest as ([node' p'] & n3 & n4 & Hrun & Hrest & ->).
  apply sai_readonly in Hrun as [-> ->]. by injection Hrest as <- _ <-.
Qed.

Lemma kn_load_pure node path slot kn n : kn_load node path slot = Done kn n → n = 0.
Proof.
  revert node. induction path as [|i path IH]; intros node; simpl.
  - by intros [_ ->]%array_get_inv.
  - intros (oc & n1 & n2 & [_ ->]%array_get_inv & Hrest & ->)%bind_Done_inv.
    destruct oc as [c|]; [|done]. by apply IH in Hrest as ->.
Qed.

Lemma buf_read_pure b i x n : buf_read b i = Done x n → n = 0.
Proof.
  unfold buf_read. destruct b as [b|]; [|done]. case_decide; [|done].
  intros (cell & n1 & n2 & [_ ->]%array_get_inv & Hrest & ->)%bind_Done_inv.
  destruct cell; [|done]. by injection Hrest as _ <-.
Qed.

Lemma contains_pair_loop_pure kn v i todo b n :
  contains_pair_loop kn v i todo = Done b n → n = 0.
Proof.
  revert i. induction todo as [|todo IH]; intros i; simpl.
  - by intros [= _ <-].
  - intros (x & n1 & n2 & ->%buf_read_pure & Hrest & ->)%bind_Done_inv.
    case_decide.
    + by injection Hrest as _ <-.
    + by apply IH in Hrest as ->.
Qed.

Lemma mm_contains_key_readonly mm k mm' b a :
  mm_contains_key mm k = Done (mm', b) a → mm' = mm ∧ a = 0.
Proof.
  unfold mm_contains_key.
  intros ([mm1 p] & n1 & n2 & [-> ->]%find_node_readonly & Hrest & ->)%bind_Done_inv.
  by injection Hrest as <- _ <-.
Qed.

Lemma mm_contains_pair_readonly mm k v mm' b a :
  mm_contains_pair mm k v = Done (mm', b) a → mm' = mm ∧ a = 0.
Proof.
  unfold mm_contains_pair.
  intros ([mm1 p] & n1 & n2 & [-> ->]%find_node_readonly & Hrest & ->)%bind_Done_inv.
  destruct p as [|path slot]; [by injection Hrest as <- _ <-|].
  destruct (root mm) as [r|]; [|done].
  apply bind_Done_inv in Hrest as (kn & m1 & m2 & ->%kn_load_pure & Hrest & ->).
  apply bind_Done_inv in Hrest as (b' & m3 & m4 & ->%contains_pair_loop_pure & Hrest & ->).
  by injection Hrest as <- _ <-.
Qed.

End readonly.

(** ** Teardown *)

Section clear.
Context `{Fanout}.
Implicit Types (live : list key_node) (cs : list mm_node) (node c r : mm_node).

Lemma free_loop_leaf live kfs i todo :
  i + todo = length live → length live ≤ MAX_KEYS →
  free_loop true (padded MAX_KEYS key_zero live) kfs i todo = Done () 0.
Proof.
  intros Hi Hlen. revert i Hi. induction todo as [|todo IH]; intros i Hi; cbn [free_loop]; [done|].
  destruct (lookup_lt_is_Some_2 live i) as [kn Hkn]; [lia|].
  mstep ltac:(reflexivity).
  mstep ltac:(apply array_get_Done; rewrite lookup_padded_lt by lia; exact Hkn).
  apply IH. lia.
Qed.

Lemma free_loop_inner live cs i todo :
  i + todo = length live → length live ≤ MAX_KEYS → length cs = S (length live) →
  Forall (λ c, free_multimap_node c = Done () 0) cs →
  free_loop false (padded MAX_KEYS key_zero live)
    (map (λ oc, match oc with
                | Some c => free_multimap_node c
                | None => Fault NullDeref
                end) (padded (S MAX_KEYS) None (Some <$> cs))) i todo
  = Done () 0.
Proof.
  intros Hi Hlen Hcs Hkids. revert i Hi.
  assert (Hkid : ∀ i, i < length cs →
    default (Fault OutOfBounds)
      (map (λ oc, match oc with
                  | Some c => free_multimap_node c
                  | None => Fault NullDeref
                  end) (padded (S MAX_KEYS) None (Some <$> cs)) !! i)
    = Done () 0).
  { intros i Hi. destruct (lookup_lt_is_Some_2 cs i Hi) as [c Hc].
    unfold padded. rewrite map_app, lookup_app_l by (rewrite length_map, length_fmap; lia).
    change (map ?f ?l) with (f <$> l). rewrite !list_lookup_fmap, Hc. simpl.
    by eapply (Forall_lookup_1 _ _ _ _ Hkids). }
  induction todo as [|todo IH]; intros i Hi; cbn [free_loop].
  - apply Hkid. lia.
  - destruct (lookup_lt_is_Some_2 live i) as [kn Hkn]; [lia|].
    mstep ltac:(apply Hkid; lia).
    mstep ltac:(apply array_get_Done; rewrite lookup_padded_lt by lia; exact Hkn).
    apply IH. lia.
Qed.

Lemma free_multimap_node_ok h node : shape h node → free_multimap_node node = Done () 0.
Proof.
  revert node. induction h as [|h IH]; intros node Hsh.
  - apply shape_0_inv in Hsh as (live & -> & Hlen).
    unfold mk_leaf. cbn [free_multimap_node]. by apply free_loop_leaf.
  - apply shape_S_inv in Hsh as (live & cs & -> & Hlen & Hcs & Hsh).
    unfold mk_inner. cbn [free_multimap_node]. apply free_loop_inner; try done.
    eapply Forall_impl; [exact Hsh|]. done.
Qed.

Lemma mm_rep_empty : mm_rep (Multimap None) [].
Proof. split; [done|]. split; [constructor|done]. Qed.

Lemma clear_multimap_ok mm l : mm_rep mm l → clear_multimap mm = Done (Multimap None) 0.
Proof.
  intros (_ & _ & Hr). unfold clear_multimap. destruct (root mm) as [r|]; [|done].
  destruct Hr as (_ & h & Hsh & _). by rewrite (free_multimap_node_ok h r Hsh).
Qed.

Lemma clear_multimap_inv mm mm' a : clear_multimap mm = Done mm' a → mm' = Multimap None.
Proof.
  unfold clear_multimap.
  intros (? & n1 & n2 & _ & Hrest & ->)%bind_Done_inv. by injection Hrest as <- _.
Qed.

End clear.

(** ** Sessions *)

Lemma vals_within_flatten l : vals_within (Z.of_nat (length (flatten l))) l.
Proof.
  unfold vals_within. induction l as [|[k vs] l IH]; [done|].
  rewrite flatten_cons, length_app, length_fmap. constructor; [simpl; lia|].
  eapply Forall_impl; [exact IH|]. intros; simpl in *; lia.
Qed.

Lemma vals_within_mono n m l : (n ≤ m)%Z → vals_within n l → vals_within m l.
Proof. intros ? Hl. eapply Forall_impl; [exact Hl|]. intros; simpl in *; lia. Qed.

Lemma length_flatten_assoc_add k v l :
  length (flatten (assoc_add k v l)) = S (length (flatten l)).
Proof. by rewrite flatten_assoc_add. Qed.

Lemma session_contents_adds kvs :
  session_contents ((λ kv : Z * Z, Add kv.1 kv.2) <$> kvs) = contents_of kvs.
Proof. unfold session_contents, contents_of. by rewrite foldl_fmap. Qed.

Lemma session_contents_keys ops l k :
  k ∈ (foldl (λ l o, op_contents o l) l ops).*1 → k ∈ l.*1 ∨ ∃ v, Add k v ∈ ops.
Proof.
  revert l. induction ops as [|o ops IH]; intros l; simpl; [by left|].
  intros [Hin|(v & Hin)]%IH.
  - destruct o as [k' v| | |]; simpl in Hin.
    + apply assoc_add_keys in Hin as [->|?]; [|by left].
      right. exists v. by left.
    + by left.
    + by left.
    + by apply elem_of_nil in Hin.
  - right. exists v. by right.
Qed.

Section sessions.
Context `{Fanout}.
Hypothesis MAX_KEYS_pos : 1 ≤ MAX_KEYS.

(** Every call that returns leaves a well-formed tree with the contents the
    call stands for. *)
Lemma step_rep mm l o mm' a :
  mm_rep mm l → vals_within (VALS_MAX + 1) l → step mm o = Done mm' a →
  mm_rep mm' (op_contents o l) ∧ vals_within (VALS_MAX + 1) (op_contents o l).
Proof.
  intros Hrep Hmax. destruct o as [k v|k|k v|]; simpl.
  - by apply mm_add_value_inv.
  - intros ([mm1 b] & n1 & n2 & [-> ->]%mm_contains_key_readonly & Hrest & ->)%bind_Done_inv.
    by injection Hrest as <- _.
  - intros ([mm1 b] & n1 & n2 & [-> ->]%mm_contains_pair_readonly & Hrest & ->)%bind_Done_inv.
    by injection Hrest as <- _.
  - intros ->%clear_multimap_inv. split; [apply mm_rep_empty|constructor].
Qed.

Lemma run_rep mm l ops mm' a :
  mm_rep mm l → vals_within (VALS_MAX + 1) l → run mm ops = Done mm' a →
  mm_rep mm' (foldl (λ l o, op_contents o l) l ops) ∧
  vals_within (VALS_MAX + 1) (foldl (λ l o, op_contents o l) l ops).
Proof.
  revert mm l a. induction ops as [|o ops IH]; intros mm l a Hrep Hmax; simpl.
  - by intros [= <- _].
  - intros (mm1 & n1 & n2 & Hstep & Hrun & ->)%bind_Done_inv.
    destruct (step_rep _ _ _ _ _ Hrep Hmax Hstep) as [Hrep1 Hmax1].
    by eapply IH.
Qed.

Lemma session_rep ops mm a :
  session ops = Done mm a →
  mm_rep mm (session_contents ops) ∧ vals_within (VALS_MAX + 1) (session_contents ops).
Proof.
  unfold session, init_multimap.
  intros (mm0 & n1 & n2 & [= <- <-] & Hrun & ->)%bind_Done_inv.
  eapply run_rep; [apply mm_rep_empty|constructor|done].
Qed.

Lemma add_all_rep kvs mm a : add_all kvs = Done mm a → mm_rep mm (contents_of kvs).
Proof.
  unfold add_all. intros [Hrep _]%session_rep. by rewrite session_contents_adds in Hrep.
Qed.

(** Below the limit every addition succeeds. *)
Lemma run_adds_total mm l kvs :
  mm_rep mm l → (Z.of_nat (length (flatten l) + length kvs) ≤ ADD_LIMIT)%Z →
  ∃ mm' a, run mm ((λ kv : Z * Z, Add kv.1 kv.2) <$> kvs) = Done mm' a.
Proof.
  revert mm l. induction kvs as [|[k v] kvs IH]; intros mm l Hrep Hlim;
    rewrite ?fmap_cons; cbn [run step fst snd].
  - by eexists _, _.
  - destruct (mm_add_value_ok MAX_KEYS_pos mm l k v Hrep) as (mm1 & a1 & Hadd & Hrep1).
    { eapply vals_within_mono; [|apply vals_within_flatten].
      unfold ADD_LIMIT, VALS_MAX in *. simpl in Hlim. lia. }
    destruct (IH mm1 _ Hrep1) as (mm' & a' & Hrun).
    { rewrite length_flatten_assoc_add. simpl in Hlim. lia. }
    exists mm', (a1 + a'). rewrite Hadd. cbn [mbind M_bind]. by rewrite Hrun.
Qed.

Lemma add_all_total kvs :
  (Z.of_nat (length kvs) ≤ ADD_LIMIT)%Z → ∃ mm a, add_all kvs = Done mm a.
Proof.
  intros Hlim. destruct (run_adds_total (Multimap None) [] kvs) as (mm & a & Hrun).
  { apply mm_rep_empty. }
  { done. }
  exists mm, (1 + a). unfold add_all, session, init_multimap. cbn. by rewrite Hrun.
Qed.

End sessions.

(** ** Every node of a well-formed tree *)

Lemma sorted_inter (es : list (list key_node)) (ks : list key_node) :
  length es = S (length ks) → sorted (inter es ks) → sorted ks ∧ Forall sorted es.
Proof.
  revert ks. induction es as [|e es IH]; intros ks Hlen Hs; [done|].
  destruct ks as [|k ks]; simpl in *.
  - destruct es; [|done]. rewrite app_nil_r in Hs. split; [constructor|by repeat constructor].
  - apply sorted_app in Hs as (_ & He & [Hk Hs]%sorted_cons).
    destruct (IH ks) as [Hks Hes]; [lia|done|].
    apply Forall_inter in Hk as [_ Hk]; [|lia].
    split; [by apply sorted_cons|by constructor].
Qed.

Section nodes.
Context `{Fanout}.
Implicit Types (live : list key_node) (cs : list mm_node) (node c r : mm_node).

Lemma shape_live h node :
  shape h node → sorted (elems node) → sorted (take (nKeys node) (kNodes node)).
Proof.
  intros Hsh Hs. apply shape_inv in Hsh as (leaf & live & cs & -> & Hlen & Hk).
  rewrite nKeys_mk_node.
  replace (take (length live) (kNodes (mk_node leaf live cs))) with live
    by (destruct leaf; simpl; by rewrite take_padded).
  destruct leaf.
  - by rewrite elems_mk_node in Hs.
  - destruct Hk as (h' & -> & Hcs & _). rewrite elems_mk_node in Hs by done.
    apply sorted_inter in Hs as [? _]; [done|by rewrite length_fmap].
Qed.

Lemma shape_child h live cs i c :
  length cs = S (length live) → Forall (shape h) cs → sorted (elems (mk_inner live cs)) →
  kids (mk_inner live cs) !! i = Some (Some c) →
  shape h c ∧ sorted (elems c).
Proof.
  intros Hcs Hall Hs Hc. simpl in Hc. unfold padded in Hc.
  apply lookup_app_Some in Hc as [Hc|[_ Hc]].
  - rewrite list_lookup_fmap in Hc. destruct (cs !! i) as [c'|] eqn:Hi; [|done].
    injection Hc as ->. split; [by eapply Forall_lookup_1|].
    rewrite elems_mk_inner in Hs by done.
    apply sorted_inter in Hs as [_ Hes]; [|by rewrite length_fmap].
    eapply (Forall_lookup_1 _ _ i) in Hes; [done|]. by rewrite list_lookup_fmap, Hi.
  - by apply lookup_replicate in Hc as [? _].
Qed.

Lemma at_depth_shape h r d node :
  shape h r → sorted (elems r) → at_depth d r node →
  ∃ h', h = d + h' ∧ shape h' node ∧ sorted (elems node).
Proof.
  intros Hsh Hs Hat. induction Hat as [r|d r node i c Hat IH Hleaf Hi Hc].
  - by exists h.
  - destruct (IH Hsh Hs) as (h' & -> & Hsh' & Hs').
    destruct h' as [|h'].
    + apply shape_0_inv in Hsh' as (? & -> & _). done.
    + apply shape_S_inv in Hsh' as (live & cs & -> & Hlen & Hcs & Hall).
      destruct (shape_child h' live cs i c) as [??]; try done.
      exists h'. split; [lia|done].
Qed.

(** The child slots of an inner node: the first [nKeys + 1] hold a child,
    the others are null. *)
Lemma shape_kids h node :
  shape h node → isLeaf node = false →
  (∀ i, i ≤ nKeys node → ∃ c, kids node !! i = Some (Some c)) ∧
  (∀ i, nKeys node < i → i ≤ MAX_KEYS → kids node !! i = Some None).
Proof.
  intros Hsh Hleaf. destruct h as [|h].
  - apply shape_0_inv in Hsh as (? & -> & _). done.
  - apply shape_S_inv in Hsh as (live & cs & -> & Hlen & Hcs & Hall). simpl. split.
    + intros i Hi. destruct (lookup_lt_is_Some_2 cs i) as [c Hc]; [lia|].
      exists c. rewrite lookup_padded_lt by (rewrite length_fmap; lia).
      by rewrite list_lookup_fmap, Hc.
    + intros i Hi Hmax. apply lookup_padded_ge; rewrite ?length_fmap; lia.
Qed.

End nodes.

(** ** The slots of every node, and the record of a key *)

Section slots.
Context `{Fanout}.

Lemma at_depth_Forall (P : key_node → Prop) h r d node :
  shape h r → sorted (elems r) → Forall P (elems r) → at_depth d r node →
  Forall P (elems node).
Proof.
  intros Hsh Hs HP Hat. induction Hat as [r|d r node i c Hat IH Hleaf Hi Hc]; [done|].
  specialize (IH Hsh Hs HP).
  destruct (at_depth_shape h r d node Hsh Hs Hat) as (h' & -> & Hsh' & Hs').
  destruct h' as [|h'].
  - apply shape_0_inv in Hsh' as (? & -> & _). done.
  - apply shape_S_inv in Hsh' as (live & cs & -> & Hlen & Hcs & Hall).
    rewrite elems_mk_inner in IH by done.
    apply Forall_inter in IH as [IH _]; [|by rewrite length_fmap].
    simpl in Hc. unfold padded in Hc.
    apply lookup_app_Some in Hc as [Hc|[_ Hc]].
    + rewrite list_lookup_fmap in Hc. destruct (cs !! i) as [c'|] eqn:Hci; [|done].
      injection Hc as ->.
      eapply (Forall_lookup_1 _ _ i) in IH; [done|]. by rewrite list_lookup_fmap, Hci.
    + by apply lookup_replicate in Hc as [? _].
Qed.

Lemma shape_slots (P : key_node → Prop) h node :
  shape h node → Forall P (elems node) → P key_zero → Forall P (kNodes node).
Proof.
  intros Hsh HP H0.
  apply shape_inv in Hsh as (leaf & live & cs & -> & Hlen & Hk).
  assert (Forall P live) as Hlive.
  { destruct leaf.
    - by rewrite elems_mk_node in HP.
    - destruct Hk as (h' & -> & Hcs & _). rewrite elems_mk_node in HP by done.
      apply Forall_inter in HP as [_ ?]; [done|by rewrite length_fmap]. }
  replace (kNodes (mk_node leaf live cs)) with (padded MAX_KEYS key_zero live)
    by by destruct leaf.
  unfold padded. apply Forall_app. split; [done|]. by apply Forall_replicate.
Qed.

End slots.

Lemma filter_key_above k l :
  Forall (λ kv, k < kv.1)%Z l → filter (λ kn, key kn = k) (rep_of l) = [].
Proof.
  induction 1 as [|[k' vs] l Hk _ IH]; [done|]. simpl in *.
  rewrite filter_cons_False by (simpl; lia). done.
Qed.

(** The record of [k] before and after [(k, v)] is added; the records of the
    other keys stay. *)
Lemma key_record_add l k v :
  StronglySorted Z.lt l.*1 → Forall (λ kv, kv.2 ≠ []) l →
  ∃ vs,
    head (filter (λ kn, key kn = k) (rep_of l))
    = (if decide (vs = []) then None else Some (kn_of k vs)) ∧
    head (filter (λ kn, key kn = k) (rep_of (assoc_add k v l))) = Some (kn_of k (vs ++ [v])) ∧
    ∀ k', k' ≠ k →
      filter (λ kn, key kn = k') (rep_of (assoc_add k v l))
      = filter (λ kn, key kn = k') (rep_of l).
Proof.
  induction l as [|[k' vs'] l IH]; intros Hs Hne.
  - exists []. simpl. rewrite filter_cons_True by done. split; [done|]. split; [done|].
    intros k' Hk'. by rewrite filter_cons_False by done.
  - simpl in Hs. apply StronglySorted_cons in Hs as [Hk Hs].
    apply Forall_cons in Hne as [Hvs Hne]. simpl in Hvs. simpl assoc_add.
    destruct (Z.ltb_spec k k') as [Hlt|Hge].
    + exists []. simpl. split; [|split].
      * rewrite filter_cons_False by (simpl; lia).
        rewrite (filter_key_above k l); [done|].
        rewrite Forall_fmap in Hk. eapply Forall_impl; [exact Hk|]. simpl. intros; lia.
      * by rewrite filter_cons_True by done.
      * intros k'' Hk''. by rewrite filter_cons_False by done.
    + destruct (Z.eqb_spec k k') as [<-|Hneq].
      * exists vs'. rewrite decide_False by done. simpl.
        rewrite !filter_cons_True by done. split; [done|]. split; [done|].
        intros k' Hk'. by rewrite !filter_cons_False by done.
      * destruct (IH Hs Hne) as (vs & H1 & H2 & H3). exists vs. simpl.
        rewrite !filter_cons_False by (simpl; lia). split; [done|]. split; [done|].
        intros k'' Hk''. destruct (decide (k' = k'')) as [->|].
        -- rewrite !filter_cons_True by done. f_equal. by apply H3.
        -- rewrite !filter_cons_False by done. by apply H3.
Qed.

Lemma line_up_step n :
  (0 ≤ n)%Z →
  line_up (sizeof_value * (n + 1))
  = (line_up (sizeof_value * n)
     + if decide (line_up (sizeof_value * n) - sizeof_value * n < sizeof_value)%Z
       then LINE_SIZE else 0)%Z.
Proof.
  intros Hn. case_decide as Hd; revert Hd;
    unfold line_up, LINE_SIZE, sizeof_value; intros; Z.div_mod_to_equations; lia.
Qed.

Lemma alloc_bytes_kn_of k vs :
  alloc_bytes (kn_of k vs) = line_up (sizeof_value * Z.of_nat (length vs)).
Proof. by destruct vs. Qed.

(** * The properties of the specification *)

(** C7. For every node and every query key [k], the search within the node
    returns the first index [i] in [0, nKeys] such that [i = nKeys] or
    [k <= kNodes[i].key]: every record before [i] has a smaller key, the
    record at [i], if there is one, has a key at least [k]; so it returns
    [nKeys] exactly when every key of the node is less than [k].  (The keys
    need not even be increasing for this.)  The hypothesis says that the
    [nKeys] live records lie inside the array. *)
Theorem searchInNode_first_index (node : mm_node) (k : Z) :
  nKeys node ≤ length (kNodes node) →
  ∃ i, searchInNode node k = Done i 0 ∧ i ≤ nKeys node ∧
    (∀ j kn, j < i → kNodes node !! j = Some kn → (key kn < k)%Z) ∧
    (∀ kn, i < nKeys node → kNodes node !! i = Some kn → (k ≤ key kn)%Z) ∧
    (i = nKeys node ↔
     ∀ j kn, j < nKeys node → kNodes node !! j = Some kn → (key kn < k)%Z).
Proof.
  intros Hlen. set (live := take (nKeys node) (kNodes node)).
  assert (Hll : length live = nKeys node) by (unfold live; rewrite length_take; lia).
  assert (Hlive : ∀ j, j < nKeys node → live !! j = kNodes node !! j)
    by (intros j Hj; unfold live; by rewrite lookup_take_lt).
  pose proof (lower_bound_le k live) as Hle.
  exists (lower_bound k live). split; [by apply searchInNode_any|].
  split; [lia|]. split; [|split].
  - intros j kn Hj Hkn. apply (lower_bound_lt k live j); [done|].
    by rewrite Hlive by lia.
  - intros kn Hi Hkn. apply (lower_bound_ge k live). by rewrite Hlive.
  - split.
    + intros Heq j kn Hj Hkn. apply (lower_bound_lt k live j); [lia|].
      by rewrite Hlive.
    + intros Hall. destruct (decide (lower_bound k live = nKeys node)) as [|Hne]; [done|].
      destruct (lookup_lt_is_Some_2 live (lower_bound k live)) as [kn Hkn]; [lia|].
      pose proof (lower_bound_ge k live kn Hkn).
      rewrite Hlive in Hkn by lia.
      specialize (Hall (lower_bound k live) kn ltac:(lia) Hkn). lia.
Qed.

Lemma searchInNode_first_index_witness :
  let node := Node true 3 [KeyNode 1 0 None; KeyNode 3 0 None; KeyNode 5 0 None; key_zero]
                   [None; None; None; None; None] in
  ∃ i, searchInNode node 4 = Done i 0 ∧ i = 2.
Proof.
  intros node.
  destruct (searchInNode_first_index node 4) as (i & Hrun & _); [simpl; lia|].
  exists i. split; [exact Hrun|].
  vm_compute in Hrun. by injection Hrun as <-.
Defined.

Section split_property.
Context `{Fanout}.

(** C3. For every parent node that is not full and whose child at position
    [pos] is full, [splitNode (parent, pos)] takes [mid = MAX_KEYS / 2],
    moves the record [sep] at index [mid] of the elder child up to index
    [pos] of the parent, whose records and children from there on shift right
    by one and whose [nKeys] grows by one; puts at child [pos + 1] a new node
    with the elder's leaf flag that holds the elder's records after [mid]
    (hence [nKeys elder - mid - 1] of them) and, in an inner node, its
    children after [mid]; and cuts the elder to its first [mid] records (and
    [mid + 1] children), with zeroes in the slots that were moved out.
    The nodes are given by their live records and children ([mk_inner],
    [mk_node]: every unused slot is zero); one node is allocated. *)
Theorem splitNode_moves_middle_up (live : list key_node) (cs : list mm_node) (pos : nat)
    (leaf : bool) (elive : list key_node) (ecs : list mm_node) :
  1 ≤ MAX_KEYS →
  length live < MAX_KEYS → length cs = S (length live) →
  cs !! pos = Some (mk_node leaf elive ecs) →
  length elive = MAX_KEYS → (leaf = false → length ecs = S MAX_KEYS) →
  ∃ sep elder' younger,
    elive !! (MAX_KEYS / 2) = Some sep ∧
    elder' = mk_node leaf (take (MAX_KEYS / 2) elive) (take (S (MAX_KEYS / 2)) ecs) ∧
    younger = mk_node leaf (drop (S (MAX_KEYS / 2)) elive) (drop (S (MAX_KEYS / 2)) ecs) ∧
    splitNode (mk_inner live cs) pos
    = Done (mk_inner (take pos live ++ sep :: drop pos live)
                     (take pos cs ++ elder' :: younger :: drop (S pos) cs)) 1 ∧
    nKeys elder' = MAX_KEYS / 2 ∧
    nKeys younger = MAX_KEYS - MAX_KEYS / 2 - 1 ∧
    isLeaf younger = leaf ∧ isLeaf elder' = leaf.
Proof.
  intros Hmax Hn Hcs Hpos He Hecs.
  assert (Hmid : MAX_KEYS / 2 < length elive) by (rewrite He; apply Nat.div_lt; lia).
  destruct (lookup_lt_is_Some_2 elive _ Hmid) as [sep Hsep].
  eexists sep, _, _. split; [done|]. split; [done|]. split; [done|]. split.
  - rewrite <- He at 1 2 3 4. apply splitNode_mk; try done; try lia.
    + intros Hl. rewrite (Hecs Hl). lia.
    + by rewrite He.
  - rewrite !nKeys_mk_node, length_take, length_drop, He.
    split; [lia|]. split; [lia|]. by destruct leaf.
Qed.

End split_property.

Lemma splitNode_moves_middle_up_witness :
  let k (n : Z) := kn_of n [0%Z] in
  let elder := mk_node (H := 4) true [k 1; k 2; k 3; k 4]%Z [] in
  let other := mk_node (H := 4) true [k 8; k 9]%Z [] in
  splitNode (H := 4) (mk_inner (H := 4) [k 7%Z] [elder; other]) 0
  = Done (mk_inner (H := 4) [k 3; k 7]%Z
            [mk_node (H := 4) true [k 1; k 2]%Z [];
             mk_node (H := 4) true [k 4%Z] []; other]) 1.
Proof.
  intros k elder other.
  destruct (splitNode_moves_middle_up (H := 4) [k 7%Z] [elder; other] 0 true
              [k 1; k 2; k 3; k 4]%Z [])
    as (sep & e' & y & Hsep & -> & -> & Hrun & _);
    [unfold MAX_KEYS; lia|simpl; unfold MAX_KEYS; lia|reflexivity|reflexivity|reflexivity|done|].
  injection Hsep as <-. exact Hrun.
Defined.

Section lookup_properties.
Context `{Fanout}.

(** C4 (the code does otherwise). On an empty multimap, a lookup with
    [create_if_not_found] unset does not return "not found": [find_node]
    goes on to evaluate [&mm->root->kNodes[0]] through the null root, so
    [find_node], [mm_contains_key] and [mm_contains_pair] all end in a null
    dereference instead of returning [NULL] or false. *)
Theorem find_node_empty_nocreate (k v : Z) :
  find_node (Multimap None) k false = Fault NullDeref ∧
  mm_contains_key (Multimap None) k = Fault NullDeref ∧
  mm_contains_pair (Multimap None) k v = Fault NullDeref.
Proof. done. Qed.

(** C9. [mm_contains_key] and [mm_contains_pair] are read-only: on any
    multimap, whatever its nodes hold and however full they are, a call that
    returns hands back the very same tree and has not called the allocator;
    and on every multimap a session has built they do return, unless the
    multimap is empty (claim C4). *)
Theorem contains_read_only (mm : multimap) (k v : Z) :
  (∀ mm' b a, mm_contains_key mm k = Done (mm', b) a → mm' = mm ∧ a = 0) ∧
  (∀ mm' b a, mm_contains_pair mm k v = Done (mm', b) a → mm' = mm ∧ a = 0) ∧
  (1 ≤ MAX_KEYS → ∀ ops a, session ops = Done mm a → root mm ≠ None →
     ∃ b1 b2, mm_contains_key mm k = Done (mm, b1) 0 ∧
              mm_contains_pair mm k v = Done (mm, b2) 0).
Proof.
  split; [|split].
  - intros mm' b a. apply mm_contains_key_readonly.
  - intros mm' b a. apply mm_contains_pair_readonly.
  - intros Hmax ops a [Hrep _]%session_rep Hroot; [|done].
    assert (session_contents ops ≠ []) as Hne.
    { intros Hnil. destruct Hrep as (_ & _ & Hr). rewrite Hnil in Hr.
      destruct (root mm); [by destruct Hr|done]. }
    eexists _, _. split.
    + by apply mm_contains_key_ok.
    + by apply mm_contains_pair_ok.
Qed.

(** C10 (the code does otherwise). After every completed sequence of
    public operations, every key record stored in the tree has [nVals >= 1]
    and a non-null value buffer; and on a multimap that is not empty
    [mm_contains_key] returns, and returns true only for a key that some
    [mm_add_value] call of the session was given.  But on an empty multimap,
    before the first [mm_add_value] or after [clear_multimap], where no key
    is populated, [mm_contains_key] does not return false: [find_node] forms
    [&mm->root->kNodes[0]] through the null root (the defect of C4), an
    address that is not [NULL], which [mm_contains_key] reports as a key
    that is present. *)
Theorem records_are_populated (ops : list op) (mm : multimap) (a : nat) :
  1 ≤ MAX_KEYS → session ops = Done mm a →
  (∀ kn, kn ∈ tree_elems mm → (1 ≤ nVals kn)%Z ∧ values kn ≠ None) ∧
  (root mm ≠ None →
   ∀ k, ∃ b, mm_contains_key mm k = Done (mm, b) 0 ∧ (b = true → ∃ v, Add k v ∈ ops)) ∧
  (root mm = None → ∀ k, mm_contains_key mm k = Fault NullDeref).
Proof.
  intros Hmax [Hrep _]%session_rep; [|done]. split; [|split].
  - rewrite (mm_rep_tree_elems mm _ Hrep). destruct Hrep as (Hne & _).
    intros kn ([k vs] & -> & Hin)%list_elem_of_fmap.
    eapply Forall_forall in Hne; [|exact Hin]. simpl in *.
    destruct vs as [|v vs]; [done|]. split; [simpl; lia|done].
  - intros Hroot k.
    assert (session_contents ops ≠ []) as Hne.
    { intros Hnil. destruct Hrep as (_ & _ & Hr). rewrite Hnil in Hr.
      destruct (root mm); [by destruct Hr|done]. }
    eexists. split; [by apply mm_contains_key_ok|].
    intros Hk%bool_decide_eq_true.
    apply session_contents_keys in Hk as [Hk|?]; [|done].
    by apply elem_of_nil in Hk.
  - intros Hroot k. destruct mm as [r]. simpl in Hroot. by subst r.
Qed.

(** C2. After every sequence of public operations ([init_multimap], then
    any of [mm_add_value], [mm_contains_key], [mm_contains_pair],
    [clear_multimap]), every node of the tree has at most [MAX_KEYS] keys,
    its keys are strictly increasing, and, if it is not a leaf, its first
    [nKeys + 1] child slots hold a child and all others are null; and all
    leaves are at one depth. *)
Theorem nodes_are_well_formed (ops : list op) (mm : multimap) (a : nat) (r : mm_node) :
  1 ≤ MAX_KEYS → session ops = Done mm a → root mm = Some r →
  (∀ d node, at_depth d r node →
     nKeys node ≤ MAX_KEYS ∧
     sorted (take (nKeys node) (kNodes node)) ∧
     (isLeaf node = false →
        (∀ i, i ≤ nKeys node → ∃ c, kids node !! i = Some (Some c)) ∧
        (∀ i, nKeys node < i → i ≤ MAX_KEYS → kids node !! i = Some None))) ∧
  (∃ h, ∀ d node, at_depth d r node → isLeaf node = true → d = h).
Proof.
  intros Hmax [Hrep _]%session_rep Hroot; [|done].
  destruct (mm_rep_ok mm _ r Hrep Hroot) as (h & Hsh & Hs). split.
  - intros d node Hat.
    destruct (at_depth_shape h r d node Hsh Hs Hat) as (h' & -> & Hsh' & Hs').
    split; [by eapply shape_nKeys|]. split; [by eapply shape_live|].
    by eapply shape_kids.
  - exists h. intros d node Hat Hleaf.
    destruct (at_depth_shape h r d node Hsh Hs Hat) as (h' & -> & Hsh' & Hs').
    destruct h' as [|h']; [lia|].
    apply shape_S_inv in Hsh' as (? & ? & -> & _). done.
Qed.

(** C8 (the code does otherwise). [clear_multimap] leaves any multimap a
    session has built empty, and clearing the empty multimap again leaves it
    empty; the cleared multimap takes new pairs; but a traversal of the cleared multimap does not return having
    visited nothing: [mm_traverse] hands the null root to
    [mm_traverse_helper], which reads [node->nKeys]. *)
Theorem clear_then_traverse (ops : list op) (mm : multimap) (a : nat) :
  1 ≤ MAX_KEYS → session ops = Done mm a →
  clear_multimap mm = Done (Multimap None) 0 ∧
  clear_multimap (Multimap None) = Done (Multimap None) 0 ∧
  (∀ k v, ∃ mm' a', mm_add_value (Multimap None) k v = Done mm' a') ∧
  mm_traverse (Multimap None) = Visit [] (Some NullDeref).
Proof.
  intros Hmax [Hrep _]%session_rep; [|done].
  split; [by eapply clear_multimap_ok|]. split; [done|]. split; [|done].
  intros k v.
  destruct (mm_add_value_ok Hmax (Multimap None) [] k v) as (mm' & a' & Hrun & _);
    [apply mm_rep_empty|constructor|by exists mm', a'].
Qed.

End lookup_properties.

Section add_properties.
Context `{Fanout}.

(** C1. For every sequence [kvs] of [mm_add_value] calls on a new multimap:
    the calls all return (as long as there are at most [ADD_LIMIT] of them,
    so that no [int] overflows), and the pairs that a traversal then hands to
    the visitor are a rearrangement of [kvs], each added pair once and
    duplicates kept, hence as many as there were calls; they come in
    ascending key order, and the pairs of one key come in the order in which
    they were added.  When at least one pair was added the traversal runs to
    its end. *)
Theorem traverse_delivers_added (kvs : list (Z * Z)) :
  1 ≤ MAX_KEYS →
  ((Z.of_nat (length kvs) ≤ ADD_LIMIT)%Z → ∃ mm a, add_all kvs = Done mm a) ∧
  ∀ mm a, add_all kvs = Done mm a →
    delivered (mm_traverse mm) ≡ₚ kvs ∧
    length (delivered (mm_traverse mm)) = length kvs ∧
    key_ordered (delivered (mm_traverse mm)) ∧
    (∀ k, with_key k (delivered (mm_traverse mm)) = with_key k kvs) ∧
    (kvs ≠ [] → ended (mm_traverse mm) = None).
Proof.
  intros Hmax. split; [by apply add_all_total|].
  intros mm a Hrep%add_all_rep; [|done].
  assert (delivered (mm_traverse mm) = flatten (contents_of kvs) ∧
          (kvs ≠ [] → ended (mm_traverse mm) = None)) as [-> Hend].
  { destruct (decide (contents_of kvs = [])) as [Hnil|Hne].
    - rewrite Hnil in *. rewrite (mm_traverse_empty mm Hrep).
      split; [done|]. intros Hk. by apply contents_of_nil_inv in Hnil.
    - by rewrite (mm_traverse_ok mm _ Hrep Hne). }
  split; [apply flatten_contents_of|].
  split; [by rewrite flatten_contents_of|].
  split; [apply flatten_key_ordered, contents_of_sorted|].
  split; [intros k; apply with_key_contents_of|done].
Qed.

(** C5. For every sequence [kvs] of [mm_add_value] calls on a new multimap
    (which all return, as long as there are at most [ADD_LIMIT] of them) and
    every pair [(k, v)] of it, [mm_contains_key k] and
    [mm_contains_pair k v] then return true; and for a key [k] that was added
    and a value [v'] that was never added under [k],
    [mm_contains_pair k v'] returns false.  The calls leave the multimap as
    it is. *)
Theorem contains_after_adds (kvs : list (Z * Z)) :
  1 ≤ MAX_KEYS →
  ((Z.of_nat (length kvs) ≤ ADD_LIMIT)%Z → ∃ mm a, add_all kvs = Done mm a) ∧
  ∀ mm a, add_all kvs = Done mm a →
    (∀ k v, (k, v) ∈ kvs →
       mm_contains_key mm k = Done (mm, true) 0 ∧
       mm_contains_pair mm k v = Done (mm, true) 0) ∧
    (∀ k v', k ∈ kvs.*1 → (k, v') ∉ kvs →
       mm_contains_pair mm k v' = Done (mm, false) 0).
Proof.
  intros Hmax. split; [by apply add_all_total|].
  intros mm a Hrep%add_all_rep; [|done].
  assert (∀ p, p ∈ flatten (contents_of kvs) ↔ p ∈ kvs) as Hin
    by (intros p; by rewrite flatten_contents_of).
  assert (kvs ≠ [] → contents_of kvs ≠ []) as Hne
    by (intros Hk Hnil; by apply contents_of_nil_inv in Hnil).
  split.
  - intros k v Hkv.
    assert (contents_of kvs ≠ []) by (apply Hne; intros ->; by apply elem_of_nil in Hkv).
    rewrite (mm_contains_key_ok mm _ k), (mm_contains_pair_ok mm _ k v) by done.
    apply Hin in Hkv.
    rewrite !bool_decide_eq_true_2; [done|done|by eapply elem_of_flatten_fst].
  - intros k v' Hk Hkv.
    assert (contents_of kvs ≠ []) by (apply Hne; intros ->; by apply elem_of_nil in Hk).
    rewrite (mm_contains_pair_ok mm _ k v') by done.
    rewrite bool_decide_eq_false_2; [done|]. by rewrite Hin.
Qed.

(** C6 (amended). After every sequence of [mm_add_value] calls, in every
    slot of every node of the tree: a record with [nVals > 0] has a value
    buffer whose byte length is a positive whole multiple of [LINE_SIZE] and
    at least [nVals * sizeof (value)], namely the least such multiple; a
    record with [nVals = 0] has no buffer.  And every further
    [mm_add_value (k, v)] that returns adds one to the [nVals] of the record
    of [k], grows its buffer by exactly [LINE_SIZE] bytes when the least
    multiple of [LINE_SIZE] that is at least [nVals * sizeof (value)] leaves
    room for less than one value and not at all otherwise, so that the first
    value of a key gets [LINE_SIZE] bytes, and leaves the other records as
    they are. *)
Theorem value_buffer_sizing (kvs : list (Z * Z)) (mm : multimap) (a : nat) :
  1 ≤ MAX_KEYS → add_all kvs = Done mm a →
  (∀ r d node kn, root mm = Some r → at_depth d r node → kn ∈ kNodes node →
     (nVals kn = 0 → values kn = None) ∧
     (0 < nVals kn → ∃ b m,
        values kn = Some b ∧ 0 < m ∧ vb_bytes b = m * LINE_SIZE ∧
        nVals kn * sizeof_value ≤ vb_bytes b ∧
        vb_bytes b = line_up (sizeof_value * nVals kn)))%Z ∧
  (∀ k v mm' a', mm_add_value mm k v = Done mm' a' →
     nvals_of mm' k = nvals_of mm k + 1 ∧
     bytes_of mm' k
     = bytes_of mm k
       + (if decide (line_up (sizeof_value * nvals_of mm k)
                     - sizeof_value * nvals_of mm k < sizeof_value)
          then LINE_SIZE else 0) ∧
     (nvals_of mm k = 0 → bytes_of mm' k = LINE_SIZE) ∧
     (∀ k', k' ≠ k → key_record mm' k' = key_record mm k'))%Z.
Proof.
  intros Hmax Hrun. unfold add_all in Hrun.
  apply session_rep in Hrun as [Hrep Hwithin]; [|done].
  rewrite session_contents_adds in Hrep, Hwithin.
  set (l := contents_of kvs) in *. split.
  - intros r d node kn Hroot Hat Hkn.
    destruct (mm_rep_ok mm l r Hrep Hroot) as (h & Hsh & Hs).
    pose (P := λ kn : key_node, ∃ k vs, kn = kn_of k vs).
    assert (Forall P (elems r)) as HP.
    { pose proof (mm_rep_tree_elems mm l Hrep) as Hel. unfold tree_elems in Hel.
      rewrite Hroot in Hel. rewrite Hel. unfold rep_of. apply Forall_fmap, Forall_true.
      intros [k vs]. by exists k, vs. }
    destruct (at_depth_shape h r d node Hsh Hs Hat) as (h' & _ & Hsh' & _).
    pose proof (at_depth_Forall P h r d node Hsh Hs HP Hat) as HPn.
    apply (shape_slots P h' node Hsh') in HPn; [|by exists 0%Z, []].
    eapply Forall_forall in HPn as (k & vs & ->); [|exact Hkn].
    destruct vs as [|v0 vs]; [by split|]. split; [done|]. intros _.
    cbn [values nVals kn_of buf_of]. unfold buf_bytes.
    assert (0 < Z.of_nat (length (v0 :: vs)))%Z as Hpos by (simpl; lia).
    revert Hpos. generalize (Z.of_nat (length (v0 :: vs))). intros n Hpos.
    eexists _, ((sizeof_value * n + LINE_SIZE - 1) `div` LINE_SIZE)%Z.
    split; [done|]. cbn [vb_bytes].
    unfold line_up, LINE_SIZE, sizeof_value.
    split; [Z.div_mod_to_equations; lia|]. split; [lia|]. split; [|done].
    Z.div_mod_to_equations; lia.
  - intros k v mm' a' Hadd.
    destruct (mm_add_value_inv Hmax mm l k v mm' a' Hrep Hwithin Hadd) as [Hrep' _].
    unfold nvals_of, bytes_of, key_record.
    rewrite (mm_rep_tree_elems mm l Hrep), (mm_rep_tree_elems mm' _ Hrep').
    destruct (key_record_add l k v) as (vs & Hold & Hnew & Hothers).
    { apply contents_of_sorted. }
    { by destruct Hrep. }
    rewrite Hold, Hnew. cbn [from_option].
    assert (from_option nVals 0%Z (if decide (vs = []) then None else Some (kn_of k vs))
            = Z.of_nat (length vs)) as -> by (by destruct vs).
    assert (from_option alloc_bytes 0%Z (if decide (vs = []) then None else Some (kn_of k vs))
            = line_up (sizeof_value * Z.of_nat (length vs))) as ->.
    { destruct vs; [done|]. rewrite decide_False by done. apply alloc_bytes_kn_of. }
    rewrite alloc_bytes_kn_of. cbn [nVals kn_of]. rewrite length_app. cbn [length].
    replace (Z.of_nat (length vs + 1)) with (Z.of_nat (length vs) + 1)%Z by lia.
    split; [done|]. split; [apply line_up_step; lia|].
    split; [by intros ->|].
    intros k' Hk'. by rewrite Hothers.
Qed.

End add_properties.

(** ** Instances at [MAX_KEYS = 4] *)

Lemma and_then (P Q : Prop) : P → (P → Q) → P ∧ Q.
Proof. intros p f. exact (conj p (f p)). Defined.

Lemma contains_read_only_witness :
  ∃ mm a,
    session (H := 4) ((λ k, Add k (10 * k)) <$> [1; 2; 3; 4; 5])%Z = Done mm a ∧
    ∃ b1 b2, mm_contains_key (H := 4) mm 3 = Done (mm, b1) 0 ∧
             mm_contains_pair (H := 4) mm 3 9 = Done (mm, b2) 0.
Proof.
  eexists _, _. apply and_then.
  - vm_compute. reflexivity.
  - intros Hrun.
    match type of Hrun with
    | _ = Done ?m _ => destruct (contains_read_only (H := 4) m 3 9) as (_ & _ & Hret)
    end.
    apply (Hret ltac:(unfold MAX_KEYS; lia) _ _ Hrun). by vm_compute.
Defined.

Lemma records_are_populated_witness :
  ∃ mm a,
    session (H := 4) [Add 1 10; Clear]%Z = Done mm a ∧
    (∀ kn, kn ∈ tree_elems mm → (1 ≤ nVals kn)%Z ∧ values kn ≠ None) ∧
    mm_contains_key (H := 4) mm 7 = Fault NullDeref.
Proof.
  eexists _, _. apply and_then.
  - vm_compute. reflexivity.
  - intros Hrun.
    destruct (records_are_populated (H := 4) _ _ _ ltac:(unfold MAX_KEYS; lia) Hrun)
      as (Hrecords & _ & Hempty).
    split; [exact Hrecords|]. apply Hempty. reflexivity.
Defined.

Lemma nodes_are_well_formed_witness :
  ∃ mm a r,
    session (H := 4) ((λ k, Add k (10 * k)) <$> [1; 2; 3; 4; 5])%Z = Done mm a ∧
    root mm = Some r ∧ nKeys r ≤ 4 ∧
    ∃ h, ∀ d node, at_depth d r node → isLeaf node = true → d = h.
Proof.
  eexists _, _, _. apply and_then.
  - vm_compute. reflexivity.
  - intros Hrun. apply and_then.
    + reflexivity.
    + intros Hroot.
      destruct (nodes_are_well_formed (H := 4) _ _ _ _
                  ltac:(unfold MAX_KEYS; lia) Hrun Hroot) as [Hall Hh].
      split; [|exact Hh]. apply (Hall 0 _ (at_root _)).
Defined.

Lemma clear_then_traverse_witness :
  ∃ mm a,
    session (H := 4) ((λ k, Add k (10 * k)) <$> [1; 2; 3; 4; 5])%Z = Done mm a ∧
    clear_multimap mm = Done (Multimap None) 0 ∧
    mm_traverse (Multimap None) = Visit [] (Some NullDeref).
Proof.
  eexists _, _. apply and_then.
  - vm_compute. reflexivity.
  - intros Hrun.
    destruct (clear_then_traverse (H := 4) _ _ _ ltac:(unfold MAX_KEYS; lia) Hrun)
      as (Hclear & _ & _ & Htrav).
    split; [exact Hclear|exact Htrav].
Defined.

Lemma traverse_delivers_added_witness :
  let kvs := [(5, 1); (3, 2); (5, 3); (3, 2); (9, 0)]%Z in
  ∃ mm a, add_all (H := 4) kvs = Done mm a ∧
    delivered (mm_traverse mm) ≡ₚ kvs ∧ key_ordered (delivered (mm_traverse mm)) ∧
    with_key 5 (delivered (mm_traverse mm)) = [(5, 1); (5, 3)]%Z.
Proof.
  intros kvs.
  destruct (traverse_delivers_added (H := 4) kvs ltac:(unfold MAX_KEYS; lia))
    as [Htotal Hout].
  destruct Htotal as (mm & a & Hrun); [by vm_compute|].
  destruct (Hout mm a Hrun) as (Hperm & _ & Hord & Hkey & _).
  exists mm, a. split; [exact Hrun|]. split; [exact Hperm|]. split; [exact Hord|].
  rewrite Hkey. reflexivity.
Defined.

Lemma contains_after_adds_witness :
  let kvs := [(5, 1); (3, 2); (5, 3); (3, 2); (9, 0)]%Z in
  ∃ mm a, add_all (H := 4) kvs = Done mm a ∧
    mm_contains_key (H := 4) mm 5 = Done (mm, true) 0 ∧
    mm_contains_pair (H := 4) mm 5 3 = Done (mm, true) 0 ∧
    mm_contains_pair (H := 4) mm 5 4 = Done (mm, false) 0.
Proof.
  intros kvs.
  destruct (contains_after_adds (H := 4) kvs ltac:(unfold MAX_KEYS; lia))
    as [Htotal Hout].
  destruct Htotal as (mm & a & Hrun); [by vm_compute|].
  destruct (Hout mm a Hrun) as [Hyes Hno].
  exists mm, a. split; [exact Hrun|].
  destruct (Hyes 5 3)%Z as [Hk Hp]; [unfold kvs; apply (bool_decide_unpack _); vm_compute; exact I|].
  split; [exact Hk|]. split; [exact Hp|].
  apply Hno; unfold kvs; apply (bool_decide_unpack _); vm_compute; exact I.
Defined.

(** Sixteen values fill their buffer of [LINE_SIZE] bytes to the last
    byte: the buffer is not strictly larger than [nVals * sizeof (value)]. *)
Lemma buffer_exactly_full :
  ∃ mm a kn b,
    add_all (H := 4) (replicate 16 (7, 1)%Z) = Done mm a ∧
    kn ∈ tree_elems mm ∧ (0 < nVals kn)%Z ∧ values kn = Some b ∧
    vb_bytes b = LINE_SIZE ∧ (nVals kn * sizeof_value)%Z = LINE_SIZE ∧
    ¬ (nVals kn * sizeof_value < vb_bytes b)%Z.
Proof.
  eexists _, _, _, _. split; [vm_compute; reflexivity|].
  split; [apply list_elem_of_here|]. split; [done|]. split; [reflexivity|].
  split; [reflexivity|]. split; [reflexivity|]. by vm_compute.
Qed.

Lemma value_buffer_sizing_witness :
  ∃ mm a mm' a',
    add_all (H := 4) (replicate 16 (7, 1)%Z) = Done mm a ∧
    mm_add_value (H := 4) mm 7 2 = Done mm' a' ∧
    nvals_of (H := 4) mm' 7 = 17%Z ∧ bytes_of (H := 4) mm' 7 = (2 * LINE_SIZE)%Z.
Proof.
  eexists _, _, _, _. apply and_then.
  - vm_compute. reflexivity.
  - intros Hrun. apply and_then.
    + vm_compute. reflexivity.
    + intros Hadd.
      destruct (value_buffer_sizing (H := 4) _ _ _ ltac:(unfold MAX_KEYS; lia) Hrun)
        as [_ Hstep].
      destruct (Hstep _ _ _ _ Hadd) as (Hn & Hb & _).
      split; [etrans; [exact Hn|]|etrans; [exact Hb|]]; vm_compute; reflexivity.
Defined.

(** ** Sessions with lookups and clears *)

Lemma live_adds_contents_from acc ops :
  foldl (λ l o, op_contents o l) (contents_of acc) ops
  = contents_of (foldl (λ acc o, match o with
                                 | Add k v => acc ++ [(k, v)]
                                 | Clear => []
                                 | ContainsKey _ | ContainsPair _ _ => acc
                                 end) acc ops).
Proof.
  revert acc. induction ops as [|o ops IH]; intros acc; [done|].
  destruct o as [k v|k|k v|]; cbn [foldl op_contents].
  - by rewrite <- contents_of_snoc, IH.
  - apply IH.
  - apply IH.
  - apply (IH []).
Qed.

Lemma session_contents_live ops : session_contents ops = contents_of (live_adds ops).
Proof. apply (live_adds_contents_from []). Qed.

(** ** Pairs in key order are determined by the pairs of each key *)

Lemma with_key_cons_same k v kvs : with_key k ((k, v) :: kvs) = (k, v) :: with_key k kvs.
Proof. unfold with_key. by rewrite filter_cons_True. Qed.

Lemma with_key_cons_other k k' v kvs : k' ≠ k → with_key k ((k', v) :: kvs) = with_key k kvs.
Proof. intros. unfold with_key. by rewrite filter_cons_False. Qed.

Lemma with_key_elem k p kvs : p ∈ with_key k kvs ↔ p ∈ kvs ∧ p.1 = k.
Proof. unfold with_key. rewrite list_elem_of_filter. tauto. Qed.

Lemma key_ordered_cons p kvs :
  key_ordered (p :: kvs) ↔ Forall (λ q, p.1 ≤ q.1)%Z kvs ∧ key_ordered kvs.
Proof. unfold key_ordered. by rewrite StronglySorted_cons. Qed.

Lemma key_ordered_unique l1 l2 :
  key_ordered l1 → key_ordered l2 →
  (∀ k, with_key k l1 = with_key k l2) → l1 = l2.
Proof.
  revert l2. induction l1 as [|[k v] l1 IH]; intros l2 H1 H2 Heq.
  - destruct l2 as [|[k2 v2] l2]; [done|].
    specialize (Heq k2). by rewrite with_key_cons_same in Heq.
  - apply key_ordered_cons in H1 as [Hk H1]. simpl in Hk.
    destruct l2 as [|[k2 v2] l2].
    { specialize (Heq k). by rewrite with_key_cons_same in Heq. }
    apply key_ordered_cons in H2 as [Hk2 H2]. simpl in Hk2.
    assert (k2 = k) as ->.
    { assert ((k, v) ∈ (k2, v2) :: l2) as Hin.
      { apply (with_key_elem k). rewrite <- Heq, with_key_cons_same. by left. }
      assert ((k2, v2) ∈ (k, v) :: l1) as Hin2.
      { apply (with_key_elem k2). rewrite Heq, with_key_cons_same. by left. }
      apply elem_of_cons in Hin as [[= -> ->]|Hin]; [done|].
      apply elem_of_cons in Hin2 as [[= -> ->]|Hin2]; [done|].
      eapply Forall_forall in Hk; [|exact Hin2].
      eapply Forall_forall in Hk2; [|exact Hin]. simpl in *. lia. }
    pose proof (Heq k) as Hh. rewrite !with_key_cons_same in Hh.
    injection Hh as -> Hh. f_equal. apply IH; [done|done|].
    intros k'. destruct (decide (k' = k)) as [->|Hne]; [done|].
    specialize (Heq k'). by rewrite !with_key_cons_other in Heq by done.
Qed.

(** ** Records between the children of a node *)

Lemma elem_of_inter {A} (es : list (list A)) (ks : list A) i e x :
  length es ≤ S (length ks) → es !! i = Some e → x ∈ e → x ∈ inter es ks.
Proof.
  revert ks i. induction es as [|e0 es IH]; intros ks i Hlen He Hx; [done|].
  destruct i as [|i]; simpl in *.
  - injection He as ->. apply elem_of_app. by left.
  - destruct ks as [|k ks]; simpl in *.
    + apply lookup_lt_Some in He. lia.
    + apply elem_of_app. right. right. apply (IH ks i); [lia|done|done].
Qed.

Lemma sorted_inter_sep (es : list (list key_node)) (ks : list key_node) i e x j sep :
  length es = S (length ks) → sorted (inter es ks) →
  es !! i = Some e → x ∈ e → ks !! j = Some sep →
  (j < i → (key sep < key x)%Z) ∧ (i ≤ j → (key x < key sep)%Z).
Proof.
  intros Hlen Hs He Hx Hsep.
  assert (j < length ks) by by eapply lookup_lt_Some.
  assert (i < length es) by by eapply lookup_lt_Some.
  rewrite (inter_at_key es ks j sep) in Hs by done.
  apply sorted_middle in Hs as [Hbefore Hafter]. split; intros Hij.
  - eapply Forall_forall in Hafter; [exact Hafter|].
    apply (elem_of_inter _ _ (i - S j) e); [rewrite !length_drop; lia| |done].
    rewrite lookup_drop. by replace (S j + (i - S j)) with i by lia.
  - eapply Forall_forall in Hbefore; [exact Hbefore|].
    apply (elem_of_inter _ _ i e); [rewrite !length_take; lia| |done].
    by rewrite lookup_take_lt by lia.
Qed.

(** ** Nodes below a node *)

Lemma at_depth_trans d1 d2 r c node :
  at_depth d1 r c → at_depth d2 c node → at_depth (d2 + d1) r node.
Proof.
  intros H1 H2. revert H1. induction H2 as [c|d c node i c' Hat IH Hleaf Hi Hc]; intros H1.
  - done.
  - simpl. eapply at_child; [by apply IH|done..].
Qed.

Lemma at_depth_child r i c :
  isLeaf r = false → i ≤ nKeys r → kids r !! i = Some (Some c) → at_depth 1 r c.
Proof. intros. eapply at_child; [apply at_root|done..]. Qed.

Lemma at_depth_S_inv d r node :
  at_depth (S d) r node →
  ∃ i c, isLeaf r = false ∧ i ≤ nKeys r ∧ kids r !! i = Some (Some c) ∧ at_depth d c node.
Proof.
  revert node. induction d as [|d IH]; intros node Hat.
  - inversion Hat as [|d' r' n' i c Hat' Hleaf Hi Hc]; subst.
    inversion Hat'; subst. exists i, node. split; [done|]. split; [done|].
    split; [done|apply at_root].
  - inversion Hat as [|d' r' n' i c Hat' Hleaf Hi Hc]; subst.
    destruct (IH _ Hat') as (i0 & c0 & Hl0 & Hi0 & Hc0 & Hat0).
    exists i0, c0. split; [done|]. split; [done|]. split; [done|].
    by eapply at_child.
Qed.

(** [filled] node by node. *)
Lemma filled_children m r :
  filled m r ↔
  (isLeaf r = false → ∀ i c, i ≤ nKeys r → kids r !! i = Some (Some c) →
     m ≤ nKeys c ∧ filled m c).
Proof.
  split.
  - intros Hf Hleaf i c Hi Hc.
    pose proof (at_depth_child r i c Hleaf Hi Hc) as Hat. split.
    + by apply (Hf 0).
    + intros d node Hd. apply (Hf (S d)).
      replace (S (S d)) with (S d + 1) by lia. by eapply at_depth_trans.
  - intros Hch d node Hat.
    apply at_depth_S_inv in Hat as (i & c & Hleaf & Hi & Hc & Hat).
    destruct (Hch Hleaf i c Hi Hc) as [Hn Hfc].
    destruct d as [|d]; [by inversion Hat; subst|].
    by apply (Hfc d).
Qed.

Section census.
Context `{Fanout}.
Implicit Types (live : list key_node) (cs : list mm_node) (node c r : mm_node).

Lemma node_count_mk_leaf live : node_count (mk_leaf live) = 1.
Proof. done. Qed.

Lemma node_count_mk_inner live cs :
  length cs = S (length live) →
  node_count (mk_inner live cs) = S (sum_list (node_count <$> cs)).
Proof.
  intros Hlen. simpl. do 2 f_equal.
  unfold padded. rewrite map_app, take_app_length'.
  - by rewrite <- list_fmap_compose.
  - by rewrite !length_map.
Qed.

Lemma filled_mk_leaf m live : filled m (mk_leaf live).
Proof. apply filled_children. done. Qed.

Lemma filled_mk_inner m live cs :
  length cs = S (length live) → length live ≤ MAX_KEYS →
  filled m (mk_inner live cs) ↔ Forall (λ c, m ≤ nKeys c ∧ filled m c) cs.
Proof.
  intros Hcs Hlen. rewrite filled_children. cbn [isLeaf nKeys kids mk_inner]. split.
  - intros Hch. apply Forall_lookup. intros i c Hc.
    assert (i < length cs) by by eapply lookup_lt_Some.
    apply (Hch eq_refl i c); [lia|].
    rewrite lookup_padded_lt by (rewrite length_fmap; lia).
    by rewrite list_lookup_fmap, Hc.
  - intros Hall _ i c Hi Hc.
    rewrite lookup_padded_lt in Hc by (rewrite length_fmap; lia).
    rewrite list_lookup_fmap in Hc. destruct (cs !! i) as [c'|] eqn:Hci; [|done].
    injection Hc as ->. exact (Forall_lookup_1 _ _ i _ Hall Hci).
Qed.

Lemma filled_mk_node m leaf live cs :
  (leaf = false → length cs = S (length live)) → length live ≤ MAX_KEYS →
  filled m (mk_node leaf live cs) ↔
  (leaf = false → Forall (λ c, m ≤ nKeys c ∧ filled m c) cs).
Proof.
  intros Hcs Hlen. destruct leaf; unfold mk_node.
  - split; [done|]. intros _. apply filled_mk_leaf.
  - rewrite filled_mk_inner by auto. tauto.
Qed.

Lemma node_count_mk_node leaf live cs :
  (leaf = false → length cs = S (length live)) →
  node_count (mk_node leaf live cs) = if leaf then 1 else S (sum_list (node_count <$> cs)).
Proof. destruct leaf; intros Hcs; [done|]. by apply node_count_mk_inner, Hcs. Qed.

Lemma sum_list_insert (l : list nat) i x y :
  l !! i = Some x → sum_list (<[i := y]> l) + x = sum_list l + y.
Proof.
  revert i. induction l as [|z l IH]; intros [|i] Hx; simplify_eq/=; [lia|].
  specialize (IH i Hx). lia.
Qed.

Lemma sum_list_take_drop (l : list nat) n : sum_list (take n l) + sum_list (drop n l) = sum_list l.
Proof. rewrite <- (take_drop n l) at 3. by rewrite sum_list_with_app. Qed.

End census.

(** ** What a split does to the census *)

Section split_census.
Context `{Fanout}.
Implicit Types (live : list key_node) (cs : list mm_node) (node c r : mm_node).

Lemma splitNode_census h live cs pos elder :
  length live < MAX_KEYS → length cs = S (length live) →
  cs !! pos = Some elder → shape h elder → 1 ≤ nKeys elder →
  ∃ sep e y,
    splitNode (mk_inner live cs) pos
    = Done (mk_inner (take pos live ++ sep :: drop pos live)
                     (take pos cs ++ e :: y :: drop (S pos) cs)) 1 ∧
    shape h e ∧ shape h y ∧
    nKeys e = nKeys elder / 2 ∧ nKeys y = nKeys elder - (nKeys elder / 2 + 1) ∧
    elems elder = elems e ++ sep :: elems y ∧
    node_count e + node_count y = S (node_count elder) ∧
    ∀ m, filled m elder → filled m e ∧ filled m y.
Proof.
  intros Hn Hcs Hpos Hsh Hne.
  apply shape_inv in Hsh as (leaf & elive & ecs & -> & Hlen & Hkids).
  rewrite nKeys_mk_node in *.
  assert (Hmid : length elive / 2 < length elive) by (apply Nat.div_lt; lia).
  destruct (lookup_lt_is_Some_2 elive _ Hmid) as [sep Hsep].
  set (mid := length elive / 2) in *.
  assert (Hecs : leaf = false → length ecs = S (length elive)).
  { intros ->. by destruct Hkids as (? & _ & ? & _). }
  assert (He : leaf = false → length (take (S mid) ecs) = S (length (take mid elive))).
  { intros Hl. rewrite !length_take, (Hecs Hl). lia. }
  assert (Hy : leaf = false → length (drop (S mid) ecs) = S (length (drop (S mid) elive))).
  { intros Hl. rewrite !length_drop, (Hecs Hl). lia. }
  exists sep, (mk_node leaf (take mid elive) (take (S mid) ecs)),
    (mk_node leaf (drop (S mid) elive) (drop (S mid) ecs)).
  split; [|split; [|split; [|split; [|split; [|split; [|split]]]]]].
  - by apply splitNode_mk.
  - apply shape_mk_node; [rewrite length_take; lia|].
    destruct leaf; [done|]. destruct Hkids as (h' & -> & Hl & Hall).
    exists h'. split; [done|]. split; [by apply He|by apply Forall_take].
  - apply shape_mk_node; [rewrite length_drop; lia|].
    destruct leaf; [done|]. destruct Hkids as (h' & -> & Hl & Hall).
    exists h'. split; [done|]. split; [by apply Hy|by apply Forall_drop].
  - rewrite nKeys_mk_node, length_take. lia.
  - rewrite nKeys_mk_node, length_drop. lia.
  - rewrite !elems_mk_node by done.
    destruct leaf.
    + by rewrite take_drop_middle.
    + rewrite fmap_take, fmap_drop.
      apply inter_at_key; [rewrite length_fmap; by apply Hecs|done].
  - rewrite !node_count_mk_node by done. destruct leaf; [done|].
    rewrite fmap_take, fmap_drop.
    pose proof (sum_list_take_drop (node_count <$> ecs) (S mid)). lia.
  - intros m.
    rewrite (filled_mk_node m leaf elive ecs) by (done || lia).
    rewrite (filled_mk_node m leaf (take mid elive)) by (done || (rewrite length_take; lia)).
    rewrite (filled_mk_node m leaf (drop (S mid) elive)) by (done || (rewrite length_drop; lia)).
    intros Hf. split; intros Hl; specialize (Hf Hl).
    + by apply Forall_take.
    + by apply Forall_drop.
Qed.

End split_census.

(** ** The census of a find-or-create *)

Section sai_census.
Context `{Fanout}.
Variable m : nat.
Hypothesis m_half : m ≤ (MAX_KEYS - 1) / 2.
Implicit Types (live : list key_node) (cs : list mm_node) (node c r : mm_node).

Lemma half_bounds : 1 ≤ MAX_KEYS → m ≤ MAX_KEYS / 2 ∧ m ≤ MAX_KEYS - (MAX_KEYS / 2 + 1).
Proof.
  intros Hmax. revert m_half. generalize m. intros m'.
  pose proof (Nat.div_mod_eq MAX_KEYS 2). pose proof (Nat.div_mod_eq (MAX_KEYS - 1) 2).
  pose proof (Nat.mod_upper_bound MAX_KEYS 2). pose proof (Nat.mod_upper_bound (MAX_KEYS - 1) 2).
  lia.
Qed.

Lemma grown_found h leaf live cs k fuel node' p a :
  shape h (mk_node leaf live cs) → found_at k live = true →
  searchAndInsert_fuel (S fuel) (mk_node leaf live cs) k true = Done (node', p) a →
  grown m h (mk_node leaf live cs) node' p a.
Proof.
  intros Hsh Hf Hrun.
  assert (Hlen : length live ≤ MAX_KEYS).
  { apply shape_nKeys in Hsh. by rewrite nKeys_mk_node in Hsh. }
  rewrite (sai_found fuel leaf live cs k true) in Hrun by done.
  injection Hrun as <- <- <-.
  split; [done|]. split; [lia|]. split; [done|]. split; [done|].
  eexists _, _. split; [done|]. apply ptr_here. rewrite nKeys_mk_node.
  apply found_at_true in Hf as (kn & Hkn & _). by eapply lookup_lt_Some.
Qed.

Lemma sai_census_ready h fuel live cs k node' p a :
  (∀ fuel c k c' p a, shape h c → nKeys c < MAX_KEYS →
     searchAndInsert_fuel fuel c k true = Done (c', p) a → grown m h c c' p a) →
  length live ≤ MAX_KEYS → length cs = S (length live) → Forall (shape h) cs →
  (∀ c, cs !! lower_bound k live = Some c → nKeys c < MAX_KEYS) →
  searchAndInsert_fuel fuel (mk_inner live cs) k true = Done (node', p) a →
  grown m (S h) (mk_inner live cs) node' p a.
Proof.
  intros IH Hlen Hcs Hall Hroom Hrun.
  destruct fuel as [|fuel]; [done|].
  destruct (found_at k live) eqn:Hf.
  { apply (grown_found (S h) false live cs k fuel); [by constructor|done|done]. }
  pose proof (lower_bound_le k live) as Hpos.
  destruct (lookup_lt_is_Some_2 cs (lower_bound k live)) as [c Hc]; [lia|].
  specialize (Hroom c Hc).
  rewrite (sai_descend fuel live cs k true c) in Hrun by (done || lia).
  apply bind_Done_inv in Hrun as ([c' pc] & n1 & n2 & Hrunc & Hrest & ->).
  injection Hrest as <- <- <-.
  assert (Hshc : shape h c) by by eapply Forall_lookup_1.
  destruct (IH fuel c k c' pc n1 Hshc Hroom Hrunc)
    as (Hshc' & Hcount & Hkeys & Hfill & path & slot & -> & Hptr).
  assert (Hc' : <[lower_bound k live := c']> cs !! lower_bound k live = Some c')
    by (apply list_lookup_insert_eq; lia).
  split; [|split; [|split; [|split]]].
  - constructor; [done|by rewrite length_insert|by apply Forall_insert].
  - rewrite !node_count_mk_inner by (by rewrite ?length_insert).
    rewrite list_fmap_insert.
    pose proof (sum_list_insert (node_count <$> cs) (lower_bound k live)
                  (node_count c) (node_count c')) as Hsum.
    rewrite list_lookup_fmap, Hc in Hsum. specialize (Hsum eq_refl). lia.
  - done.
  - rewrite !filled_mk_inner by (by rewrite ?length_insert).
    intros Hf0. apply Forall_insert; [done|].
    eapply (Forall_lookup_1 _ _ _ _ Hf0) in Hc as [Hmc Hfc]. split; [lia|auto].
  - eexists _, _. split; [done|].
    eapply ptr_down; [done|simpl; lia| |done].
    apply kids_inner_lookup; [rewrite length_insert; lia|done].
Qed.

Hypothesis MAX_KEYS_pos : 1 ≤ MAX_KEYS.

Lemma sai_census h fuel node k node' p a :
  shape h node → nKeys node < MAX_KEYS →
  searchAndInsert_fuel fuel node k true = Done (node', p) a →
  grown m h node node' p a.
Proof.
  revert fuel node k node' p a.
  induction h as [|h IH]; intros fuel node k node' p a Hsh Hn Hrun.
  - apply shape_0_inv in Hsh as (live & -> & Hlen). simpl in Hn.
    destruct fuel as [|fuel]; [done|].
    destruct (found_at k live) eqn:Hf.
    { apply (grown_found 0 true live [] k fuel); [by constructor|done|done]. }
    rewrite sai_leaf_create in Hrun by done. injection Hrun as <- <- <-.
    pose proof (lower_bound_le k live) as Hpos.
    split; [|split; [|split; [|split]]].
    + constructor. len.
    + by rewrite !node_count_mk_leaf.
    + simpl. len.
    + intros _. apply filled_mk_leaf.
    + eexists _, _. split; [done|]. apply ptr_here. simpl. len.
  - apply shape_S_inv in Hsh as (live & cs & -> & Hlen & Hcs & Hall). simpl in Hn.
    destruct fuel as [|fuel]; [done|].
    destruct (found_at k live) eqn:Hf.
    { apply (grown_found (S h) false live cs k fuel); [by constructor|done|done]. }
    pose proof (lower_bound_le k live) as Hpos.
    destruct (lookup_lt_is_Some_2 cs (lower_bound k live)) as [c Hc]; [lia|].
    assert (Hshc : shape h c) by by eapply Forall_lookup_1.
    destruct (decide (nKeys c = MAX_KEYS)) as [Hfull|Hroom].
    + destruct (splitNode_census h live cs _ c Hn Hcs Hc Hshc ltac:(lia))
        as (sep & e & y & Hsplit & Hshe & Hshy & Hne & Hny & Hel & Hcount & Hfill).
      rewrite Hfull in Hne, Hny.
      destruct (half_bounds MAX_KEYS_pos) as [Hm1 Hm2].
      set (live1 := take (lower_bound k live) live ++ sep :: drop (lower_bound k live) live) in *.
      set (cs1 := take (lower_bound k live) cs ++ e :: y :: drop (S (lower_bound k live)) cs) in *.
      assert (Hlen1 : length live1 = S (length live)) by (unfold live1; len).
      assert (Hcs1 : length cs1 = S (length live1)) by (unfold cs1; len).
      assert (Hall1 : Forall (shape h) cs1).
      { unfold cs1. apply Forall_app. split; [by apply Forall_take|].
        do 2 (constructor; [done|]). by apply Forall_drop. }
      rewrite (sai_split fuel live cs k c) in Hrun by (done || lia).
      rewrite Hsplit in Hrun.
      apply bind_Done_inv in Hrun as (node1 & n1 & n2 & [= <- <-] & Hrun & ->).
      apply (sai_census_ready h) in Hrun; [|done|lia|done|done|].
      2:{ intros c0. unfold live1. rewrite lower_bound_split. unfold cs1.
          assert (length (take (lower_bound k live) cs) = lower_bound k live) by len.
          assert (MAX_KEYS / 2 < MAX_KEYS) by (apply Nat.div_lt; lia).
          destruct (k <=? key sep)%Z.
          - rewrite lookup_app_r by lia.
            replace (lower_bound k live - length (take (lower_bound k live) cs)) with 0 by lia.
            intros [= <-]. lia.
          - rewrite lookup_app_r by lia.
            replace (S (lower_bound k live) - length (take (lower_bound k live) cs)) with 1 by lia.
            intros [= <-]. lia. }
      destruct Hrun as (Hsh' & Hcount' & Hkeys' & Hfill' & Hptr).
      split; [done|]. split; [|split; [|split; [|done]]].
      * rewrite Hcount'. rewrite !node_count_mk_inner by done.
        unfold cs1. rewrite !fmap_app, !fmap_cons, !sum_list_with_app. cbn [sum_list_with id].
        rewrite <- (take_drop_middle cs _ c Hc) at 3.
        rewrite !fmap_app, !fmap_cons, !sum_list_with_app. cbn [sum_list_with id].
        rewrite fmap_take, fmap_drop in *. lia.
      * simpl in *. lia.
      * intros Hf0. apply Hfill'.
        rewrite filled_mk_inner in Hf0 by done.
        rewrite filled_mk_inner by (done || lia).
        pose proof (Forall_lookup_1 _ _ _ _ Hf0 Hc) as [_ Hfc].
        destruct (Hfill m Hfc) as [Hfe Hfy].
        unfold cs1. apply Forall_app. split; [by apply Forall_take|].
        constructor; [split; [lia|done]|].
        constructor; [split; [lia|done]|]. by apply Forall_drop.
    + apply (sai_census_ready h (S fuel) live cs k); try done.
      intros c0. rewrite Hc. intros [= <-].
      pose proof (shape_nKeys _ _ Hshc). lia.
Qed.

End sai_census.

(** ** Writing through a pointer leaves the census alone *)

Section store_census.
Context `{Fanout}.

Lemma kn_store_census node path slot kn' node' a :
  ptr_in node path slot → kn_store node path slot kn' = Done node' a →
  a = 0 ∧ node_count node' = node_count node ∧ nKeys node' = nKeys node ∧
  isLeaf node' = isLeaf node ∧ depth node' = depth node ∧
  ∀ m, filled m node → filled m node'.
Proof.
  intros Hptr. revert node' a.
  induction Hptr as [node slot Hslot|node i c path slot Hleaf Hi Hc Hptr IH];
    intros node' a Hrun; cbn [kn_store] in Hrun.
  - apply bind_Done_inv in Hrun as (ks & n1 & n2 & [-> ->]%array_set_inv & Hrest & ->).
    injection Hrest as <- <-. destruct node as [leaf n ks0 cs]. cbn.
    do 5 (split; [done|]). intros m. rewrite !filled_children. done.
  - apply bind_Done_inv in Hrun as (oc & n1 & n2 & [Hoc ->]%array_get_inv & Hrest & ->).
    rewrite Hc in Hoc. injection Hoc as <-.
    apply bind_Done_inv in Hrest as (c' & n3 & n4 & Hstore & Hrest & ->).
    apply bind_Done_inv in Hrest as (kids' & n5 & n6 & [-> ->]%array_set_inv & Hrest & ->).
    injection Hrest as <- <-.
    destruct (IH c' n3 Hstore) as (-> & Hcount & Hkeys & Hleaf' & Hdepth & Hfill).
    destruct node as [leaf n ks cs]. cbn [isLeaf nKeys kids kNodes] in *. subst leaf.
    split; [done|]. split; [|split; [done|split; [done|split]]].
    + cbn [node_count]. do 2 f_equal.
      change (map ?f ?l) with (f <$> l). rewrite list_fmap_insert.
      rewrite list_insert_id; [done|]. by rewrite list_lookup_fmap, Hc, Hcount.
    + cbn [depth isLeaf kids]. destruct cs as [|c0 cs]; [done|].
      destruct i as [|i]; simpl in *; [|done]. injection Hc as ->. by rewrite Hdepth.
    + intros m. rewrite !filled_children. cbn [isLeaf nKeys kids].
      intros Hf _ j cj Hj Hcj. specialize (Hf eq_refl).
      destruct (decide (j = i)) as [->|Hne].
      * rewrite list_lookup_insert_eq in Hcj by by eapply lookup_lt_Some.
        injection Hcj as <-. destruct (Hf i c Hi Hc) as [Hmc Hfc].
        split; [lia|auto].
      * rewrite list_lookup_insert_ne in Hcj by lia. exact (Hf j cj Hj Hcj).
Qed.

End store_census.

(** ** The census of [find_node] and [mm_add_value] *)

Section find_census.
Context `{Fanout}.
Hypothesis MAX_KEYS_pos : 1 ≤ MAX_KEYS.
Implicit Types (mm : multimap) (r : mm_node).

Lemma find_node_census mm k mm' p a :
  (∀ r, root mm = Some r → ∃ h, shape h r) → occupied mm →
  find_node mm k true = Done (mm', p) a →
  ∃ r' path slot,
    mm' = Multimap (Some r') ∧ p = KAt path slot ∧ ptr_in r' path slot ∧
    node_count r' = tree_nodes mm + a ∧
    depth r' = match root mm with
               | None => 0
               | Some r => if decide (nKeys r = MAX_KEYS) then S (depth r) else depth r
               end ∧
    occupied mm'.
Proof.
  intros Hok Hocc Hrun. destruct mm as [[r|]]; unfold tree_nodes; cbn [root] in *.
  - destruct (Hok r eq_refl) as (h & Hsh). destruct (Hocc r eq_refl) as [Hr1 Hrf].
    clear Hok Hocc.
    pose proof (shape_nKeys _ _ Hsh) as Hn.
    unfold find_node in Hrun. cbn [root] in Hrun.
    destruct (decide (nKeys r = MAX_KEYS)) as [Hfull|Hroom].
    + rewrite bool_decide_eq_true_2 in Hrun by done. cbn [andb] in Hrun.
      destruct (splitNode_census h [] [r] 0 r)
        as (sep & e & y & Hsplit & Hshe & Hshy & Hne & Hny & Hel & Hcount & Hfill);
        [simpl; lia|done|done|done|lia|].
      simpl in Hsplit. rewrite Hfull in Hne, Hny.
      destruct (half_bounds ((MAX_KEYS - 1) / 2) ltac:(done) MAX_KEYS_pos) as [Hm1 Hm2].
      assert (Hgrow :
        (newroot ← alloc_node;
         kids0 ← array_set (kids newroot) 0 (Some r);
         splitNode (Node false (nKeys newroot) (kNodes newroot) kids0) 0)
        = Done (mk_inner [sep] [e; y]) 2).
      { eapply (bind_Done _ _ _ 1 _ 1); [reflexivity|]. cbn [kids nKeys kNodes].
        mstep ltac:(apply array_set_Done; len).
        rewrite grow_root_eq. exact Hsplit. }
      rewrite Hgrow in Hrun.
      apply bind_Done_inv in Hrun as (node1 & n1 & n2 & [= <- <-] & Hrun & ->).
      apply bind_Done_inv in Hrun as ([node' p'] & n3 & n4 & Hrun & Hrest & ->).
      injection Hrest as <- <- <-.
      unfold searchAndInsert in Hrun.
      apply (sai_census_ready ((MAX_KEYS - 1) / 2) ltac:(done) h) in Hrun.
      * destruct Hrun as (Hsh' & Hcount' & Hkeys' & Hfill' & path & slot & -> & Hptr).
        exists node', path, slot. split; [done|]. split; [done|]. split; [done|].
        split; [|split].
        -- rewrite Hcount', node_count_mk_inner by done. simpl. lia.
        -- rewrite (shape_depth _ _ Hsh'), (shape_depth _ _ Hsh). done.
        -- intros r' [= <-]. split; [simpl in Hkeys'; lia|].
           apply Hfill'. apply filled_mk_inner; [done|simpl; lia|].
           destruct (Hfill _ Hrf) as [Hfe Hfy].
           constructor; [split; [lia|done]|]. constructor; [split; [lia|done]|]. done.
      * intros fuel0 c0 k0 c0' p0 a0 ? ? ?.
        by apply (sai_census ((MAX_KEYS - 1) / 2) ltac:(done) MAX_KEYS_pos h fuel0 c0 k0).
      * simpl; lia.
      * done.
      * by repeat constructor.
      * intros c. assert (MAX_KEYS / 2 < MAX_KEYS) by (apply Nat.div_lt; lia).
        simpl. destruct (k <=? key sep)%Z; simpl; intros [= <-]; lia.
    + rewrite bool_decide_eq_false_2 in Hrun by done. cbn [andb] in Hrun.
      apply bind_Done_inv in Hrun as (node1 & n1 & n2 & [= <- <-] & Hrun & ->).
      apply bind_Done_inv in Hrun as ([node' p'] & n3 & n4 & Hrun & Hrest & ->).
      injection Hrest as <- <- <-.
      unfold searchAndInsert in Hrun.
      apply (sai_census ((MAX_KEYS - 1) / 2) ltac:(done) MAX_KEYS_pos h) in Hrun;
        [|done|lia].
      destruct Hrun as (Hsh' & Hcount' & Hkeys' & Hfill' & path & slot & -> & Hptr).
      exists node', path, slot. split; [done|]. split; [done|]. split; [done|].
      split; [|split].
      * rewrite Hcount'. lia.
      * by rewrite (shape_depth _ _ Hsh'), (shape_depth _ _ Hsh).
      * intros r' [= <-]. split; [lia|auto].
  - rewrite find_node_empty in Hrun by done. injection Hrun as <- <- <-.
    exists (mk_leaf [fresh k]), [], 0. split; [done|]. split; [done|].
    split; [apply ptr_here; simpl; lia|]. split; [done|]. split; [done|].
    intros r' [= <-]. split; [simpl; lia|apply filled_mk_leaf].
Qed.

End find_census.

(** ** Cache lines of the value buffers *)

Lemma lines_step n :
  (0 ≤ n)%Z →
  Z.to_nat (line_up (sizeof_value * (n + 1)) / LINE_SIZE)
  = Z.to_nat (line_up (sizeof_value * n) / LINE_SIZE)
    + (if decide (n `mod` 16 = 0)%Z then 1 else 0).
Proof.
  intros Hn. unfold line_up, LINE_SIZE, sizeof_value.
  rewrite !(Z.mul_comm 64), !Z.div_mul by done.
  case_decide; Z.div_mod_to_equations; lia.
Qed.

Lemma buffer_lines_add la vs lb k v :
  sum_list_with (λ kn, Z.to_nat (alloc_bytes kn / LINE_SIZE))
    (rep_of (la ++ (k, vs ++ [v]) :: lb))
  = sum_list_with (λ kn, Z.to_nat (alloc_bytes kn / LINE_SIZE))
      (rep_of (la ++ (if decide (vs = []) then [] else [(k, vs)]) ++ lb))
    + (if decide (Z.of_nat (length vs) `mod` 16 = 0)%Z then 1 else 0).
Proof.
  pose proof (lines_step (Z.of_nat (length vs)) ltac:(lia)) as Hstep.
  unfold rep_of. destruct vs as [|v0 vs].
  - rewrite decide_True by done.
    rewrite !fmap_app, !fmap_cons, !sum_list_with_app. cbn [sum_list_with fmap list_fmap fst snd].
    rewrite alloc_bytes_kn_of. cbn [length app] in *.
    change (Z.of_nat 0 + 1)%Z with (Z.of_nat 1) in Hstep. rewrite Hstep.
    change (sizeof_value * Z.of_nat 0)%Z with 0%Z. change (line_up 0) with 0%Z.
    simpl. lia.
  - rewrite decide_False by done.
    rewrite !fmap_app, !fmap_cons, !sum_list_with_app. cbn [sum_list_with fmap list_fmap fst snd].
    rewrite ?sum_list_with_app. cbn [sum_list_with].
    rewrite !alloc_bytes_kn_of, length_app. cbn [length] in *.
    replace (Z.of_nat (S (length vs) + 1)) with (Z.of_nat (S (length vs)) + 1)%Z by lia.
    rewrite Hstep. lia.
Qed.

(** ** The census of [mm_add_value] *)

Section add_census.
Context `{Fanout}.
Hypothesis MAX_KEYS_pos : 1 ≤ MAX_KEYS.
Implicit Types (mm : multimap) (r : mm_node).

(** [mm_add_value] step by step: the record [find_node] returns a pointer
    to, the value appended to it, the record stored back. *)
Lemma mm_add_value_steps mm l k v :
  mm_rep mm l →
  ∃ la vs lb a r' path slot,
    l = la ++ (if decide (vs = []) then [] else [(k, vs)]) ++ lb ∧
    assoc_add k v l = la ++ (k, vs ++ [v]) :: lb ∧
    find_node mm k true = Done (Multimap (Some r'), KAt path slot) a ∧
    (∀ e, append_value (kn_of k vs) v = Fault e → mm_add_value mm k v = Fault e) ∧
    (∀ c, append_value (kn_of k vs) v = Done (kn_of k (vs ++ [v])) c →
          ∃ r'', kn_store r' path slot (kn_of k (vs ++ [v])) = Done r'' 0 ∧
                 mm_add_value mm k v = Done (Multimap (Some r'')) (a + c) ∧
                 mm_rep (Multimap (Some r'')) (assoc_add k v l)).
Proof.
  intros Hrep.
  destruct (find_node_create_ok MAX_KEYS_pos mm k) as (r' & h' & p & a & Hrun & Hins).
  { intros r. by apply (mm_rep_ok mm l). }
  rewrite (mm_rep_tree_elems mm l Hrep) in Hins.
  destruct Hins as (path & slot & l1 & kn & l2 & -> & Hsh & Hp & Hk & H1 & H2 & Hold).
  destruct Hp as (Hload & Hel & Hstore).
  destruct Hrep as (Hne & Hs & _).
  assert (∃ la vs lb, l = la ++ (if decide (vs = []) then [] else [(k, vs)]) ++ lb ∧
            kn = kn_of k vs ∧ l1 = rep_of la ∧ l2 = rep_of lb ∧
            assoc_add k v l = la ++ (k, vs ++ [v]) :: lb)
    as (la & vs & lb & Hl & -> & -> & -> & Hadd).
  { destruct Hold as [Hold|[Hold ->]].
    - apply rep_of_middle in Hold as (la & vs & lb & -> & Hkn & -> & ->).
      rewrite Hk in *.
      apply Forall_app in Hne as [_ [Hvs _]%Forall_cons]. simpl in Hvs.
      exists la, vs, lb. rewrite decide_False by done.
      split; [done|]. split; [done|]. split; [done|]. split; [done|].
      apply assoc_add_found. by apply (Forall_rep_of (λ x, x < k)%Z) in H1.
    - apply rep_of_split in Hold as (la & lb & -> & -> & ->).
      exists la, [], lb. split; [done|]. split; [done|]. split; [done|]. split; [done|].
      apply assoc_add_fresh.
      + by apply (Forall_rep_of (λ x, x < k)%Z) in H1.
      + by apply (Forall_rep_of (λ x, k < x)%Z) in H2. }
  exists la, vs, lb, a, r', path, slot. split; [done|]. split; [done|]. split; [done|].
  assert (Hhead : mm_add_value mm k v =
    match append_value (kn_of k vs) v with
    | Done kn' c =>
        match kn_store r' path slot kn' with
        | Done r'' c' => Done (Multimap (Some r'')) (a + (0 + (0 + (c + (c' + 0)))))
        | Fault e => Fault e
        end
    | Fault e => Fault e
    end).
  { unfold mm_add_value. rewrite Hrun. cbn [mbind M_bind root].
    rewrite Hload. cbn [mbind M_bind].
    rewrite assert_Done by done. cbn [mbind M_bind].
    destruct (append_value (kn_of k vs) v) as [kn' c|e]; [|done].
    cbn [mbind M_bind].
    destruct (kn_store r' path slot kn') as [r'' c'|e]; cbn [mbind M_bind mret M_ret]; [|done].
    done. }
  split.
  { intros e He. by rewrite Hhead, He. }
  intros c Hc.
  destruct (Hstore (kn_of k (vs ++ [v]))) as (r'' & Hst & Hsh'' & Hel'').
  exists r''. split; [done|]. split.
  { rewrite Hhead, Hc, Hst. f_equal. lia. }
  rewrite Hadd. split; [|split].
  - rewrite Hl in Hne. apply Forall_app in Hne as [? [_ ?]%Forall_app].
    apply Forall_app. split; [done|]. constructor; [|done]. simpl. by destruct vs.
  - rewrite rep_of_app. simpl. rewrite Hl in Hs.
    rewrite !rep_of_app in Hs. case_decide; simpl in Hs.
    + apply sorted_insert; auto.
    + eapply sorted_replace; [exact Hs|done].
  - cbn [root]. split; [by destruct la|]. exists h'. split; [done|].
    rewrite Hel''. by rewrite rep_of_app.
Qed.

Lemma mm_add_value_census mm l k v mm' a :
  mm_rep mm l → vals_within (VALS_MAX + 1) l → occupied mm →
  mm_add_value mm k v = Done mm' a →
  tree_nodes mm' + buffer_lines mm' = tree_nodes mm + buffer_lines mm + a ∧
  height mm' = match root mm with
               | None => 0
               | Some r => if decide (nKeys r = MAX_KEYS) then S (height mm) else height mm
               end ∧
  occupied mm'.
Proof.
  intros Hrep Hmax Hocc Hrun.
  destruct (mm_add_value_steps mm l k v Hrep)
    as (la & vs & lb & a1 & r' & path & slot & Hl & Hadd & Hfind & Hbad & Hok).
  pose proof Hmax as Hmax'. rewrite Hl in Hmax'.
  pose proof (vals_within_middle MAX_KEYS_pos _ _ _ _ _ Hmax' ltac:(done)) as Hvs.
  destruct (decide (Z.of_nat (length vs) = VALS_MAX + 1)%Z) as [Hfull|Hroom].
  { by rewrite (Hbad _ (append_value_overflow k vs v Hfull)) in Hrun. }
  destruct (Hok _ (append_value_ok k vs v ltac:(lia))) as (r'' & Hstore & Hrun' & Hrep').
  rewrite Hrun in Hrun'. injection Hrun' as -> ->.
  destruct (find_node_census MAX_KEYS_pos mm k _ _ _
              ltac:(intros r Hr; destruct (mm_rep_ok mm l r Hrep Hr) as (h & ? & _); eauto)
              Hocc Hfind)
    as (r1 & path1 & slot1 & [= <-] & [= <- <-] & Hptr & Hcount & Hdepth & Hocc').
  destruct (kn_store_census r' path slot _ r'' 0 Hptr Hstore)
    as (_ & Hcount'' & Hkeys'' & _ & Hdepth'' & Hfill'').
  split; [|split].
  - unfold tree_nodes at 1. unfold buffer_lines. cbn [root].
    rewrite (mm_rep_tree_elems _ _ Hrep'), (mm_rep_tree_elems _ _ Hrep).
    rewrite Hadd, Hl at 1. rewrite buffer_lines_add. rewrite <- Hl. lia.
  - unfold height. cbn [root]. rewrite Hdepth'', Hdepth. by destruct (root mm).
  - intros r0 [= <-]. destruct (Hocc' r' eq_refl) as [Hr1 Hrf].
    split; [lia|auto].
Qed.

Lemma run_occupied mm l ops mm' a :
  mm_rep mm l → vals_within (VALS_MAX + 1) l → occupied mm →
  run mm ops = Done mm' a → occupied mm'.
Proof.
  revert mm l a. induction ops as [|o ops IH]; intros mm l a Hrep Hmax Hocc; simpl.
  - by intros [= <- _].
  - intros (mm1 & n1 & n2 & Hstep & Hrun & ->)%bind_Done_inv.
    destruct (step_rep MAX_KEYS_pos mm l o mm1 n1 Hrep Hmax Hstep) as [Hrep1 Hmax1].
    eapply IH; [exact Hrep1|exact Hmax1| |exact Hrun].
    destruct o as [k v|k|k v|]; simpl in Hstep.
    + by destruct (mm_add_value_census mm l k v mm1 n1) as (_ & _ & ?).
    + apply bind_Done_inv in Hstep
        as ([mm2 b] & n3 & n4 & [-> ->]%mm_contains_key_readonly & Hrest & _).
      by injection Hrest as <- _.
    + apply bind_Done_inv in Hstep
        as ([mm2 b] & n3 & n4 & [-> ->]%mm_contains_pair_readonly & Hrest & _).
      by injection Hrest as <- _.
    + apply clear_multimap_inv in Hstep as ->. by intros r.
Qed.

Lemma occupied_empty : occupied (Multimap None).
Proof. by intros r. Qed.

Lemma session_occupied ops mm a : session ops = Done mm a → occupied mm.
Proof.
  unfold session, init_multimap.
  intros (mm0 & n1 & n2 & [= <- <-] & Hrun & ->)%bind_Done_inv.
  eapply run_occupied; [apply mm_rep_empty|constructor|apply occupied_empty|done].
Qed.

Lemma run_adds_allocs mm l kvs mm' a :
  mm_rep mm l → vals_within (VALS_MAX + 1) l → occupied mm →
  run mm ((λ kv : Z * Z, Add kv.1 kv.2) <$> kvs) = Done mm' a →
  tree_nodes mm' + buffer_lines mm' = tree_nodes mm + buffer_lines mm + a.
Proof.
  revert mm l a. induction kvs as [|[k v] kvs IH]; intros mm l a Hrep Hmax Hocc;
    rewrite ?fmap_cons; cbn [run step fst snd].
  - intros [= <- <-]. lia.
  - intros (mm1 & n1 & n2 & Hstep & Hrun & ->)%bind_Done_inv.
    destruct (mm_add_value_inv MAX_KEYS_pos mm l k v mm1 n1 Hrep Hmax Hstep) as [Hrep1 Hmax1].
    destruct (mm_add_value_census mm l k v mm1 n1 Hrep Hmax Hocc Hstep) as (Hc & _ & Hocc1).
    specialize (IH mm1 _ n2 Hrep1 Hmax1 Hocc1 Hrun). lia.
Qed.

End add_census.

(** ** How many records a tree of a given height holds *)

Lemma length_inter {A} (es : list (list A)) (ks : list A) :
  length es = S (length ks) →
  length (inter es ks) = sum_list_with length es + length ks.
Proof.
  revert ks. induction es as [|e es IH]; intros ks Hlen; [done|].
  destruct ks as [|k ks]; simpl in *.
  - destruct es; [|done]. simpl. rewrite length_app. simpl. lia.
  - rewrite length_app. simpl. rewrite IH by lia. lia.
Qed.

Lemma sum_list_with_fmap_length {A B} (g : A → list B) (l : list A) :
  sum_list_with length (g <$> l) = sum_list_with (length ∘ g) l.
Proof. induction l as [|x l IH]; [done|]. rewrite fmap_cons. simpl. f_equal. exact IH. Qed.

Lemma sum_list_at_least {A} (f : A → nat) (P : nat) (l : list A) :
  Forall (λ x, P ≤ S (f x)) l → length l * P ≤ sum_list_with f l + length l.
Proof. induction 1 as [|x l Hx _ IH]; simpl; lia. Qed.

Section records.
Context `{Fanout}.

Lemma shape_records m h node :
  shape h node → filled m node → m ≤ nKeys node →
  (m + 1) ^ S h ≤ S (length (elems node)).
Proof.
  revert node. induction h as [|h IH]; intros node Hsh Hf Hm.
  - apply shape_0_inv in Hsh as (live & -> & Hlen).
    rewrite elems_mk_leaf. simpl in *. lia.
  - apply shape_S_inv in Hsh as (live & cs & -> & Hlen & Hcs & Hall).
    rewrite elems_mk_inner by done.
    rewrite filled_mk_inner in Hf by done.
    rewrite length_inter by (by rewrite length_fmap).
    rewrite sum_list_with_fmap_length.
    pose proof (sum_list_at_least (length ∘ elems) ((m + 1) ^ S h) cs) as Hsum.
    simpl in Hm.
    assert ((m + 1) * (m + 1) ^ S h ≤ length cs * (m + 1) ^ S h)
      by (apply Nat.mul_le_mono_r; lia).
    change ((m + 1) ^ S (S h)) with ((m + 1) * (m + 1) ^ S h).
    cut (length cs * (m + 1) ^ S h ≤ sum_list_with (length ∘ elems) cs + length cs); [lia|].
    apply Hsum. apply Forall_forall. intros c Hc.
    pose proof (proj1 (Forall_forall _ _) Hall c Hc) as Hshc.
    pose proof (proj1 (Forall_forall _ _) Hf c Hc) as [Hmc Hfc].
    by apply IH.
Qed.

Lemma root_records m h r :
  shape h r → filled m r → 1 ≤ nKeys r → 2 * (m + 1) ^ h ≤ S (length (elems r)).
Proof.
  intros Hsh Hf Hr. destruct h as [|h].
  - apply shape_0_inv in Hsh as (live & -> & Hlen).
    rewrite elems_mk_leaf. simpl in *. lia.
  - apply shape_S_inv in Hsh as (live & cs & -> & Hlen & Hcs & Hall).
    rewrite elems_mk_inner by done.
    rewrite filled_mk_inner in Hf by done.
    rewrite length_inter by (by rewrite length_fmap).
    rewrite sum_list_with_fmap_length.
    pose proof (sum_list_at_least (length ∘ elems) ((m + 1) ^ S h) cs) as Hsum.
    simpl in Hr.
    assert (2 * (m + 1) ^ S h ≤ length cs * (m + 1) ^ S h)
      by (apply Nat.mul_le_mono_r; lia).
    cut (length cs * (m + 1) ^ S h ≤ sum_list_with (length ∘ elems) cs + length cs); [lia|].
    apply Hsum. apply Forall_forall. intros c Hc.
    pose proof (proj1 (Forall_forall _ _) Hall c Hc) as Hshc.
    pose proof (proj1 (Forall_forall _ _) Hf c Hc) as [Hmc Hfc].
    by apply shape_records.
Qed.

End records.

(** ** The record of a key, from the contents *)

Lemma filter_key_below k l :
  Forall (λ kv, kv.1 < k)%Z l → filter (λ kn, key kn = k) (rep_of l) = [].
Proof.
  induction 1 as [|[k' vs] l Hk _ IH]; [done|]. simpl in *.
  rewrite filter_cons_False by (simpl; lia). done.
Qed.

Lemma key_record_split `{Fanout} mm la vs lb k v :
  tree_elems mm = rep_of (la ++ (if decide (vs = []) then [] else [(k, vs)]) ++ lb) →
  sorted (rep_of (la ++ (k, vs ++ [v]) :: lb)) →
  key_record mm k = if decide (vs = []) then None else Some (kn_of k vs).
Proof.
  intros Hel Hs. rewrite rep_of_app in Hs. simpl in Hs.
  apply sorted_middle in Hs as [H1 H2]. simpl in *.
  apply (Forall_rep_of (λ x, x < k)%Z) in H1.
  apply (Forall_rep_of (λ x, k < x)%Z) in H2.
  unfold key_record. rewrite Hel, !rep_of_app, !filter_app.
  rewrite (filter_key_below k la H1), (filter_key_above k lb H2), app_nil_r. simpl.
  case_decide; [done|]. simpl. by rewrite filter_cons_True.
Qed.

Lemma with_key_flatten_sorted k vs (l : contents) :
  StronglySorted Z.lt l.*1 → (k, vs) ∈ l →
  with_key k (flatten l) = (λ v, (k, v)) <$> vs.
Proof.
  induction l as [|[k' vs'] l IH]; intros Hs Hin; [by apply elem_of_nil in Hin|].
  rewrite fmap_cons in Hs. apply StronglySorted_cons in Hs as [Hk' Hs]. simpl in Hk'.
  rewrite flatten_cons, with_key_app, with_key_same.
  apply elem_of_cons in Hin as [[= -> ->]|Hin].
  - rewrite decide_True by done. by rewrite (with_key_above k' k' l), app_nil_r.
  - assert (k' < k)%Z.
    { eapply Forall_forall in Hk'; [exact Hk'|]. apply list_elem_of_fmap. by exists (k, vs). }
    rewrite decide_False by lia. by apply IH.
Qed.

(** ** Blocks released by a teardown *)

Lemma sum_list_with_inter {A} (f : A → nat) (es : list (list A)) (ks : list A) :
  length es = S (length ks) →
  sum_list_with f (inter es ks) = sum_list_with (sum_list_with f) es + sum_list_with f ks.
Proof.
  revert ks. induction es as [|e es IH]; intros ks Hlen; [done|].
  destruct ks as [|k ks]; simpl in *.
  - destruct es; [|done]. rewrite sum_list_with_app. simpl. lia.
  - rewrite sum_list_with_app. simpl. rewrite IH by lia. lia.
Qed.

Section release.
Context `{Fanout}.
Implicit Types (live : list key_node) (cs : list mm_node) (node c r : mm_node).

Lemma release_loop_leaf live kfs i todo :
  i + todo = length live → length live ≤ MAX_KEYS →
  release_loop true (padded MAX_KEYS key_zero live) kfs i todo
  = Done (sum_list_with held (drop i live)) 0.
Proof.
  intros Hi Hlen. revert i Hi.
  induction todo as [|todo IH]; intros i Hi; cbn [release_loop].
  - by rewrite drop_ge by lia.
  - destruct (lookup_lt_is_Some_2 live i) as [kn Hkn]; [lia|].
    mstep ltac:(reflexivity).
    mstep ltac:(apply array_get_Done; rewrite lookup_padded_lt by lia; exact Hkn).
    mstep ltac:(apply IH; lia).
    by rewrite (drop_S _ _ _ Hkn).
Qed.

Lemma release_loop_inner live cs (g : mm_node → nat) i todo :
  i + todo = length live → length live ≤ MAX_KEYS → length cs = S (length live) →
  Forall (λ c, released c = Done (g c) 0) cs →
  release_loop false (padded MAX_KEYS key_zero live)
    (map (λ oc, match oc with
                | Some c => released c
                | None => Fault NullDeref
                end) (padded (S MAX_KEYS) None (Some <$> cs))) i todo
  = Done (sum_list_with g (drop i cs) + sum_list_with held (drop i live)) 0.
Proof.
  intros Hi Hlen Hcs Hkids. revert i Hi.
  assert (Hkid : ∀ i c, cs !! i = Some c →
    default (Fault OutOfBounds)
      (map (λ oc, match oc with
                  | Some c => released c
                  | None => Fault NullDeref
                  end) (padded (S MAX_KEYS) None (Some <$> cs)) !! i)
    = Done (g c) 0).
  { intros i c Hc. assert (i < length cs) by by eapply lookup_lt_Some.
    unfold padded. rewrite map_app, lookup_app_l by (rewrite length_map, length_fmap; lia).
    change (map ?f ?l) with (f <$> l). rewrite !list_lookup_fmap, Hc. simpl.
    by eapply (Forall_lookup_1 _ _ _ _ Hkids). }
  induction todo as [|todo IH]; intros i Hi; cbn [release_loop].
  - destruct (lookup_lt_is_Some_2 cs i) as [c Hc]; [lia|].
    rewrite (Hkid i c Hc), (drop_S _ _ _ Hc), (drop_ge live), (drop_ge cs) by lia.
    simpl. f_equal. lia.
  - destruct (lookup_lt_is_Some_2 cs i) as [c Hc]; [lia|].
    destruct (lookup_lt_is_Some_2 live i) as [kn Hkn]; [lia|].
    mstep ltac:(by apply Hkid).
    mstep ltac:(apply array_get_Done; rewrite lookup_padded_lt by lia; exact Hkn).
    mstep ltac:(apply IH; lia).
    rewrite (drop_S _ _ _ Hc), (drop_S _ _ _ Hkn). simpl.
    unfold mret, M_ret. f_equal. lia.
Qed.

Lemma released_ok h node :
  shape h node →
  released node = Done (node_count node + sum_list_with held (elems node)) 0.
Proof.
  revert node. induction h as [|h IH]; intros node Hsh.
  - apply shape_0_inv in Hsh as (live & -> & Hlen).
    rewrite elems_mk_leaf, node_count_mk_leaf. unfold mk_leaf. cbn [released].
    mstep ltac:(by apply release_loop_leaf).
    by rewrite drop_0.
  - apply shape_S_inv in Hsh as (live & cs & -> & Hlen & Hcs & Hsh).
    rewrite elems_mk_inner, node_count_mk_inner by done.
    unfold mk_inner. cbn [released].
    mstep ltac:(apply (release_loop_inner live cs
                         (λ c, node_count c + sum_list_with held (elems c)));
                [lia|done|done|]; eapply Forall_impl; [exact Hsh|]; apply IH).
    rewrite !drop_0. unfold mret, M_ret. f_equal.
    rewrite sum_list_with_inter by (by rewrite length_fmap).
    assert (∀ l : list mm_node,
              sum_list_with (λ c, node_count c + sum_list_with held (elems c)) l
              = sum_list (node_count <$> l)
                + sum_list_with (sum_list_with held) (elems <$> l)) as Hsplit.
    { induction l as [|c l IHl]; [done|]. rewrite !fmap_cons. simpl. rewrite IHl.
      unfold id. lia. }
    rewrite Hsplit. lia.
Qed.

End release.

(** * Further properties of the program *)

Section session_properties.
Context `{Fanout}.

Lemma session_rep_live ops mm a :
  1 ≤ MAX_KEYS → session ops = Done mm a → mm_rep mm (contents_of (live_adds ops)).
Proof.
  intros Hmax [Hrep _]%session_rep; [|done]. by rewrite session_contents_live in Hrep.
Qed.

Lemma mm_traverse_rep mm kvs :
  mm_rep mm (contents_of kvs) →
  mm_traverse mm
  = Visit (flatten (contents_of kvs)) (if decide (kvs = []) then Some NullDeref else None).
Proof.
  intros Hrep. destruct (decide (kvs = [])) as [->|Hne].
  - by rewrite (mm_traverse_empty mm Hrep).
  - apply mm_traverse_ok; [done|]. intros Hnil. by apply contents_of_nil_inv in Hnil.
Qed.

Lemma contents_of_keys kvs k : k ∈ (contents_of kvs).*1 ↔ k ∈ kvs.*1.
Proof.
  assert (∀ l : contents, Forall (λ kv, kv.2 ≠ []) l →
            (k ∈ l.*1 ↔ ∃ v, (k, v) ∈ flatten l)) as Hkeys.
  { intros l Hne. split.
    - intros ([k' vs] & -> & Hin)%list_elem_of_fmap. simpl.
      eapply Forall_forall in Hne; [|exact Hin]. simpl in Hne.
      destruct vs as [|v vs]; [done|]. exists v. apply elem_of_flatten.
      exists (v :: vs). split; [done|by left].
    - intros [v Hv]. by eapply elem_of_flatten_fst. }
  assert (Forall (λ kv : Z * list Z, kv.2 ≠ []) (contents_of kvs)) as Hne.
  { induction kvs as [|[k' v'] kvs IH] using rev_ind; [constructor|].
    rewrite contents_of_snoc. clear -IH. induction (contents_of kvs) as [|[k2 vs] l IHl].
    - simpl. by repeat constructor.
    - apply Forall_cons in IH as [Hvs IH]. simpl.
      destruct (k' <? k2)%Z; [by repeat constructor|].
      destruct (k' =? k2)%Z.
      + constructor; [|done]. simpl. by destruct vs.
      + constructor; [done|]. by apply IHl. }
  rewrite (Hkeys _ Hne). split.
  - intros [v Hv]. rewrite flatten_contents_of in Hv.
    apply list_elem_of_fmap. by exists (k, v).
  - intros ([k' v] & -> & Hin)%list_elem_of_fmap. exists v.
    by rewrite flatten_contents_of.
Qed.

(** X1. Whatever calls a client has made since [init_multimap], a traversal
    hands to the visitor exactly the pairs added since the last
    [clear_multimap]: a rearrangement of them, in ascending key order, the
    pairs of one key in the order they were added; lookups in between change
    nothing.  The traversal runs to its end exactly when there is at least
    one such pair (on an empty multimap it stops at the null root). *)
Theorem traverse_after_session (ops : list op) (mm : multimap) (a : nat) :
  1 ≤ MAX_KEYS → session ops = Done mm a →
  delivered (mm_traverse mm) ≡ₚ live_adds ops ∧
  key_ordered (delivered (mm_traverse mm)) ∧
  (∀ k, with_key k (delivered (mm_traverse mm)) = with_key k (live_adds ops)) ∧
  (ended (mm_traverse mm) = None ↔ live_adds ops ≠ []).
Proof.
  intros Hmax Hrep%session_rep_live; [|done].
  rewrite (mm_traverse_rep mm _ Hrep). cbn [delivered ended].
  split; [apply flatten_contents_of|].
  split; [apply flatten_key_ordered, contents_of_sorted|].
  split; [intros k; apply with_key_contents_of|].
  by case_decide.
Qed.

(** X2. After any calls that left at least one pair in the multimap,
    [mm_contains_key k] returns true exactly when some pair with key [k] was
    added since the last [clear_multimap], and [mm_contains_pair k v] exactly
    when the pair [(k, v)] was; in particular both return false for a key
    that is missing.  Neither changes the multimap nor allocates. *)
Theorem contains_after_session (ops : list op) (mm : multimap) (a : nat) (k v : Z) :
  1 ≤ MAX_KEYS → session ops = Done mm a → live_adds ops ≠ [] →
  mm_contains_key mm k = Done (mm, bool_decide (k ∈ (live_adds ops).*1)) 0 ∧
  mm_contains_pair mm k v = Done (mm, bool_decide ((k, v) ∈ live_adds ops)) 0.
Proof.
  intros Hmax Hrep%session_rep_live Hne; [|done].
  assert (contents_of (live_adds ops) ≠ [])
    by (intros Hnil; by apply contents_of_nil_inv in Hnil).
  rewrite (mm_contains_key_ok mm _ k), (mm_contains_pair_ok mm _ k v) by done.
  split; do 2 f_equal; apply bool_decide_ext.
  - apply contents_of_keys.
  - by rewrite flatten_contents_of.
Qed.

(** X3. The outcome of a traversal depends only on which values were added
    under each key and in which order: two call sequences whose pairs since
    the last clear agree key by key (for instance, they interleave the
    additions for different keys differently) lead to the same traversal,
    pair for pair, although the trees may differ. *)
Theorem traversal_depends_on_keys_only (ops1 ops2 : list op) (mm1 mm2 : multimap)
    (a1 a2 : nat) :
  1 ≤ MAX_KEYS →
  (∀ k, with_key k (live_adds ops1) = with_key k (live_adds ops2)) →
  session ops1 = Done mm1 a1 → session ops2 = Done mm2 a2 →
  mm_traverse mm1 = mm_traverse mm2.
Proof.
  intros Hmax Heq Hrep1%session_rep_live Hrep2%session_rep_live; [|done..].
  rewrite (mm_traverse_rep mm1 _ Hrep1), (mm_traverse_rep mm2 _ Hrep2). f_equal.
  - apply key_ordered_unique.
    + apply flatten_key_ordered, contents_of_sorted.
    + apply flatten_key_ordered, contents_of_sorted.
    + intros k. by rewrite !with_key_contents_of.
  - assert (∀ l1 l2 : list (Z * Z),
              (∀ k, with_key k l1 = with_key k l2) → l1 = [] → l2 = []) as Hnil.
    { intros l1 l2 Hk ->. destruct l2 as [|[k v] l2]; [done|].
      specialize (Hk k). by rewrite with_key_cons_same in Hk. }
    destruct (decide (live_adds ops1 = [])) as [H1|H1];
      destruct (decide (live_adds ops2 = [])) as [H2|H2]; try done.
    + by apply (Hnil _ _ Heq) in H1.
    + by apply (Hnil (live_adds ops2) (live_adds ops1)) in H2.
Qed.

End session_properties.

Lemma traverse_after_session_witness :
  ∃ mm a,
    session (H := 4) [Add 5 1; Add 3 2; Clear; Add 9 0; ContainsKey 9; Add 4 7; Add 9 1]%Z
    = Done mm a ∧
    delivered (mm_traverse mm) ≡ₚ [(9, 0); (4, 7); (9, 1)]%Z ∧
    key_ordered (delivered (mm_traverse mm)).
Proof.
  eexists _, _. apply and_then.
  - vm_compute. reflexivity.
  - intros Hrun.
    destruct (traverse_after_session (H := 4) _ _ _ ltac:(unfold MAX_KEYS; lia) Hrun)
      as (Hperm & Hord & _).
    split; [exact Hperm|exact Hord].
Defined.

Lemma contains_after_session_witness :
  ∃ mm a,
    session (H := 4) [Add 5 1; Add 3 2; Clear; Add 9 0; Add 4 7]%Z = Done mm a ∧
    mm_contains_key (H := 4) mm 5 = Done (mm, false) 0 ∧
    mm_contains_pair (H := 4) mm 4 7 = Done (mm, true) 0.
Proof.
  eexists _, _. apply and_then.
  - vm_compute. reflexivity.
  - intros Hrun. split.
    + apply (contains_after_session (H := 4) _ _ _ 5 0 ltac:(unfold MAX_KEYS; lia) Hrun).
      by vm_compute.
    + apply (contains_after_session (H := 4) _ _ _ 4 7 ltac:(unfold MAX_KEYS; lia) Hrun).
      by vm_compute.
Defined.

Lemma traversal_depends_on_keys_only_witness :
  ∃ mm1 a1 mm2 a2,
    session (H := 4) [Add 5 1; Add 3 2; Add 5 3]%Z = Done mm1 a1 ∧
    session (H := 4) [Add 3 2; Add 5 1; Add 5 3]%Z = Done mm2 a2 ∧
    mm_traverse mm1 = mm_traverse mm2.
Proof.
  eexists _, _, _, _. apply and_then.
  - vm_compute. reflexivity.
  - intros Hrun1. apply and_then.
    + vm_compute. reflexivity.
    + intros Hrun2.
      refine (traversal_depends_on_keys_only (H := 4) _ _ _ _ _ _ _ _ Hrun1 Hrun2);
        [unfold MAX_KEYS; lia|].
      intros k. unfold with_key. vm_compute live_adds.
      rewrite !filter_cons, !filter_nil. simpl.
      repeat case_decide; subst; try done; lia.
Defined.

Section order_properties.
Context `{Fanout}.

(** X4. In every tree a client can build, the records of the whole tree,
    read in traversal order, have strictly increasing keys (so no key has two
    records); and in every inner node the records found anywhere below child
    [i] have keys above the node's keys before index [i] and below its keys
    from index [i] on.  This is what lets [searchAndInsert] follow a single
    child. *)
Theorem keys_are_separated (ops : list op) (mm : multimap) (a : nat) (r : mm_node) :
  1 ≤ MAX_KEYS → session ops = Done mm a → root mm = Some r →
  sorted (elems r) ∧
  ∀ d node i c x j sep,
    at_depth d r node → isLeaf node = false →
    i ≤ nKeys node → kids node !! i = Some (Some c) → x ∈ elems c →
    j < nKeys node → kNodes node !! j = Some sep →
    (j < i → (key sep < key x)%Z) ∧ (i ≤ j → (key x < key sep)%Z).
Proof.
  intros Hmax [Hrep _]%session_rep Hroot; [|done].
  destruct (mm_rep_ok mm _ r Hrep Hroot) as (h & Hsh & Hs). split; [done|].
  intros d node i c x j sep Hat Hleaf Hi Hc Hx Hj Hsep.
  destruct (at_depth_shape h r d node Hsh Hs Hat) as (h' & _ & Hsh' & Hs').
  destruct h' as [|h'].
  { apply shape_0_inv in Hsh' as (? & -> & _). done. }
  apply shape_S_inv in Hsh' as (live & cs & -> & Hlen & Hcs & Hall).
  cbn [nKeys mk_inner kids kNodes] in *.
  rewrite lookup_padded_lt in Hsep by done.
  rewrite lookup_padded_lt in Hc by (rewrite length_fmap; lia).
  rewrite list_lookup_fmap in Hc. destruct (cs !! i) as [c'|] eqn:Hci; [|done].
  injection Hc as ->.
  change (sorted (elems (mk_inner live cs))) in Hs'.
  rewrite elems_mk_inner in Hs' by done.
  apply (sorted_inter_sep (elems <$> cs) live i (elems c) x j sep);
    [by rewrite length_fmap|done|by rewrite list_lookup_fmap, Hci|done|done].
Qed.

End order_properties.

Lemma keys_are_separated_witness :
  ∃ mm a r,
    session (H := 4) ((λ k, Add k (10 * k)) <$> [1; 2; 3; 4; 5; 6; 7])%Z = Done mm a ∧
    root mm = Some r ∧ sorted (elems r).
Proof.
  eexists _, _, _. apply and_then.
  - vm_compute. reflexivity.
  - intros Hrun. apply and_then.
    + reflexivity.
    + intros Hroot.
      apply (keys_are_separated (H := 4) _ _ _ _ ltac:(unfold MAX_KEYS; lia) Hrun Hroot).
Defined.

Section structure_properties.
Context `{Fanout}.

(** X5. In every tree a client can build, the root holds at least one
    record and every other node at least [(MAX_KEYS - 1) / 2] records: a
    split leaves [MAX_KEYS / 2] records in the elder node and
    [MAX_KEYS - MAX_KEYS / 2 - 1] in the younger, and nothing ever removes a
    record from a node short of [clear_multimap]. *)
Theorem nodes_stay_half_full (ops : list op) (mm : multimap) (a : nat) (r : mm_node) :
  1 ≤ MAX_KEYS → session ops = Done mm a → root mm = Some r →
  1 ≤ nKeys r ∧
  ∀ d node, at_depth (S d) r node → (MAX_KEYS - 1) / 2 ≤ nKeys node.
Proof.
  intros Hmax Hocc%session_occupied Hroot; [|done]. exact (Hocc r Hroot).
Qed.

(** X6. Every allocation made while pairs are added is accounted for by
    the tree: after [init_multimap] and any sequence of [mm_add_value]
    calls, the number of allocator calls made so far is one (the multimap
    itself) plus the number of nodes of the tree plus the number of
    [LINE_SIZE] units held by the value buffers (each [realloc] call added
    one unit). *)
Theorem allocations_are_accounted (kvs : list (Z * Z)) (mm : multimap) (a : nat) :
  1 ≤ MAX_KEYS → add_all kvs = Done mm a →
  a = 1 + tree_nodes mm + buffer_lines mm.
Proof.
  intros Hmax. unfold add_all, session, init_multimap.
  intros (mm0 & n1 & n2 & [= <- <-] & Hrun & ->)%bind_Done_inv.
  apply (run_adds_allocs Hmax _ []) in Hrun;
    [|apply mm_rep_empty|constructor|apply occupied_empty].
  change (tree_nodes (Multimap None)) with 0 in Hrun.
  change (buffer_lines (Multimap None)) with 0 in Hrun. lia.
Qed.

(** X7. [mm_add_value] makes the tree one level higher exactly when it
    finds the root full (even when the key is already in the tree and no
    record is added); otherwise the height stays, and a first pair gives a
    tree of height zero. *)
Theorem height_grows_at_full_root (ops : list op) (mm : multimap) (a : nat) (k v : Z)
    (mm' : multimap) (a' : nat) :
  1 ≤ MAX_KEYS → session ops = Done mm a → mm_add_value mm k v = Done mm' a' →
  height mm' = match root mm with
               | None => 0
               | Some r => if decide (nKeys r = MAX_KEYS) then S (height mm) else height mm
               end.
Proof.
  intros Hmax Hrun Hadd.
  pose proof (session_occupied Hmax _ _ _ Hrun) as Hocc.
  apply session_rep in Hrun as [Hrep Hwithin]; [|done].
  by destruct (mm_add_value_census Hmax mm _ k v mm' a' Hrep Hwithin Hocc Hadd) as (_ & ? & _).
Qed.

(** X8. The height of a tree is logarithmic in the number of its records:
    a tree of height [h] a client has built holds at least
    [2 * ((MAX_KEYS - 1) / 2 + 1) ^ h - 1] key records. *)
Theorem height_is_logarithmic (ops : list op) (mm : multimap) (a : nat) (r : mm_node) :
  1 ≤ MAX_KEYS → session ops = Done mm a → root mm = Some r →
  2 * ((MAX_KEYS - 1) / 2 + 1) ^ height mm ≤ S (length (tree_elems mm)).
Proof.
  intros Hmax Hrun Hroot.
  pose proof (session_occupied Hmax _ _ _ Hrun r Hroot) as [Hr1 Hrf].
  apply session_rep in Hrun as [Hrep _]; [|done].
  destruct (mm_rep_ok mm _ r Hrep Hroot) as (h & Hsh & _).
  unfold height, tree_elems. rewrite Hroot, (shape_depth _ _ Hsh).
  by apply root_records.
Qed.

(** X9. [splitNode] loses no record and changes no order: for a parent
    that has room and a child at [pos] that holds a record, it returns after
    one allocation a parent with one more record and one more node below it,
    whose records, read in traversal order, are those it had, and which is
    well formed as before. *)
Theorem splitNode_keeps_records (h : nat) (parent elder : mm_node) (pos : nat) :
  shape (S h) parent → nKeys parent < MAX_KEYS → pos ≤ nKeys parent →
  kids parent !! pos = Some (Some elder) → 1 ≤ nKeys elder →
  ∃ parent',
    splitNode parent pos = Done parent' 1 ∧ shape (S h) parent' ∧
    elems parent' = elems parent ∧ nKeys parent' = S (nKeys parent) ∧
    node_count parent' = S (node_count parent).
Proof.
  intros Hsh Hn Hpos Hkid Helder.
  apply shape_S_inv in Hsh as (live & cs & -> & Hlen & Hcs & Hall).
  cbn [nKeys kids mk_inner] in *.
  rewrite lookup_padded_lt in Hkid by (rewrite length_fmap; lia).
  rewrite list_lookup_fmap in Hkid. destruct (cs !! pos) as [c|] eqn:Hc; [|done].
  injection Hkid as ->.
  assert (Hshc : shape h elder) by by eapply Forall_lookup_1.
  destruct (splitNode_census h live cs pos elder Hn Hcs Hc Hshc Helder)
    as (sep & e & y & Hsplit & Hshe & Hshy & _ & _ & Hel & Hcount & _).
  eexists. split; [exact Hsplit|].
  assert (length (take pos live ++ sep :: drop pos live) = S (length live)) by len.
  assert (length (take pos cs ++ e :: y :: drop (S pos) cs) = S (S (length live))) by len.
  split; [|split; [|split]].
  - constructor; [lia|lia|].
    apply Forall_app. split; [by apply Forall_take|].
    do 2 (constructor; [done|]). by apply Forall_drop.
  - by eapply split_elems.
  - simpl. lia.
  - rewrite !node_count_mk_inner by lia.
    assert (sum_list (node_count <$> cs)
            = sum_list (node_count <$> take pos cs)
              + (node_count elder + sum_list (node_count <$> drop (S pos) cs))) as Hsum.
    { rewrite <- (take_drop_middle cs pos elder Hc) at 1.
      by rewrite fmap_app, fmap_cons, sum_list_with_app. }
    rewrite !fmap_app, !fmap_cons, !sum_list_with_app. cbn [sum_list_with id] in *. lia.
Qed.

End structure_properties.

Section find_node_properties.
Context `{Fanout}.

(** X10. [find_node] with [create_if_not_found] set, on any multimap a
    client can have built: it returns a pointer to a record whose key is
    [k]; the records of the tree, in traversal order, are afterwards those
    it had, with, when [k] was missing, one new record for [k] that has no
    value and no buffer at the place its key gives it; the keys stay
    strictly increasing and the tree well formed. *)
Theorem find_node_creates (ops : list op) (mm : multimap) (a : nat) (k : Z) :
  1 ≤ MAX_KEYS → session ops = Done mm a →
  ∃ r' path slot kn a' l1 l2,
    find_node mm k true = Done (Multimap (Some r'), KAt path slot) a' ∧
    kn_load r' path slot = Done kn 0 ∧ key kn = k ∧
    elems r' = l1 ++ kn :: l2 ∧ sorted (elems r') ∧ (∃ h, shape h r') ∧
    (tree_elems mm = l1 ++ kn :: l2 ∨
     (tree_elems mm = l1 ++ l2 ∧ kn = KeyNode k 0 None)).
Proof.
  intros Hmax [Hrep _]%session_rep; [|done].
  destruct (find_node_create_ok Hmax mm k) as (r' & h' & p & a' & Hrun & Hins).
  { intros r. by apply (mm_rep_ok mm (session_contents ops)). }
  destruct Hins as (path & slot & l1 & kn & l2 & -> & Hsh & Hp & Hk & H1 & H2 & Hold).
  destruct Hp as (Hload & Hel & _).
  exists r', path, slot, kn, a', l1, l2.
  split; [done|]. split; [done|]. split; [done|]. split; [done|].
  split; [|split; [by exists h'|done]].
  assert (sorted (tree_elems mm)) as Hs.
  { rewrite (mm_rep_tree_elems mm _ Hrep). by destruct Hrep as (_ & ? & _). }
  rewrite Hel. destruct Hold as [Hold|[Hold ->]]; rewrite Hold in Hs; [done|].
  apply sorted_insert; [done|..]; simpl in *.
  - eapply Forall_impl; [exact H1|]. simpl. lia.
  - eapply Forall_impl; [exact H2|]. simpl. lia.
Qed.

(** X11. [find_node] with [create_if_not_found] unset, on a non-empty
    multimap a client has built: it returns, without changing the multimap
    and without allocating, [NULL] when no record of the tree has key [k],
    and else a pointer to the record of the tree that has. *)
Theorem find_node_looks_up (ops : list op) (mm : multimap) (a : nat) (r : mm_node) (k : Z) :
  1 ≤ MAX_KEYS → session ops = Done mm a → root mm = Some r →
  ∃ p, find_node mm k false = Done (mm, p) 0 ∧
    match p with
    | KNull => Forall (λ kn, key kn ≠ k) (elems r)
    | KAt path slot =>
        ∃ kn, kn_load r path slot = Done kn 0 ∧ key kn = k ∧ kn ∈ elems r
    end.
Proof.
  intros Hmax [Hrep _]%session_rep Hroot; [|done].
  destruct (mm_rep_ok mm _ r Hrep Hroot) as (h & Hsh & Hs).
  destruct (find_node_lookup_ok mm r h k Hroot Hsh Hs) as (p & Hrun & Hp).
  exists p. split; [done|]. destruct p as [|path slot]; [done|].
  destruct Hp as (l1 & kn & l2 & (Hload & Hel & _) & Hk).
  exists kn. split; [done|]. split; [done|].
  rewrite Hel. apply elem_of_app. right. by left.
Qed.

End find_node_properties.

(** X12. The second half of [mm_add_value], on a record that holds the
    values [vs]: up to [VALS_MAX = 2^29 - 17] values it returns the record
    with the old values in place and the new one after them, having called
    [realloc] exactly when the number of values was a multiple of 16; on a
    record with [VALS_MAX + 1] values the size [spaceAlloced + LINE_SIZE]
    handed to [realloc] overflows [int]. *)
Theorem append_value_limit (k : Z) (vs : list Z) (v : Z) :
  ((Z.of_nat (length vs) ≤ VALS_MAX)%Z →
   append_value (kn_of k vs) v
   = Done (kn_of k (vs ++ [v]))
          (if decide (Z.of_nat (length vs) `mod` 16 = 0)%Z then 1 else 0)) ∧
  ((Z.of_nat (length vs) = VALS_MAX + 1)%Z →
   append_value (kn_of k vs) v = Fault IntOverflow).
Proof. split; [apply append_value_ok|apply append_value_overflow]. Qed.

(** ** Further instances at [MAX_KEYS = 4] *)

Lemma nodes_stay_half_full_witness :
  ∃ mm a r,
    session (H := 4) ((λ k, Add k (10 * k)) <$> [1; 2; 3; 4; 5; 6; 7])%Z = Done mm a ∧
    root mm = Some r ∧
    1 ≤ nKeys r ∧ ∀ d node, at_depth (S d) r node → 1 ≤ nKeys node.
Proof.
  eexists _, _, _. apply and_then.
  - vm_compute. reflexivity.
  - intros Hrun. apply and_then.
    + reflexivity.
    + intros Hroot.
      apply (nodes_stay_half_full (H := 4) _ _ _ _ ltac:(unfold MAX_KEYS; lia) Hrun Hroot).
Defined.

Lemma allocations_are_accounted_witness :
  ∃ mm a,
    add_all (H := 4) [(1, 10); (2, 20); (3, 30); (4, 40); (5, 50); (1, 11)]%Z = Done mm a ∧
    a = 1 + tree_nodes mm + buffer_lines mm.
Proof.
  eexists _, _. apply and_then.
  - vm_compute. reflexivity.
  - intros Hrun.
    apply (allocations_are_accounted (H := 4) _ _ _ ltac:(unfold MAX_KEYS; lia) Hrun).
Defined.

Lemma height_grows_at_full_root_witness :
  ∃ mm a mm' a',
    session (H := 4) ((λ k, Add k (10 * k)) <$> [1; 2; 3; 4])%Z = Done mm a ∧
    mm_add_value (H := 4) mm 3 31 = Done mm' a' ∧
    height mm = 0 ∧ height mm' = 1.
Proof.
  eexists _, _, _, _. apply and_then.
  - vm_compute. reflexivity.
  - intros Hrun. apply and_then.
    + vm_compute. reflexivity.
    + intros Hadd. split; [reflexivity|].
      etrans; [apply (height_grows_at_full_root (H := 4) _ _ _ _ _ _ _
                        ltac:(unfold MAX_KEYS; lia) Hrun Hadd)|].
      reflexivity.
Defined.

Lemma height_is_logarithmic_witness :
  ∃ mm a r,
    session (H := 4) ((λ k, Add k (10 * k)) <$> [1; 2; 3; 4; 5; 6; 7])%Z = Done mm a ∧
    root mm = Some r ∧
    2 * 2 ^ height mm ≤ S (length (tree_elems mm)).
Proof.
  eexists _, _, _. apply and_then.
  - vm_compute. reflexivity.
  - intros Hrun. apply and_then.
    + reflexivity.
    + intros Hroot.
      apply (height_is_logarithmic (H := 4) _ _ _ _ ltac:(unfold MAX_KEYS; lia) Hrun Hroot).
Defined.

Lemma splitNode_keeps_records_witness :
  let k (n : Z) := kn_of n [0%Z] in
  let elder := mk_leaf (H := 4) [k 1; k 2; k 3; k 4]%Z in
  let parent := mk_inner (H := 4) [k 7%Z] [elder; mk_leaf (H := 4) [k 8; k 9]%Z] in
  ∃ parent',
    splitNode (H := 4) parent 0 = Done parent' 1 ∧
    elems parent' = [k 1; k 2; k 3; k 4; k 7; k 8; k 9]%Z.
Proof.
  intros k elder parent.
  destruct (splitNode_keeps_records (H := 4) 0 parent elder 0)
    as (parent' & Hrun & _ & Hel & _).
  - apply (shape_inner (H := 4) 0 [k 7%Z] [elder; mk_leaf (H := 4) [k 8; k 9]%Z]).
    + simpl. unfold MAX_KEYS. lia.
    + reflexivity.
    + repeat constructor; simpl; unfold MAX_KEYS; lia.
  - simpl. unfold MAX_KEYS. lia.
  - simpl. lia.
  - reflexivity.
  - simpl. lia.
  - exists parent'. split; [exact Hrun|]. rewrite Hel. reflexivity.
Defined.

Lemma find_node_creates_witness :
  ∃ mm a,
    session (H := 4) ((λ k, Add k (10 * k)) <$> [1; 2; 3; 4; 5])%Z = Done mm a ∧
    ∃ r' path slot kn a',
      find_node (H := 4) mm 6 true = Done (Multimap (Some r'), KAt path slot) a' ∧
      kn_load r' path slot = Done kn 0 ∧ key kn = 6%Z.
Proof.
  eexists _, _. apply and_then.
  - vm_compute. reflexivity.
  - intros Hrun.
    destruct (find_node_creates (H := 4) _ _ _ 6 ltac:(unfold MAX_KEYS; lia) Hrun)
      as (r' & path & slot & kn & a' & l1 & l2 & Hfind & Hload & Hkey & _).
    exists r', path, slot, kn, a'. split; [exact Hfind|]. split; [exact Hload|exact Hkey].
Defined.

Lemma find_node_looks_up_witness :
  ∃ mm a r,
    session (H := 4) ((λ k, Add k (10 * k)) <$> [1; 2; 3; 4; 5])%Z = Done mm a ∧
    root mm = Some r ∧
    ∃ p, find_node (H := 4) mm 6 false = Done (mm, p) 0.
Proof.
  eexists _, _, _. apply and_then.
  - vm_compute. reflexivity.
  - intros Hrun. apply and_then.
    + reflexivity.
    + intros Hroot.
      destruct (find_node_looks_up (H := 4) _ _ _ _ 6 ltac:(unfold MAX_KEYS; lia) Hrun Hroot)
        as (p & Hfind & _).
      exists p. exact Hfind.
Defined.

Lemma append_value_limit_witness :
  append_value (kn_of 7 [1; 2]%Z) 3 = Done (kn_of 7 [1; 2; 3]%Z) 0.
Proof.
  destruct (append_value_limit 7 [1; 2]%Z 3) as [Hok _].
  apply Hok. by vm_compute.
Defined.

Section add_properties_more.
Context `{Fanout}.

(** X13. On any multimap a client can have built, [mm_add_value (k, v)]
    returns whenever the key [k] holds at most [VALS_MAX = 2^29 - 17] values
    so far (in particular for every key that is not in the multimap,
    whatever the shape of the tree); the one call that does not return is the
    one that would add value number [2^29 - 15] to a key, which overflows the
    [int] size computed for [realloc]. *)
Theorem mm_add_value_returns (ops : list op) (mm : multimap) (a : nat) (k v : Z) :
  1 ≤ MAX_KEYS → session ops = Done mm a →
  ((nvals_of mm k ≤ VALS_MAX)%Z → ∃ mm' a', mm_add_value mm k v = Done mm' a') ∧
  ((VALS_MAX < nvals_of mm k)%Z → mm_add_value mm k v = Fault IntOverflow).
Proof.
  intros Hmax [Hrep Hwithin]%session_rep; [|done].
  destruct (mm_add_value_steps Hmax mm _ k v Hrep)
    as (la & vs & lb & a1 & r' & path & slot & Hl & Hadd & Hfind & Hbad & Hok).
  assert (nvals_of mm k = Z.of_nat (length vs)) as ->.
  { unfold nvals_of. rewrite (key_record_split mm la vs lb k v).
    - by destruct vs.
    - rewrite (mm_rep_tree_elems mm _ Hrep). by rewrite Hl at 1.
    - rewrite <- Hadd. apply sorted_rep_of, assoc_add_sorted, sorted_rep_of.
      by destruct Hrep as (_ & ? & _). }
  rewrite Hl in Hwithin.
  pose proof (vals_within_middle Hmax _ _ _ _ _ Hwithin ltac:(done)) as Hvs.
  split.
  - intros Hle. destruct (Hok _ (append_value_ok k vs v Hle)) as (r'' & _ & Hrun & _).
    eauto.
  - intros Hgt. apply Hbad, append_value_overflow. lia.
Qed.

(** X14. The tree holds one record for each key added since the last
    [clear_multimap] and no other; its buffer holds, in their order, the
    values added under the key, and its [nVals] is their number: reading the
    record out with [kNode_traverse] gives exactly the pairs added with that
    key. *)
Theorem one_record_per_key (ops : list op) (mm : multimap) (a : nat) :
  1 ≤ MAX_KEYS → session ops = Done mm a →
  StronglySorted Z.lt (key <$> tree_elems mm) ∧
  (∀ k, k ∈ key <$> tree_elems mm ↔ k ∈ (live_adds ops).*1) ∧
  ∀ kn, kn ∈ tree_elems mm →
    kNode_traverse kn = Visit (with_key (key kn) (live_adds ops)) None ∧
    nVals kn = Z.of_nat (length (with_key (key kn) (live_adds ops))).
Proof.
  intros Hmax Hrep%session_rep_live; [|done].
  rewrite (mm_rep_tree_elems mm _ Hrep).
  assert (key <$> rep_of (contents_of (live_adds ops)) = (contents_of (live_adds ops)).*1)
    as Hkeys.
  { unfold rep_of. rewrite <- list_fmap_compose. by apply list_fmap_ext. }
  rewrite Hkeys. split; [apply contents_of_sorted|].
  split; [intros k; apply contents_of_keys|].
  intros kn ([k vs] & -> & Hin)%list_elem_of_fmap. cbn [fst snd key nVals kn_of].
  rewrite kNode_traverse_ok, <- with_key_contents_of.
  rewrite (with_key_flatten_sorted k vs) by (done || apply contents_of_sorted).
  split; [done|]. by rewrite length_fmap.
Qed.

(** X15. [free_multimap_node], called by [clear_multimap] on the root of
    any tree a client has built, returns without a fault and calls [free] on
    a non-null pointer once for every node of the tree and once for every
    key record (its value buffer): together with the identity of X6 nothing
    but the multimap itself stays allocated after [clear_multimap]. *)
Theorem teardown_releases_all (ops : list op) (mm : multimap) (a : nat) (r : mm_node) :
  1 ≤ MAX_KEYS → session ops = Done mm a → root mm = Some r →
  free_multimap_node r = Done () 0 ∧
  released r = Done (tree_nodes mm + length (tree_elems mm)) 0.
Proof.
  intros Hmax [Hrep _]%session_rep Hroot; [|done].
  destruct (mm_rep_ok mm _ r Hrep Hroot) as (h & Hsh & _).
  split; [by eapply free_multimap_node_ok|].
  rewrite (released_ok h r Hsh). unfold tree_nodes. rewrite Hroot. do 2 f_equal.
  pose proof (mm_rep_tree_elems mm _ Hrep) as Hel. rewrite Hel.
  unfold tree_elems in Hel. rewrite Hroot in Hel. rewrite Hel.
  destruct Hrep as (Hne & _). clear -Hne.
  induction Hne as [|[k vs] l Hvs _ IH]; [done|]. simpl in *.
  rewrite IH. by destruct vs.
Qed.

(** X16. The bound [1 <= MAX_KEYS] assumed throughout is what the code
    needs: a first [mm_add_value] on the empty multimap returns exactly when
    a node has room for at least one record.  With [MAX_KEYS = 0],
    [find_node] writes the key to [kNodes[0]] of a node that has no such
    slot. *)
Theorem first_add_needs_room (k v : Z) :
  (∃ mm a, mm_add_value (Multimap None) k v = Done mm a) ↔ 1 ≤ MAX_KEYS.
Proof.
  split.
  - intros (mm & a & Hrun). destruct (decide (1 ≤ MAX_KEYS)) as [|Hzero]; [done|].
    exfalso. assert (MAX_KEYS = 0) as Hz by lia.
    unfold mm_add_value, find_node, alloc_node in Hrun. cbn [root] in Hrun.
    rewrite Hz in Hrun. by vm_compute in Hrun.
  - intros Hmax.
    destruct (mm_add_value_ok Hmax (Multimap None) [] k v) as (mm' & a' & Hrun & _);
      [apply mm_rep_empty|constructor|by exists mm', a'].
Qed.

End add_properties_more.

Lemma mm_add_value_returns_witness :
  ∃ mm a,
    session (H := 4) [Add 5 1; Add 3 2; Add 5 3]%Z = Done mm a ∧
    ∃ mm' a', mm_add_value (H := 4) mm 5 4 = Done mm' a'.
Proof.
  eexists _, _. apply and_then.
  - vm_compute. reflexivity.
  - intros Hrun.
    destruct (mm_add_value_returns (H := 4) _ _ _ 5 4 ltac:(unfold MAX_KEYS; lia) Hrun)
      as [Hret _].
    apply Hret. by vm_compute.
Defined.

Lemma one_record_per_key_witness :
  ∃ mm a,
    session (H := 4) [Add 5 1; Add 3 2; Clear; Add 9 0; Add 4 7; Add 9 1]%Z = Done mm a ∧
    StronglySorted Z.lt (key <$> tree_elems mm).
Proof.
  eexists _, _. apply and_then.
  - vm_compute. reflexivity.
  - intros Hrun.
    apply (one_record_per_key (H := 4) _ _ _ ltac:(unfold MAX_KEYS; lia) Hrun).
Defined.

Lemma teardown_releases_all_witness :
  ∃ mm a r,
    session (H := 4) ((λ k, Add k (10 * k)) <$> [1; 2; 3; 4; 5; 6; 7])%Z = Done mm a ∧
    root mm = Some r ∧
    released r = Done (3 + 7) 0.
Proof.
  eexists _, _, _. apply and_then.
  - vm_compute. reflexivity.
  - intros Hrun. apply and_then.
    + reflexivity.
    + intros Hroot.
      apply (teardown_releases_all (H := 4) _ _ _ _ ltac:(unfold MAX_KEYS; lia) Hrun Hroot).
Defined.
